(** * party-song-guess: the answer matcher and the room/round engine

    A shallow embedding of the game server (index.js in its current
    revision, the one with the database calls and the 20 s limit on the AI
    call: the [join_room], [start_game] and [submit_guess] socket handlers,
    [startRound], the closures it hands to [setTimeout], [endGameInternal])
    and of the answer matcher (utils/checkAnswer.js in its current revision,
    the one with accent stripping, stop words and the thresholds 0.8 and
    0.75), together with the properties of the specification that concern
    them.  The first revision of the matcher is embedded beside it in
    [Earlier], and the language heuristic of utils/languageDetection.js as
    [detectLanguage].

    Conventions.
    - A JavaScript string is the list of its UTF-16 code units ([jsstring]).
    - [String.prototype.toLowerCase] and [String.prototype.normalize("NFD")]
      are functions of the runtime (they are driven by the Unicode tables);
      the matcher is written over an interface [UnicodeOps] that provides
      them and fixes what they do on ASCII text.
    - The numbers that the matcher compares with [0.8], [0.75] and [0.3] are
      quotients of two string lengths or token counts; they are modelled as
      exact rationals.  For operands below 2^50 (every string a runtime can
      hold) the binary64 comparison and the exact comparison agree: a
      quotient [n/m] that is not equal to the threshold differs from it by
      at least [1/(10 m)], far more than the rounding errors of the division
      and of the subtraction from 1, and a quotient equal to [4/5] or
      [3/10] rounds to the same double as the literal.
    - A handler is a computation in the monad [M]: it reads and writes the
      [rooms] table, appends to the list of its effects (socket emissions,
      armed timers, database calls) and may be cut short by a thrown
      [TypeError].
    - [create_room] is not part of the model: it only adds a room under a
      fresh random id. *)

From Stdlib Require Import NArith ZArith QArith List Bool Lia.
From stdpp Require Import base gmap list strings.

Local Open Scope N_scope.

(** ** JavaScript strings as sequences of UTF-16 code units *)

Definition jsstring := list N.

(** The code units of an ASCII literal. *)
Definition js (s : string) : jsstring :=
  map Ascii.N_of_ascii (String.list_ascii_of_string s).

Fixpoint str_eqb (s t : jsstring) : bool :=
  match s, t with
  | [], [] => true
  | c :: s', d :: t' => (c =? d) && str_eqb s' t'
  | _, _ => false
  end.

Fixpoint mem_str (w : jsstring) (l : list jsstring) : bool :=
  match l with
  | [] => false
  | v :: l' => str_eqb w v || mem_str w l'
  end.

Definition in_range (lo hi c : N) : bool := (lo <=? c) && (c <=? hi).

Definition is_ascii (c : N) : bool := c <? 128.

(** [\w] without the unicode flag: [A-Za-z0-9_]. *)
Definition is_word (c : N) : bool :=
  in_range 48 57 c || in_range 65 90 c || (c =? 95) || in_range 97 122 c.

(** LineTerminator: LF, CR, LS, PS; the characters [.] does not match. *)
Definition is_line_terminator (c : N) : bool :=
  (c =? 10) || (c =? 13) || (c =? 8232) || (c =? 8233).

(** [\s]: WhiteSpace and LineTerminator of ECMAScript. *)
Definition is_space (c : N) : bool :=
  in_range 9 13 c || (c =? 32) || (c =? 160) || (c =? 5760) ||
  in_range 8192 8202 c || (c =? 8232) || (c =? 8233) || (c =? 8239) ||
  (c =? 8287) || (c =? 12288) || (c =? 65279).

Definition ascii_lower (c : N) : N :=
  if in_range 65 90 c then c + 32 else c.

(** The two string methods that depend on the Unicode tables. *)
Class UnicodeOps := {
  toLowerCase : jsstring -> jsstring;
  normalizeNFD : jsstring -> jsstring;
  toLowerCase_ascii :
    forall s, forallb is_ascii s = true -> toLowerCase s = map ascii_lower s;
  normalizeNFD_ascii :
    forall s, forallb is_ascii s = true -> normalizeNFD s = s
}.

(** The restriction of the two methods to ASCII text: letters [A-Z] are
    lowered, nothing is decomposed.  It agrees with the runtime on every
    string made of ASCII code units. *)
Definition ascii_only_ops : UnicodeOps.
Proof.
  refine {| toLowerCase := map ascii_lower; normalizeNFD := fun s => s |};
    intros; reflexivity.
Defined.

(** ** The steps of [clean] *)

(** [.replace(/[\u0300-\u036f]/g, "")]: the combining marks left by the
    decomposition are dropped. *)
Definition strip_marks (s : jsstring) : jsstring :=
  List.filter (fun c => negb (in_range 768 879 c)) s.

(** [.replace(/\(.*?\)/g, '')].  [paren_scan s] returns the replaced [s]
    and, for a scan that is inside an opened parenthesis, what follows the
    first [)] when no line terminator comes before it. *)
Fixpoint paren_scan (s : jsstring) : jsstring * option jsstring :=
  match s with
  | [] => ([], None)
  | c :: r =>
      let '(out, close) := paren_scan r in
      (if c =? 40
       then match close with Some rest => rest | None => c :: out end
       else c :: out,
       if c =? 41 then Some out
       else if is_line_terminator c then None
       else close)
  end.

Definition strip_parens (s : jsstring) : jsstring := fst (paren_scan s).

(** what is left after the lazy [.*?\)] when the scan stands behind a [(] *)
Definition after_close (s : jsstring) : option jsstring := snd (paren_scan s).

Definition no_line_terminator (s : jsstring) : bool :=
  forallb (fun c => negb (is_line_terminator c)) s.

(** [feat\.?\b.*$] matched at the head of [s] (the leading [\b] is checked
    by the caller): the literal, then either the dot followed by a word
    boundary or, on backtracking, a word boundary right after the literal,
    then [.*] up to the end of the input. *)
Definition feat_here (s : jsstring) : bool :=
  match s with
  | 102 :: 101 :: 97 :: 116 :: r =>
      let with_dot :=
        match r with
        | 46 :: d :: _ => is_word d
        | _ => false
        end in
      let without_dot :=
        match r with
        | [] => true
        | d :: _ => negb (is_word d)
        end in
      (with_dot || without_dot) && no_line_terminator r
  | _ => false
  end.

(** [.replace(/\bfeat\.?\b.*$/g, '')]: the leftmost match runs to the end of
    the input, so it is the only one. *)
Fixpoint strip_feat_from (prev_is_word : bool) (s : jsstring) : jsstring :=
  match s with
  | [] => []
  | c :: r =>
      if negb prev_is_word && feat_here s then []
      else c :: strip_feat_from (is_word c) r
  end.

Definition strip_feat (s : jsstring) : jsstring := strip_feat_from false s.

(** [.replace(/[^\w\s]/g, ' ')] *)
Definition blank_specials (s : jsstring) : jsstring :=
  map (fun c => if is_word c || is_space c then c else 32) s.

(** [.replace(/\s+/g, ' ')] *)
Fixpoint collapse_from (in_run : bool) (s : jsstring) : jsstring :=
  match s with
  | [] => []
  | c :: r =>
      if is_space c
      then (if in_run then collapse_from true r else 32 :: collapse_from true r)
      else c :: collapse_from false r
  end.

Definition collapse_spaces (s : jsstring) : jsstring := collapse_from false s.

Fixpoint trim_start (s : jsstring) : jsstring :=
  match s with
  | c :: r => if is_space c then trim_start r else s
  | [] => []
  end.

(** [.trim()] *)
Definition trim (s : jsstring) : jsstring :=
  rev (trim_start (rev (trim_start s))).

(** [str.split(' ')] *)
Fixpoint split_space (s : jsstring) : list jsstring :=
  match s with
  | [] => [[]]
  | c :: r =>
      if c =? 32 then [] :: split_space r
      else match split_space r with
           | w :: ws => (c :: w) :: ws
           | [] => [[c]]
           end
  end.

(** [new Set(list)]: the distinct elements, in order of first insertion. *)
Fixpoint set_add_all (acc : list jsstring) (l : list jsstring) : list jsstring :=
  match l with
  | [] => acc
  | w :: l' => set_add_all (if mem_str w acc then acc else acc ++ [w]) l'
  end.

Definition new_Set (l : list jsstring) : list jsstring := set_add_all [] l.

(** [g.includes(a)] *)
Fixpoint starts_with (p s : jsstring) : bool :=
  match p, s with
  | [], _ => true
  | c :: p', d :: s' => (c =? d) && starts_with p' s'
  | _ :: _, [] => false
  end.

Fixpoint includes (s p : jsstring) : bool :=
  starts_with p s ||
  match s with
  | [] => false
  | _ :: s' => includes s' p
  end.

(** ** Levenshtein distance, row by row as the [dp] table is filled *)

(** Row [i] from row [i-1]: [diag] is [dp[i-1][j-1]], the head of [up] is
    [dp[i-1][j]], [left] is [dp[i][j-1]]. *)
Fixpoint dp_row (ch : N) (s2 : jsstring) (diag : nat) (up : list nat)
    (left : nat) : list nat :=
  match s2, up with
  | c2 :: s2', u :: up' =>
      let cost := if ch =? c2 then 0%nat else 1%nat in
      let v := Nat.min (Nat.min (u + 1) (left + 1)) (diag + cost) in
      v :: dp_row ch s2' u up' v
  | _, _ => []
  end.

(** [rows s1 s2 i prev]: [prev] is row [i] of the table; the result is its
    last row. *)
Fixpoint dp_rows (s1 s2 : jsstring) (i : nat) (prev : list nat) : list nat :=
  match s1 with
  | [] => prev
  | ch :: s1' =>
      dp_rows s1' s2 (S i) (S i :: dp_row ch s2 i (tl prev) (S i))
  end.

Definition editDistance (s1 s2 : jsstring) : nat :=
  List.last (dp_rows s1 s2 0 (seq 0 (S (length s2)))) 0%nat.

Definition ratio (n m : nat) : Q :=
  (inject_Z (Z.of_nat n) / inject_Z (Z.of_nat m))%Q.

Definition Qlt_bool (x y : Q) : bool := negb (Qle_bool y x).

Definition abs_diff (n m : nat) : nat := (Nat.max n m - Nat.min n m)%nat.

(** ** Values a handler can receive, and abrupt completion *)

(** The JSON values of a socket payload (and [undefined] for a missing
    field).  Only strings have a callable [toLowerCase].  A number is an
    integer or NaN; a fraction is truthy like any non-zero integer. *)
Inductive JsVal :=
| JsUndefined
| JsNull
| JsBool (b : bool)
| JsNumber (z : Z)
| JsNaN
| JsString (s : jsstring)
| JsObject
| JsArray.

Definition is_nil {A : Type} (l : list A) : bool :=
  match l with [] => true | _ :: _ => false end.

(** ToBoolean *)
Definition truthy (v : JsVal) : bool :=
  match v with
  | JsUndefined | JsNull | JsNaN => false
  | JsBool b => b
  | JsNumber z => negb (z =? 0)%Z
  | JsString s => negb (is_nil s)
  | JsObject | JsArray => true
  end.

Inductive JsError := TypeError.

Inductive Completion (A : Type) :=
| Returns (a : A)
| Throws (e : JsError).
Arguments Returns {A} a.
Arguments Throws {A} e.

Definition cbind {A B : Type} (c : Completion A) (k : A -> Completion B)
  : Completion B :=
  match c with
  | Returns a => k a
  | Throws e => Throws e
  end.

(** ** The matcher: utils/checkAnswer.js, current revision *)

Definition stopwords : list jsstring :=
  map js ["the"; "a"; "an"; "le"; "la"; "il"; "lo"; "i"; "gli"; "un"; "una";
          "uno"; "el"; "los"; "las"; "unos"; "unas"; "and"; "of"; "in"; "on";
          "at"; "to"]%string.

(** [getTokens]: the significant words of a cleaned string *)
Definition getTokens (str : jsstring) : list jsstring :=
  new_Set (List.filter
             (fun w => (0 <? length w)%nat && negb (mem_str w stopwords))
             (split_space str)).

(** [new Set(str.split(' ').filter(w => w))] *)
Definition rawTokens (str : jsstring) : list jsstring :=
  new_Set (List.filter (fun w => negb (is_nil w)) (split_space str)).

(** [finalGTokens], [finalATokens] *)
Definition finalTokens (str : jsstring) : list jsstring :=
  let tokens := getTokens str in
  if (0 <? length tokens)%nat then tokens else rawTokens str.

(** [[...finalGTokens].filter(x => finalATokens.has(x))] *)
Definition intersection (g a : jsstring) : list jsstring :=
  List.filter (fun x => mem_str x (finalTokens a)) (finalTokens g).

Definition overlapRatio (g a : jsstring) : Q :=
  ratio (length (intersection g a)) (length (finalTokens a)).

(** tier 2: [finalATokens.size > 0] and [overlapRatio >= 0.8] *)
Definition token_overlap (g a : jsstring) : bool :=
  (0 <? length (finalTokens a))%nat && Qle_bool (8 # 10) (overlapRatio g a).

(** tier 3: the inner function [similarity] *)
Definition similarity (s1 s2 : jsstring) : Q :=
  let len1 := length s1 in
  let len2 := length s2 in
  if (len1 =? 0)%nat || (len2 =? 0)%nat then 0%Q
  else if Qlt_bool (3 # 10) (ratio (abs_diff len1 len2) (Nat.max len1 len2))
  then 0%Q
  else (1 - ratio (editDistance s1 s2) (Nat.max len1 len2))%Q.

(** the decision on the two cleaned strings, from [if (!g || !a)] on *)
Definition accept_cleaned (g a : jsstring) : bool :=
  if is_nil g || is_nil a then false
  else if str_eqb g a then true
  else if token_overlap g a then true
  else Qle_bool (75 # 100) (similarity g a).

Section Matcher.
Context {U : UnicodeOps}.

Definition clean (str : jsstring) : jsstring :=
  trim (collapse_spaces (blank_specials (strip_feat (strip_parens
    (strip_marks (normalizeNFD (toLowerCase str))))))).

(** [clean] applied to a JavaScript value: [str.toLowerCase()] is a call
    of a method that only strings have. *)
Definition clean_value (v : JsVal) : Completion jsstring :=
  match v with
  | JsString s => Returns (clean s)
  | _ => Throws TypeError
  end.

Definition checkAnswer (guess actual : JsVal) : Completion bool :=
  if negb (truthy guess) || negb (truthy actual) then Returns false
  else
    cbind (clean_value guess) (fun g =>
    cbind (clean_value actual) (fun a =>
    Returns (accept_cleaned g a))).

End Matcher.

(** ** The data of index.js *)

Inductive Phase := LOBBY | LOADING | PLAYING | ENDED.

Definition is_playing (p : Phase) : bool :=
  match p with PLAYING => true | _ => false end.

Definition is_lobby (p : Phase) : bool :=
  match p with LOBBY => true | _ => false end.

(** A song object as the music service returns it.  [song_ref] stands for
    the identity of the object: [room.currentSong === song] compares
    references, and two songs of a playlist are two objects. *)
Record Song := {
  song_ref : nat;
  title : JsVal;
  artist : JsVal;
  previewUrl : JsVal;
  artwork : JsVal
}.

Definition same_object (s1 s2 : Song) : bool := (song_ref s1 =? song_ref s2)%nat.

Record Player := {
  p_id : string;      (* socket.id *)
  p_name : JsVal;
  score : nat;
  p_userId : JsVal
}.

(** A room of the [rooms] table.  [roundActive] and [songs] are absent from
    a freshly created room ([undefined], read as [false] and as a playlist
    without entries); [currentSong] is [None] for [null] and [undefined].
    The field [scores] of the source is never read or written. *)
Record Room := {
  room_id : string;
  hostId : JsVal;
  players : list Player;
  state : Phase;
  currentRound : nat;
  totalRounds : nat;
  currentSong : option Song;
  roundActive : bool;
  songs : list Song
}.

Definition set_state (p : Phase) (r : Room) : Room :=
  {| room_id := room_id r; hostId := hostId r; players := players r;
     state := p; currentRound := currentRound r; totalRounds := totalRounds r;
     currentSong := currentSong r; roundActive := roundActive r;
     songs := songs r |}.

Definition set_roundActive (b : bool) (r : Room) : Room :=
  {| room_id := room_id r; hostId := hostId r; players := players r;
     state := state r; currentRound := currentRound r;
     totalRounds := totalRounds r; currentSong := currentSong r;
     roundActive := b; songs := songs r |}.

Definition set_players (ps : list Player) (r : Room) : Room :=
  {| room_id := room_id r; hostId := hostId r; players := ps;
     state := state r; currentRound := currentRound r;
     totalRounds := totalRounds r; currentSong := currentSong r;
     roundActive := roundActive r; songs := songs r |}.

Definition set_currentRound (n : nat) (r : Room) : Room :=
  {| room_id := room_id r; hostId := hostId r; players := players r;
     state := state r; currentRound := n; totalRounds := totalRounds r;
     currentSong := currentSong r; roundActive := roundActive r;
     songs := songs r |}.

Definition set_totalRounds (n : nat) (r : Room) : Room :=
  {| room_id := room_id r; hostId := hostId r; players := players r;
     state := state r; currentRound := currentRound r; totalRounds := n;
     currentSong := currentSong r; roundActive := roundActive r;
     songs := songs r |}.

Definition set_currentSong (s : option Song) (r : Room) : Room :=
  {| room_id := room_id r; hostId := hostId r; players := players r;
     state := state r; currentRound := currentRound r;
     totalRounds := totalRounds r; currentSong := s;
     roundActive := roundActive r; songs := songs r |}.

Definition set_songs (l : list Song) (r : Room) : Room :=
  {| room_id := room_id r; hostId := hostId r; players := players r;
     state := state r; currentRound := currentRound r;
     totalRounds := totalRounds r; currentSong := currentSong r;
     roundActive := roundActive r; songs := l |}.

(** [room.players.find(p => p.id === socket.id)] *)
Definition find_player (sid : string) (ps : list Player) : option Player :=
  List.find (fun p => String.eqb (p_id p) sid) ps.

(** [player.score += 1] on the object that [find] returned: the first player
    of the list with that id. *)
Fixpoint award (sid : string) (ps : list Player) : list Player :=
  match ps with
  | [] => []
  | p :: ps' =>
      if String.eqb (p_id p) sid
      then {| p_id := p_id p; p_name := p_name p; score := S (score p);
              p_userId := p_userId p |} :: ps'
      else p :: award sid ps'
  end.

Definition total_score (ps : list Player) : nat :=
  fold_right (fun p acc => (score p + acc)%nat) 0%nat ps.

(** *** Effects of a handler *)

Inductive Target :=
| ToRoom (roomId : string)     (* io.to(roomId).emit *)
| ToSocket (sid : string).     (* socket.emit *)

Inductive ErrorCode := ROOM_NOT_FOUND_OR_STARTED | AI_TIMEOUT | GENERATION_FAILED.

Inductive Message :=
| player_joined (ps : list Player)
| room_joined (r : Room)
| error (code : ErrorCode) (message : option string)
| game_loading
| game_started (total : nat)
| update_scores (ps : list Player)
| round_winner (player : JsVal) (song : option Song)
| wrong_guess
| start_countdown (duration : N)
| new_round (roundNumber : nat) (preview : JsVal)
| round_timeout (song : Song)
| game_over (ps : list Player).

(** The closures handed to [setTimeout], with what they capture. *)
Inductive Callback :=
| AiTimeoutReject                              (* reject(new Error('AI timeout...')) *)
| StartRound (roomId : string)                 (* () => startRound(roomId) *)
| AfterWin (roomId : string)                   (* the pause after a winner *)
| RoundBegin (roomId : string)                 (* the end of the countdown *)
| RoundTimeout (roomId : string) (song : Song). (* the 30 s timeout of a round *)

Inductive Effect :=
| Emit (to : Target) (m : Message)
| SetTimeout (cb : Callback) (ms : N)
| UpdateGameRoomStatus (roomId : string) (status : Phase) (total_rounds : Z)
| EndGame (roomId : string) (ps : list Player).

(** *** The handler monad: the [rooms] table, the effects, exceptions *)

Record Outcome (A : Type) := mkOutcome {
  out_rooms : gmap string Room;
  out_effects : list Effect;
  out_result : Completion A
}.
Arguments mkOutcome {A} _ _ _.
Arguments out_rooms {A} _.
Arguments out_effects {A} _.
Arguments out_result {A} _.

Definition M (A : Type) : Type := gmap string Room -> Outcome A.

Definition ret {A : Type} (a : A) : M A :=
  fun rooms => mkOutcome rooms [] (Returns a).

Definition bind {A B : Type} (m : M A) (k : A -> M B) : M B :=
  fun rooms =>
    let o := m rooms in
    match out_result o with
    | Returns a =>
        let o' := k a (out_rooms o) in
        mkOutcome (out_rooms o') (out_effects o ++ out_effects o') (out_result o')
    | Throws e => mkOutcome (out_rooms o) (out_effects o) (Throws e)
    end.

Notation "x <- c1 ;; c2" := (bind c1 (fun x => c2))
  (at level 100, c1 at next level, right associativity).
Notation "c1 ;; c2" := (bind c1 (fun _ => c2))
  (at level 100, right associativity).

(** The names that every object inherits from [Object.prototype].  [rooms]
    is a plain object ([const rooms = {}]): for one of these names
    [rooms[roomId]] is not [undefined] but a function or the prototype
    itself, a truthy value that has no [players], [state] or [roundActive].
    The ids of rooms are upper-case base-36 strings and never one of these
    names. *)
Definition prototype_members : list string :=
  ["constructor"; "__proto__"; "toString"; "toLocaleString"; "valueOf";
   "hasOwnProperty"; "isPrototypeOf"; "propertyIsEnumerable";
   "__defineGetter__"; "__defineSetter__"; "__lookupGetter__";
   "__lookupSetter__"]%string.

Definition is_inherited (roomId : string) : bool :=
  existsb (String.eqb roomId) prototype_members.

(** [rooms[roomId]] as a room: [None] when the table has no room of that
    id.  The handlers that test [state] or [roundActive] of what they
    find ([join_room], [submit_guess]) take the same branch for an
    inherited member as for [undefined]; [start_game] reads
    [players.length] and does not.  The functions that timers call are
    only reached with the ids of rooms. *)
Definition get_room (roomId : string) : M (option Room) :=
  fun rooms => mkOutcome rooms [] (Returns (rooms !! roomId)).

(** an assignment to a field of the room object *)
Definition update_room (roomId : string) (f : Room -> Room) : M unit :=
  fun rooms => mkOutcome (alter f roomId rooms) [] (Returns tt).

Definition perform (e : Effect) : M unit :=
  fun rooms => mkOutcome rooms [e] (Returns tt).

Definition emit (to : Target) (m : Message) : M unit := perform (Emit to m).

Definition setTimeout (cb : Callback) (ms : N) : M unit :=
  perform (SetTimeout cb ms).

Definition throw {A : Type} (e : JsError) : M A :=
  fun rooms => mkOutcome rooms [] (Throws e).

Definition lift {A : Type} (c : Completion A) : M A :=
  fun rooms => mkOutcome rooms [] c.

(** *** What the awaited collaborators hand back to [start_game] *)

(** [validSongs.sort(() => Math.random() - 0.5)]: some rearrangement. *)
Record Shuffle := {
  shuffled : list Song -> list Song;
  shuffled_perm : forall l, Permutation l (shuffled l)
}.

(** How the two awaits of [start_game] end.  A rejection carries the
    [message] of its [Error]. *)
Inductive Resolution :=
| RaceRejected (message : string)
    (* the AI call failed or the 20 s timer won the race *)
| NoRecommendations
    (* the AI call returned null, undefined or an empty array *)
| LookupRejected (message : string)
    (* a searchAndGetPreview call failed *)
| Lookups (results : list (option Song)) (sort : Shuffle).
    (* one result per candidate, null when no preview was found *)

(** [parseInt(rounds, 10) || 10], capped at 50; [rounds] is the result of
    [parseInt], [None] for [NaN]. *)
Definition requested_rounds (rounds : option Z) : Z :=
  let n := match rounds with
           | Some z => if (z =? 0)%Z then 10%Z else z
           | None => 10%Z
           end in
  if (50 <? n)%Z then 50%Z else n.

(** [list.slice(0, n)] *)
Definition slice0 {A : Type} (n : Z) (l : list A) : list A :=
  firstn (Z.to_nat (if (n <? 0)%Z then Z.of_nat (length l) + n else n)%Z) l.

(** The [try] block of [start_game] up to step 5: the final playlist, or the
    message of the error that reaches the [catch]. *)
Definition final_playlist (requestedRounds : Z) (res : Resolution)
  : string + list Song :=
  match res with
  | RaceRejected message => inl message
  | NoRecommendations => inl "AI returned no valid results."%string
  | LookupRejected message => inl message
  | Lookups results sort =>
      let validSongs := omap (fun song => song) results in
      let shuffledSongs := shuffled sort validSongs in
      let finalPlaylist := slice0 requestedRounds shuffledSongs in
      if (length finalPlaylist =? 0)%nat
      then inl "No songs found on Apple Music matching the AI list."%string
      else inr finalPlaylist
  end.

Definition current_is (song : Song) (r : Room) : bool :=
  match currentSong r with
  | Some s => same_object s song
  | None => false
  end.

Section Server.
Context {U : UnicodeOps}.

(** [socket.on('join_room', ...)] *)
Definition join_room (sid roomId : string) (playerName userId : JsVal)
  : M unit :=
  room <- get_room roomId ;;
  match room with
  | Some r =>
      if is_lobby (state r) then
        let joined := players r ++
          [{| p_id := sid; p_name := playerName; score := 0;
              p_userId := userId |}] in
        update_room roomId (set_players joined) ;;
        emit (ToRoom roomId) (player_joined joined) ;;
        emit (ToSocket sid) (room_joined (set_players joined r))
      else emit (ToSocket sid) (error ROOM_NOT_FOUND_OR_STARTED None)
  | None => emit (ToSocket sid) (error ROOM_NOT_FOUND_OR_STARTED None)
  end.

(** [socket.on('start_game', ...)] up to its first [await].  The result
    is [requestedRounds] when the handler goes on to wait for the
    playlist, and [None] when it returned at once.  The guard is
    [!room || room.players.length === 0]: for an id that is no room but an
    inherited member, [room] is truthy, [room.players] is [undefined] and
    reading its [length] throws. *)
Definition start_game (sid roomId : string) (rounds : option Z)
  : M (option Z) :=
  room <- get_room roomId ;;
  match room with
  | None => if is_inherited roomId then throw TypeError else ret None
  | Some r =>
      if (length (players r) =? 0)%nat then ret None
      else
        let requestedRounds := requested_rounds rounds in
        update_room roomId (set_state LOADING) ;;
        emit (ToRoom roomId) game_loading ;;
        setTimeout AiTimeoutReject 20000 ;;
        ret (Some requestedRounds)
  end.

(** [start_game] after its awaits: step 6 and 7, or the [catch]. *)
Definition start_game_resume (roomId : string) (requestedRounds : Z)
    (res : Resolution) : M unit :=
  match final_playlist requestedRounds res with
  | inr finalPlaylist =>
      update_room roomId (set_songs finalPlaylist) ;;
      update_room roomId (set_totalRounds (length finalPlaylist)) ;;
      update_room roomId (set_currentRound 0) ;;
      update_room roomId (set_state PLAYING) ;;
      room <- get_room roomId ;;
      match room with
      | Some r =>
          (if truthy (hostId r)
           then perform (UpdateGameRoomStatus roomId PLAYING requestedRounds)
           else ret tt) ;;
          emit (ToRoom roomId) (game_started (totalRounds r)) ;;
          setTimeout (StartRound roomId) 1000
      | None => ret tt
      end
  | inl message =>
      update_room roomId (set_state LOBBY) ;;
      emit (ToRoom roomId)
        (error (if String.prefix "AI timeout" message
                then AI_TIMEOUT else GENERATION_FAILED) (Some message))
  end.

(** [room.currentSong.title] *)
Definition currentSong_title (r : Room) : M JsVal :=
  match currentSong r with
  | Some song => ret (title song)
  | None => throw TypeError
  end.

(** [socket.on('submit_guess', ...)] *)
Definition submit_guess (sid roomId : string) (guess : JsVal) : M unit :=
  room <- get_room roomId ;;
  match room with
  | None => ret tt
  | Some r =>
      if negb (roundActive r) || negb (is_playing (state r)) then ret tt
      else
        actual <- currentSong_title r ;;
        accepted <- lift (checkAnswer guess actual) ;;
        if accepted : bool then
          update_room roomId (set_roundActive false) ;;
          match find_player sid (players r) with
          | Some player =>
              update_room roomId (set_players (award sid (players r))) ;;
              emit (ToRoom roomId) (update_scores (award sid (players r))) ;;
              emit (ToRoom roomId)
                (round_winner (p_name player) (currentSong r)) ;;
              setTimeout (AfterWin roomId) 5000
          | None => ret tt
          end
        else emit (ToSocket sid) wrong_guess
  end.

(** [endGameInternal(roomId)] *)
Definition endGameInternal (roomId : string) : M unit :=
  room <- get_room roomId ;;
  match room with
  | Some r =>
      update_room roomId (set_state ENDED) ;;
      emit (ToRoom roomId) (game_over (players r)) ;;
      if truthy (hostId r) then perform (EndGame roomId (players r))
      else ret tt
  | None => ret tt
  end.

(** [startRound(roomId)], up to the arming of the countdown *)
Definition startRound (roomId : string) : M unit :=
  room <- get_room roomId ;;
  match room with
  | None => throw TypeError
  | Some r =>
      if (totalRounds r <=? currentRound r)%nat then endGameInternal roomId
      else
        emit (ToRoom roomId) (start_countdown 3) ;;
        setTimeout (RoundBegin roomId) 3000
  end.

(** The closure that runs when the countdown is over.  It holds the room
    object itself, so the [None] branch stands for nothing in the source. *)
Definition countdown_elapsed (roomId : string) : M unit :=
  room <- get_room roomId ;;
  match room with
  | None => ret tt
  | Some r =>
      let song := songs r !! currentRound r in
      update_room roomId (set_currentSong song) ;;
      update_room roomId (set_roundActive true) ;;
      update_room roomId (set_currentRound (S (currentRound r))) ;;
      match song with
      | Some sg =>
          emit (ToRoom roomId)
            (new_round (S (currentRound r)) (previewUrl sg)) ;;
          setTimeout (RoundTimeout roomId sg) 30000
      | None => throw TypeError
      end
  end.

(** The closure of the 30 s timeout of the round that plays [song]. *)
Definition timeout_elapsed (roomId : string) (song : Song) : M unit :=
  room <- get_room roomId ;;
  match room with
  | None => ret tt
  | Some r =>
      if roundActive r && current_is song r then
        update_room roomId (set_roundActive false) ;;
        emit (ToRoom roomId) (round_timeout song) ;;
        setTimeout (StartRound roomId) 5000
      else ret tt
  end.

(** The closure of the pause after a winner. *)
Definition winner_pause_elapsed (roomId : string) : M unit :=
  room <- get_room roomId ;;
  match room with
  | None => ret tt
  | Some r =>
      if (currentRound r <? totalRounds r)%nat then startRound roomId
      else endGameInternal roomId
  end.

Definition run_callback (cb : Callback) : M unit :=
  match cb with
  | AiTimeoutReject => ret tt
  | StartRound roomId => startRound roomId
  | AfterWin roomId => winner_pause_elapsed roomId
  | RoundBegin roomId => countdown_elapsed roomId
  | RoundTimeout roomId song => timeout_elapsed roomId song
  end.

(** *** The server as a transition system *)

Record Timer := { timer_cb : Callback; timer_ms : N }.

(** The [rooms] table and the timers that are armed and have not fired. *)
Record Server := {
  rooms : gmap string Room;
  pending : list Timer
}.

Inductive Event :=
| JoinRoom (sid roomId : string) (playerName userId : JsVal)
| StartGame (sid roomId : string) (rounds : option Z)
| PlaylistSettled (roomId : string) (requestedRounds : Z) (res : Resolution)
| SubmitGuess (sid roomId : string) (guess : JsVal)
| TimerFires (i : nat).   (* the i-th pending timer *)

Definition armed (effs : list Effect) : list Timer :=
  omap (fun e => match e with
                 | SetTimeout cb ms => Some {| timer_cb := cb; timer_ms := ms |}
                 | _ => None
                 end) effs.

Definition handle (ev : Event) : M unit :=
  match ev with
  | JoinRoom sid roomId playerName userId =>
      join_room sid roomId playerName userId
  | StartGame sid roomId rounds => start_game sid roomId rounds ;; ret tt
  | PlaylistSettled roomId requestedRounds res =>
      start_game_resume roomId requestedRounds res
  | SubmitGuess sid roomId guess => submit_guess sid roomId guess
  | TimerFires _ => ret tt
  end.

(** One turn of the event loop.  Any pending timer may be the next to
    fire; a timer leaves [pending] only by firing, the source never calls
    [clearTimeout].  A handler that throws keeps what it wrote before, and
    the run goes on: an uncaught exception that stops the process only cuts
    a run short. *)
Definition step (s : Server) (ev : Event) : Server * list Effect :=
  match ev with
  | TimerFires i =>
      match pending s !! i with
      | Some t =>
          let o := run_callback (timer_cb t) (rooms s) in
          ({| rooms := out_rooms o;
              pending := delete i (pending s) ++ armed (out_effects o) |},
           out_effects o)
      | None => (s, [])
      end
  | _ =>
      let o := handle ev (rooms s) in
      ({| rooms := out_rooms o;
          pending := pending s ++ armed (out_effects o) |},
       out_effects o)
  end.

Fixpoint run (s : Server) (evs : list Event) : Server * list Effect :=
  match evs with
  | [] => (s, [])
  | ev :: evs' =>
      let '(s1, effs1) := step s ev in
      let '(s2, effs2) := run s1 evs' in
      (s2, effs1 ++ effs2)
  end.

End Server.

(** ** The first revision of utils/checkAnswer.js

    The revision that the first test-suite exercises ("5-tiered matching":
    exact, substring, word overlap of 60%, similarity of 0.7).  It is kept
    beside the current matcher to show where the two part. *)
Module Earlier.

(** [common.length / aWords.length >= 0.6] over the distinct words *)
Definition word_overlap (g a : jsstring) : bool :=
  let aWords := new_Set (split_space a) in
  let gWords := new_Set (split_space g) in
  let common := List.filter (fun w => mem_str w gWords) aWords in
  (0 <? length aWords)%nat &&
  Qle_bool (6 # 10) (ratio (length common) (length aWords)).

Definition similarity (s1 s2 : jsstring) : Q :=
  let len1 := length s1 in
  let len2 := length s2 in
  if (len1 =? 0)%nat || (len2 =? 0)%nat then 0%Q
  else (1 - ratio (editDistance s1 s2) (Nat.max len1 len2))%Q.

Definition accept_cleaned (g a : jsstring) : bool :=
  if is_nil g || is_nil a then false
  else if str_eqb g a then true
  else if includes g a || includes a g then true
  else if word_overlap g a then true
  else Qle_bool (7 # 10) (similarity g a).

Section Matcher.
Context {U : UnicodeOps}.

Definition clean (str : jsstring) : jsstring :=
  trim (collapse_spaces (blank_specials (strip_feat (strip_parens
    (toLowerCase str))))).

Definition clean_value (v : JsVal) : Completion jsstring :=
  match v with
  | JsString s => Returns (clean s)
  | _ => Throws TypeError
  end.

Definition checkAnswer (guess actual : JsVal) : Completion bool :=
  if negb (truthy guess) || negb (truthy actual) then Returns false
  else
    cbind (clean_value guess) (fun g =>
    cbind (clean_value actual) (fun a =>
    Returns (accept_cleaned g a))).

End Matcher.
End Earlier.

(** ** Vocabulary of the properties *)

Definition is_string (v : JsVal) : bool :=
  match v with JsString _ => true | _ => false end.

Definition guesses (roomId : string) (subs : list (string * JsVal))
  : list Event :=
  map (fun sg => SubmitGuess (fst sg) roomId (snd sg)) subs.

Definition is_round_winner (e : Effect) : bool :=
  match e with Emit _ (round_winner _ _) => true | _ => false end.

Section Notices.
Context {U : UnicodeOps}.

(** What guesses that are not accepted get back during the round of [song]:
    a private notice for one that the matcher rejects, nothing for one on
    which it throws. *)
Definition notices (song : Song) (subs : list (string * JsVal))
  : list Effect :=
  flat_map (fun sg => match checkAnswer (snd sg) (title song) with
                      | Returns false => [Emit (ToSocket (fst sg)) wrong_guess]
                      | _ => []
                      end) subs.

End Notices.

(** What the accepted guess of [sid] produces in room [roomId]. *)
Definition win_effects (roomId sid : string) (r : Room) : list Effect :=
  match find_player sid (players r) with
  | Some p =>
      [Emit (ToRoom roomId) (update_scores (award sid (players r)));
       Emit (ToRoom roomId) (round_winner (p_name p) (currentSong r));
       SetTimeout (AfterWin roomId) 5000]
  | None => []
  end.

Definition cb_room (cb : Callback) : option string :=
  match cb with
  | AiTimeoutReject => None
  | StartRound roomId | AfterWin roomId | RoundBegin roomId
  | RoundTimeout roomId _ => Some roomId
  end.

(** An effect of a handler that works for room [rid]. *)
Definition about (rid : string) (e : Effect) : Prop :=
  match e with
  | Emit (ToRoom x) _ => x = rid
  | Emit (ToSocket _) _ => True
  | SetTimeout cb _ => cb_room cb = Some rid \/ cb_room cb = None
  | UpdateGameRoomStatus x _ _ => x = rid
  | EndGame x _ => x = rid
  end.

Definition local {A : Type} (rid : string) (m : M A) : Prop :=
  forall tbl : gmap string Room,
    (forall k, k <> rid -> out_rooms (m tbl) !! k = tbl !! k) /\
    Forall (about rid) (out_effects (m tbl)).

(** the room an event is addressed to *)
Definition event_room (ev : Event) : option string :=
  match ev with
  | JoinRoom _ roomId _ _ | StartGame _ roomId _
  | PlaylistSettled roomId _ _ | SubmitGuess _ roomId _ => Some roomId
  | TimerFires _ => None
  end.

(** A pending timer that cannot start a round of room [roomId]: the timers
    of other rooms, the AI timer and the round timeouts. *)
Definition inert_for (roomId : string) (t : Timer) : Prop :=
  match timer_cb t with
  | AiTimeoutReject | RoundTimeout _ _ => True
  | StartRound rid | AfterWin rid | RoundBegin rid => rid <> roomId
  end.

(** The two events that resolve a round of room [roomId]. *)
Definition resolves (roomId : string) (e : Effect) : bool :=
  match e with
  | Emit (ToRoom x) (round_winner _ _) => String.eqb x roomId
  | Emit (ToRoom x) (round_timeout _) => String.eqb x roomId
  | _ => false
  end.

Definition dormant (roomId : string) (tbl : gmap string Room) : Prop :=
  exists r, tbl !! roomId = Some r /\ roundActive r = false.

Definition quiet (roomId : string) (effs : list Effect) : Prop :=
  Forall (inert_for roomId) (armed effs) /\
  Forall (fun e => resolves roomId e = false) effs.

(** no new playlist is delivered to room [roomId] *)
Definition no_restart (roomId : string) (ev : Event) : Prop :=
  match ev with
  | PlaylistSettled rid _ _ => rid <> roomId
  | _ => True
  end.

(** A timer that advances the round sequence of room [roomId]: the start
    of a round, the end of the countdown, the pause after a winner. *)
Definition drives (roomId : string) (t : Timer) : bool :=
  match timer_cb t with
  | StartRound rid | AfterWin rid | RoundBegin rid => String.eqb rid roomId
  | AiTimeoutReject | RoundTimeout _ _ => false
  end.

Definition drivers (roomId : string) (l : list Timer) : list Timer :=
  List.filter (drives roomId) l.

(** The round sequence of room [roomId] has one thread: no driving timer
    is pending while a round is active, at most one otherwise. *)
Definition paced (roomId : string) (s : Server) : Prop :=
  exists r, rooms s !! roomId = Some r /\
            (length (drivers roomId (pending s))
             <= if roundActive r then 0 else 1)%nat.

(** What an event of the room itself does to [roundActive] and how many
    driving timers it arms: nothing of either, or it ends the active round
    and arms at most one. *)
Definition keeps_pace (roomId : string) (r : Room) (o : Outcome unit) : Prop :=
  exists r', out_rooms o !! roomId = Some r' /\
    ((roundActive r' = roundActive r /\
      drivers roomId (armed (out_effects o)) = []) \/
     (roundActive r = true /\ roundActive r' = false /\
      (length (drivers roomId (armed (out_effects o))) <= 1)%nat)).

(** After a driving timer of the room has fired: either the room is still
    between rounds and at most one driving timer was armed, or a round has
    begun and none was. *)
Definition resumes_pace (roomId : string) (o : Outcome unit) : Prop :=
  exists r', out_rooms o !! roomId = Some r' /\
    (length (drivers roomId (armed (out_effects o)))
     <= if roundActive r' then 0 else 1)%nat.

Definition resolution_failed (res : Resolution) : Prop :=
  match res with
  | Lookups results _ => Forall (fun x => x = None) results
  | _ => True
  end.

Definition in_order : Shuffle :=
  {| shuffled := fun l => l; shuffled_perm := @Permutation_refl Song |}.

(** ** A room in the middle of a game *)

Module Demo.
Definition wonderwall : Song :=
  {| song_ref := 1; title := JsString (js "Wonderwall");
     artist := JsString (js "Oasis");
     previewUrl := JsString (js "https://preview.example/1.m4a");
     artwork := JsNull |}.

Definition creep : Song :=
  {| song_ref := 2; title := JsString (js "Creep");
     artist := JsString (js "Radiohead");
     previewUrl := JsString (js "https://preview.example/2.m4a");
     artwork := JsNull |}.

Definition alice : Player :=
  {| p_id := "sock-alice"; p_name := JsString (js "Alice"); score := 0;
     p_userId := JsNull |}.

Definition bob : Player :=
  {| p_id := "sock-bob"; p_name := JsString (js "Bob"); score := 0;
     p_userId := JsNull |}.

(** round 1 of 2 is being played *)
Definition room : Room :=
  {| room_id := "AB12C"; hostId := JsNull; players := [alice; bob];
     state := PLAYING; currentRound := 1; totalRounds := 2;
     currentSong := Some wonderwall; roundActive := true;
     songs := [wonderwall; creep] |}.

Definition timeout_timer : Timer :=
  {| timer_cb := RoundTimeout "AB12C" wonderwall; timer_ms := 30000 |}.

Definition server : Server :=
  {| rooms := {[ "AB12C"%string := room ]}; pending := [timeout_timer] |}.

(** the same room after its round was resolved *)
Definition resolved : Server :=
  {| rooms := {[ "AB12C"%string := set_roundActive false room ]};
     pending := [timeout_timer] |}.

(** the room before the game, in the lobby *)
Definition lobby_room : Room :=
  {| room_id := "AB12C"; hostId := JsNull; players := [alice; bob];
     state := LOBBY; currentRound := 0; totalRounds := 10;
     currentSong := None; roundActive := false; songs := [] |}.

Definition loading : gmap string Room :=
  {[ "AB12C"%string := set_state LOADING lobby_room ]}.
End Demo.

(** One keystroke apart: a character replaced, left out or added. *)
Inductive one_edit : jsstring -> jsstring -> Prop :=
| edit_replace l1 c d l2 : one_edit (l1 ++ c :: l2) (l1 ++ d :: l2)
| edit_omit l1 c l2 : one_edit (l1 ++ l2) (l1 ++ c :: l2)
| edit_add l1 c l2 : one_edit (l1 ++ c :: l2) (l1 ++ l2).

(** ** utils/languageDetection.js *)

Inductive Lang := IT | EN | ES.

(** [s.split(/\s+/)]: the pieces between the maximal runs of white space;
    [in_sep] holds when the character before was a separator. *)
Fixpoint split_spaces (s : jsstring) (in_sep : bool) : list jsstring :=
  match s with
  | [] => [[]]
  | c :: r =>
      if is_space c
      then if in_sep then split_spaces r true else [] :: split_spaces r true
      else match split_spaces r false with
           | w :: ws => (c :: w) :: ws
           | [] => [[c]]
           end
  end.

(** [s.split(/\s+/).filter(Boolean)] *)
Definition words_of (s : jsstring) : list jsstring :=
  List.filter (fun w => negb (is_nil w)) (split_spaces s false).

Definition itHints : list jsstring :=
  map js ["che"; "non"; "per"; "con"; "una"; "uno"; "una"; "di"; "nel";
          "della"; "delle"; "degli"; "gli"]%string.

Definition esHints : list jsstring :=
  map js ["que"; "para"; "con"; "una"; "uno"; "del"; "de"; "las"; "los";
          "el"]%string.

Definition enHints : list jsstring :=
  map js ["the"; "and"; "you"; "me"; "of"; "in"; "on"; "love"]%string.

(** the character classes of the two accent hints *)
Definition es_accent (c : N) : bool :=
  (c =? 225) || (c =? 233) || (c =? 237) || (c =? 243) || (c =? 250) ||
  (c =? 241).

Definition it_accent (c : N) : bool :=
  (c =? 224) || (c =? 232) || (c =? 233) || (c =? 236) || (c =? 242) ||
  (c =? 249).

(** the object [scores] *)
Record Scores := { sc_it : nat; sc_en : nat; sc_es : nat }.

Definition add_it (b : bool) (sc : Scores) : Scores :=
  if b then {| sc_it := S (sc_it sc); sc_en := sc_en sc; sc_es := sc_es sc |}
  else sc.

Definition add_es (b : bool) (sc : Scores) : Scores :=
  if b then {| sc_it := sc_it sc; sc_en := sc_en sc; sc_es := S (sc_es sc) |}
  else sc.

Definition add_en (b : bool) (sc : Scores) : Scores :=
  if b then {| sc_it := sc_it sc; sc_en := S (sc_en sc); sc_es := sc_es sc |}
  else sc.

(** one turn of [for (const w of words)] *)
Definition count_word (sc : Scores) (w : jsstring) : Scores :=
  add_en (mem_str w enHints)
    (add_es (mem_str w esHints) (add_it (mem_str w itHints) sc)).

(** [scores] when the two accent tests are done *)
Definition language_scores (s : jsstring) : Scores :=
  let by_words :=
    fold_left count_word (words_of s) {| sc_it := 0; sc_en := 0; sc_es := 0 |} in
  add_it (existsb it_accent s) (add_es (existsb es_accent s) by_words).

(** [entries.sort((a, b) => b[1] - a[1])]: the sort is stable, an entry
    goes before the entries behind it that do not score more. *)
Fixpoint insert_entry (x : Lang * nat) (l : list (Lang * nat))
  : list (Lang * nat) :=
  match l with
  | [] => [x]
  | y :: l' =>
      if (snd y <=? snd x)%nat then x :: y :: l' else y :: insert_entry x l'
  end.

Definition sort_entries (l : list (Lang * nat)) : list (Lang * nat) :=
  fold_right insert_entry [] l.

Section LanguageDetection.
Context {U : UnicodeOps}.

Definition detectLanguage (text : jsstring) : option Lang :=
  if is_nil text then None
  else
    let s := toLowerCase text in
    let scores := language_scores s in
    let entries := [(IT, sc_it scores); (EN, sc_en scores); (ES, sc_es scores)] in
    match sort_entries entries with
    | (bestLang, bestScore) :: _ =>
        if (bestScore <=? 0)%nat then None else Some bestLang
    | [] => None
    end.

End LanguageDetection.

(** An effect that reaches room [k]: a broadcast to the room, a timer whose
    callback works on it, a database call for it. *)
Definition reaches (k : string) (e : Effect) : Prop :=
  match e with
  | Emit (ToRoom x) _ => x = k
  | Emit (ToSocket _) _ => False
  | SetTimeout cb _ => cb_room cb = Some k
  | UpdateGameRoomStatus x _ _ => x = k
  | EndGame x _ => x = k
  end.

(** no pending timer works on room [k] *)
Definition no_timer_of (k : string) (l : list Timer) : Prop :=
  Forall (fun t => cb_room (timer_cb t) <> Some k) l.

(** [ps'] holds every player of [ps] at its place, with its id, name and
    user id and a score that is not lower; players may follow behind. *)
Inductive extends : list Player -> list Player -> Prop :=
| extends_nil ps' : extends [] ps'
| extends_cons p p' ps ps' :
    p_id p' = p_id p -> p_name p' = p_name p -> p_userId p' = p_userId p ->
    (score p <= score p')%nat ->
    extends ps ps' -> extends (p :: ps) (p' :: ps').

(** room [r'] is room [r] at a later time *)
Definition outlasts (r r' : Room) : Prop :=
  room_id r' = room_id r /\ hostId r' = hostId r /\
  extends (players r) (players r').

(** the playlist, the number of rounds and the round counter of two rooms
    agree *)
Definition same_counters (r r' : Room) : Prop :=
  songs r' = songs r /\ totalRounds r' = totalRounds r /\
  currentRound r' = currentRound r.

(** The game of room [roomId] plays the playlist [pl]: the room holds it,
    counts its rounds, has not counted past its end, and a countdown is
    only pending while a song is left. *)
Definition on_track (roomId : string) (pl : list Song) (s : Server) : Prop :=
  exists r, rooms s !! roomId = Some r /\
    songs r = pl /\ totalRounds r = length pl /\
    (currentRound r <= length pl)%nat /\
    Forall (fun t => timer_cb t = RoundBegin roomId ->
                     (currentRound r < length pl)%nat) (pending s).

(** What a round that nobody wins sends and arms, from its countdown to
    its timeout; [k] rounds were played before it. *)
Definition unattended_round (roomId : string) (k : nat) (song : Song)
  : list Effect :=
  [Emit (ToRoom roomId) (start_countdown 3);
   SetTimeout (RoundBegin roomId) 3000;
   Emit (ToRoom roomId) (new_round (S k) (previewUrl song));
   SetTimeout (RoundTimeout roomId song) 30000;
   Emit (ToRoom roomId) (round_timeout song);
   SetTimeout (StartRound roomId) 5000].

Fixpoint unattended_rounds (roomId : string) (k : nat) (l : list Song)
  : list Effect :=
  match l with
  | [] => []
  | song :: l' =>
      unattended_round roomId k song ++ unattended_rounds roomId (S k) l'
  end.

(** what [endGameInternal] sends for room [r] *)
Definition game_end (roomId : string) (r : Room) : list Effect :=
  Emit (ToRoom roomId) (game_over (players r))
  :: (if truthy (hostId r) then [EndGame roomId (players r)] else []).

(** a [round_winner] broadcast to room [k] *)
Definition winner_in (k : string) (e : Effect) : bool :=
  match e with
  | Emit (ToRoom x) (round_winner _ _) => String.eqb x k
  | _ => false
  end.

(** how many rounds of room [k] the effects announce as won *)
Definition wins (k : string) (effs : list Effect) : nat :=
  length (List.filter (winner_in k) effs).

(** While a round of room [r] is active, the song being guessed is the
    playlist entry of the round that was counted last. *)
Definition plays_its_song (r : Room) : Prop :=
  roundActive r = true ->
  (1 <= currentRound r)%nat /\
  currentSong r = songs r !! (currentRound r - 1)%nat.

(** * Properties *)

(** ** The monad and the table *)

Lemma alter_found (f : Room -> Room) (roomId : string) (r : Room)
    (tbl : gmap string Room) :
  tbl !! roomId = Some r -> alter f roomId tbl = <[roomId := f r]> tbl.
Proof.
  intros Hr. apply map_eq. intros k.
  destruct (decide (roomId = k)) as [->|Hne].
  - rewrite lookup_alter_eq, lookup_insert_eq, Hr. reflexivity.
  - rewrite lookup_alter_ne, lookup_insert_ne by assumption. reflexivity.
Qed.

(** ** The matcher *)

Lemma str_eqb_eq (s t : jsstring) : str_eqb s t = true <-> s = t.
Proof.
  revert t. induction s as [|c s IH]; intros [|d t]; simpl; try easy.
  rewrite andb_true_iff, N.eqb_eq, IH. split.
  - intros [-> ->]. reflexivity.
  - intros [= -> ->]. split; reflexivity.
Qed.

Lemma is_nil_true {A : Type} (l : list A) : is_nil l = true <-> l = [].
Proof. destruct l; simpl; split; congruence. Qed.

Section MatcherFacts.
Context {U : UnicodeOps}.

(** On ASCII text the matcher does not depend on the Unicode tables. *)
Lemma clean_ascii (s : jsstring) :
  forallb is_ascii s = true ->
  clean s = @clean ascii_only_ops s.
Proof.
  intros Hs. unfold clean. simpl.
  rewrite (toLowerCase_ascii s Hs).
  rewrite normalizeNFD_ascii; [reflexivity|].
  clear -Hs. induction s as [|c s IH]; simpl in *; [reflexivity|].
  apply andb_true_iff in Hs as [Hc Hs']. rewrite (IH Hs'), andb_true_r.
  unfold is_ascii, ascii_lower, in_range in *.
  destruct (65 <=? c) eqn:E1, (c <=? 90) eqn:E2; simpl; try assumption.
  apply N.ltb_lt. apply N.leb_le in E2. lia.
Qed.

Lemma checkAnswer_ascii (g a : jsstring) :
  forallb is_ascii g = true -> forallb is_ascii a = true ->
  checkAnswer (JsString g) (JsString a)
  = @checkAnswer ascii_only_ops (JsString g) (JsString a).
Proof.
  intros Hg Ha. unfold checkAnswer, clean_value.
  rewrite (clean_ascii g Hg), (clean_ascii a Ha). reflexivity.
Qed.

End MatcherFacts.

Lemma ratio_at_least (a b : positive) (n m : nat) :
  (0 < m)%nat ->
  Qle_bool (Zpos a # b) (ratio n m) = true
  <-> (Pos.to_nat a * m <= Pos.to_nat b * n)%nat.
Proof.
  intros Hm. rewrite Qle_bool_iff.
  destruct m as [|m]; [lia|].
  unfold ratio, Qle, Qdiv, Qmult, Qinv, inject_Z. simpl.
  rewrite Pos.mul_1_l, Z.mul_1_r.
  rewrite <- (positive_nat_Z a), <- (positive_nat_Z b).
  rewrite <- (positive_nat_Z (Pos.of_succ_nat m)), SuccNat2Pos.id_succ.
  rewrite <- !Nat2Z.inj_mul, <- Nat2Z.inj_le. lia.
Qed.

Lemma token_overlap_spec (g a : jsstring) :
  token_overlap g a = true
  <-> (0 < length (finalTokens a))%nat /\
      (4 * length (finalTokens a) <= 5 * length (intersection g a))%nat.
Proof.
  unfold token_overlap, overlapRatio. rewrite andb_true_iff, Nat.ltb_lt.
  split; intros [Hpos H]; split; try assumption.
  - apply (ratio_at_least 8 10) in H; [|assumption]. lia.
  - apply (ratio_at_least 8 10); [assumption|]. lia.
Qed.

Lemma mem_str_In (w : jsstring) (l : list jsstring) :
  mem_str w l = true <-> In w l.
Proof.
  induction l as [|v l IH]; simpl; [split; [discriminate | contradiction]|].
  rewrite orb_true_iff, str_eqb_eq, IH. split; intros [H | H]; auto.
Qed.

Lemma set_add_all_NoDup (l acc : list jsstring) :
  List.NoDup acc -> List.NoDup (set_add_all acc l).
Proof.
  revert acc. induction l as [|w l IH]; intros acc Hacc; simpl; [exact Hacc|].
  apply IH. destruct (mem_str w acc) eqn:E; [exact Hacc|].
  replace (acc ++ [w]) with (rev (w :: rev acc))
    by (simpl; rewrite rev_involutive; reflexivity).
  apply List.NoDup_rev. constructor; [|apply List.NoDup_rev; exact Hacc].
  intros Hin. apply List.in_rev in Hin. apply mem_str_In in Hin. congruence.
Qed.

Lemma set_add_all_In (w : jsstring) (l acc : list jsstring) :
  In w (set_add_all acc l) <-> In w acc \/ In w l.
Proof.
  revert acc. induction l as [|v l IH]; intros acc; simpl; [tauto|].
  rewrite IH. destruct (mem_str v acc) eqn:E.
  - apply mem_str_In in E. split; [tauto|].
    intros [H | [<- | H]]; auto.
  - rewrite in_app_iff. simpl. tauto.
Qed.

Lemma new_Set_In (w : jsstring) (l : list jsstring) :
  In w (new_Set l) <-> In w l.
Proof. unfold new_Set. rewrite set_add_all_In. simpl. tauto. Qed.

Lemma new_Set_NoDup (l : list jsstring) : List.NoDup (new_Set l).
Proof. apply set_add_all_NoDup. constructor. Qed.

Lemma getTokens_In (s w : jsstring) :
  In w (getTokens s)
  <-> In w (split_space s) /\ w <> [] /\ ~ In w stopwords.
Proof.
  unfold getTokens. rewrite new_Set_In, List.filter_In, andb_true_iff.
  rewrite negb_true_iff, <- not_true_iff_false, mem_str_In, Nat.ltb_lt.
  destruct w; simpl; split; intros (H1 & H2 & H3); repeat split;
    try assumption; try congruence; lia.
Qed.

Lemma rawTokens_In (s w : jsstring) :
  In w (rawTokens s) <-> In w (split_space s) /\ w <> [].
Proof.
  unfold rawTokens. rewrite new_Set_In, List.filter_In.
  destruct w; simpl; split; intros [H1 H2]; split; try assumption;
    congruence.
Qed.

Lemma finalTokens_cases (s : jsstring) :
  (getTokens s <> [] -> finalTokens s = getTokens s) /\
  (getTokens s = [] -> finalTokens s = rawTokens s).
Proof.
  unfold finalTokens. destruct (getTokens s) as [|w l]; simpl; split;
    congruence.
Qed.

Lemma finalTokens_NoDup (s : jsstring) : List.NoDup (finalTokens s).
Proof.
  unfold finalTokens, getTokens, rawTokens.
  destruct (0 <? _)%nat; apply new_Set_NoDup.
Qed.

Lemma intersection_In (g a w : jsstring) :
  In w (intersection g a) <-> In w (finalTokens g) /\ In w (finalTokens a).
Proof.
  unfold intersection. rewrite List.filter_In, mem_str_In. reflexivity.
Qed.

Lemma intersection_count (g a : jsstring) :
  List.NoDup (intersection g a) /\
  (length (intersection g a) <= length (finalTokens a))%nat.
Proof.
  assert (Hnd : List.NoDup (intersection g a)).
  { unfold intersection. apply List.NoDup_filter. apply finalTokens_NoDup. }
  split; [exact Hnd|].
  apply List.NoDup_incl_length; [exact Hnd|].
  intros w Hw. apply intersection_In in Hw. tauto.
Qed.

Section MatcherTheorems.
Context {U : UnicodeOps}.

Lemma clean_empty : clean [] = [].
Proof. rewrite clean_ascii by reflexivity. reflexivity. Qed.

(** The three tiers are all there is: a pair of strings is accepted
    exactly when both clean to something and one tier holds. *)
Lemma checkAnswer_tiers (g a : jsstring) :
  checkAnswer (JsString g) (JsString a) = Returns true
  <-> clean g <> [] /\ clean a <> [] /\
      (clean g = clean a \/
       token_overlap (clean g) (clean a) = true \/
       Qle_bool (75 # 100) (similarity (clean g) (clean a)) = true).
Proof.
  unfold checkAnswer. simpl.
  destruct g as [|c g]; simpl.
  { rewrite clean_empty. split; [discriminate|]. intros [H _]. congruence. }
  destruct a as [|d a]; simpl.
  { rewrite clean_empty. split; [discriminate|]. intros (_ & H & _). congruence. }
  unfold accept_cleaned.
  destruct (is_nil (clean (c :: g))) eqn:Eg; simpl.
  { apply is_nil_true in Eg. split; [discriminate|]. intros [H _]. congruence. }
  destruct (is_nil (clean (d :: a))) eqn:Ea; simpl.
  { apply is_nil_true in Ea. split; [discriminate|]. intros (_ & H & _). congruence. }
  assert (Hg : clean (c :: g) <> []).
  { intros H. apply is_nil_true in H. congruence. }
  assert (Ha : clean (d :: a) <> []).
  { intros H. apply is_nil_true in H. congruence. }
  destruct (str_eqb (clean (c :: g)) (clean (d :: a))) eqn:Eeq.
  { apply str_eqb_eq in Eeq. split; [|reflexivity]. intros _. auto. }
  destruct (token_overlap (clean (c :: g)) (clean (d :: a))) eqn:Etok.
  { split; [|reflexivity]. intros _. auto. }
  split.
  - intros [= H]. auto.
  - intros (_ & _ & [H | [H | H]]).
    + apply str_eqb_eq in H. congruence.
    + discriminate.
    + rewrite H. reflexivity.
Qed.

(** C9, as the code has it.  In the current revision of the matcher the
    significant tokens of a cleaned string are its distinct non-empty words
    that are not stop words, or all its distinct non-empty words when no
    other word is left.  The shared tokens are the significant tokens of
    the guess that are significant tokens of the title, each counted once,
    never more than the title has.  The overlap is their number divided by
    the number of significant tokens of the title, and the tier accepts
    exactly when it is at least 0.8.  Acceptance is always one of the three
    tiers exact, token overlap, similarity: being a substring is not one of
    them.  "Teen Spirit" for "Smells Like Teen Spirit" has overlap 1/2 and
    is rejected although its cleaned form is a substring of the cleaned
    title; "Beatles" for "The Beatles", "bye" for "Bye Bye Bye" and "of
    the" for "The Of" are accepted by the token tier alone.  The first
    revision of the matcher is different: it accepts every guess whose
    cleaned form occurs in the cleaned title. *)
Theorem token_overlap_tier_threshold :
  (forall s w : jsstring,
      In w (getTokens s)
      <-> In w (split_space s) /\ w <> [] /\ ~ In w stopwords) /\
  (forall s : jsstring,
      List.NoDup (finalTokens s) /\
      (getTokens s <> [] -> finalTokens s = getTokens s) /\
      (getTokens s = [] ->
       forall w, In w (finalTokens s) <-> In w (split_space s) /\ w <> [])) /\
  (forall g a w : jsstring,
      In w (intersection g a)
      <-> In w (finalTokens g) /\ In w (finalTokens a)) /\
  (forall g a : jsstring,
      List.NoDup (intersection g a) /\
      (length (intersection g a) <= length (finalTokens a))%nat) /\
  (forall g a : jsstring,
      overlapRatio g a
      = ratio (length (intersection g a)) (length (finalTokens a))) /\
  (forall g a : jsstring,
      token_overlap g a = true
      <-> (0 < length (finalTokens a))%nat /\
          (4 * length (finalTokens a) <= 5 * length (intersection g a))%nat) /\
  (forall g a : jsstring,
      checkAnswer (JsString g) (JsString a) = Returns true
      <-> clean g <> [] /\ clean a <> [] /\
          (clean g = clean a \/
           token_overlap (clean g) (clean a) = true \/
           Qle_bool (75 # 100) (similarity (clean g) (clean a)) = true)) /\
  (let guess := js "Teen Spirit" in
   let actual := js "Smells Like Teen Spirit" in
   checkAnswer (JsString guess) (JsString actual) = Returns false /\
   (overlapRatio (clean guess) (clean actual) == 1 # 2)%Q /\
   includes (clean actual) (clean guess) = true) /\
  (let guess := js "Beatles" in
   let actual := js "The Beatles" in
   checkAnswer (JsString guess) (JsString actual) = Returns true /\
   finalTokens (clean actual) = [js "beatles"] /\
   (overlapRatio (clean guess) (clean actual) == 1)%Q /\
   clean guess <> clean actual /\
   Qle_bool (75 # 100) (similarity (clean guess) (clean actual)) = false) /\
  (let guess := js "bye" in
   let actual := js "Bye Bye Bye" in
   checkAnswer (JsString guess) (JsString actual) = Returns true /\
   finalTokens (clean actual) = [js "bye"] /\
   clean guess <> clean actual /\
   Qle_bool (75 # 100) (similarity (clean guess) (clean actual)) = false) /\
  (let guess := js "of the" in
   let actual := js "The Of" in
   checkAnswer (JsString guess) (JsString actual) = Returns true /\
   getTokens (clean actual) = [] /\
   finalTokens (clean actual) = [js "the"; js "of"] /\
   clean guess <> clean actual /\
   Qle_bool (75 # 100) (similarity (clean guess) (clean actual)) = false) /\
  (forall g a : jsstring,
      Earlier.clean g <> [] -> Earlier.clean a <> [] ->
      includes (Earlier.clean a) (Earlier.clean g) = true ->
      Earlier.checkAnswer (JsString g) (JsString a) = Returns true).
Proof.
  split; [exact getTokens_In|].
  split.
  { intros s. split; [apply finalTokens_NoDup|].
    destruct (finalTokens_cases s) as [H1 H2]. split; [exact H1|].
    intros E w. rewrite (H2 E). apply rawTokens_In. }
  split; [exact intersection_In|].
  split; [exact intersection_count|].
  split; [reflexivity|].
  split; [apply token_overlap_spec|].
  split; [apply checkAnswer_tiers|].
  split.
  { cbv zeta. rewrite checkAnswer_ascii by reflexivity.
    rewrite (clean_ascii (js "Teen Spirit")) by reflexivity.
    rewrite (clean_ascii (js "Smells Like Teen Spirit")) by reflexivity.
    split; [vm_compute; reflexivity|].
    split; vm_compute; reflexivity. }
  split.
  { cbv zeta. rewrite checkAnswer_ascii by reflexivity.
    rewrite (clean_ascii (js "Beatles")) by reflexivity.
    rewrite (clean_ascii (js "The Beatles")) by reflexivity.
    repeat split; vm_compute; (reflexivity || discriminate). }
  split.
  { cbv zeta. rewrite checkAnswer_ascii by reflexivity.
    rewrite (clean_ascii (js "bye")) by reflexivity.
    rewrite (clean_ascii (js "Bye Bye Bye")) by reflexivity.
    repeat split; vm_compute; (reflexivity || discriminate). }
  split.
  { cbv zeta. rewrite checkAnswer_ascii by reflexivity.
    rewrite (clean_ascii (js "of the")) by reflexivity.
    rewrite (clean_ascii (js "The Of")) by reflexivity.
    repeat split; vm_compute; (reflexivity || discriminate). }
  intros g a Hg Ha Hinc.
  assert (Hempty : Earlier.clean [] = [])
    by (unfold Earlier.clean; rewrite toLowerCase_ascii by reflexivity;
        reflexivity).
  assert (Tg : truthy (JsString g) = true)
    by (destruct g; [congruence | reflexivity]).
  assert (Ta : truthy (JsString a) = true)
    by (destruct a; [congruence | reflexivity]).
  unfold Earlier.checkAnswer. rewrite Tg, Ta. simpl.
  unfold Earlier.accept_cleaned.
  destruct (is_nil (Earlier.clean g)) eqn:Eg;
    [apply is_nil_true in Eg; congruence|].
  destruct (is_nil (Earlier.clean a)) eqn:Ea;
    [apply is_nil_true in Ea; congruence|].
  simpl. destruct (str_eqb _ _); [reflexivity|].
  rewrite Hinc, orb_true_r. reflexivity.
Qed.

End MatcherTheorems.

(** C9 as stated fails for the first revision of the matcher, the file
    utils/checkAnswer.js as it is named in the repository: that revision
    accepts "Teen Spirit" for "Smells Like Teen Spirit", through its
    substring tier, before any overlap is computed. *)
Lemma earlier_revision_accepts_substring :
  let guess := js "Teen Spirit" in
  let actual := js "Smells Like Teen Spirit" in
  @Earlier.checkAnswer ascii_only_ops (JsString guess) (JsString actual)
  = Returns true /\
  str_eqb (@Earlier.clean ascii_only_ops guess)
    (@Earlier.clean ascii_only_ops actual) = false /\
  includes (@Earlier.clean ascii_only_ops actual)
    (@Earlier.clean ascii_only_ops guess) = true.
Proof. vm_compute. repeat split; reflexivity. Qed.

Lemma token_overlap_tier_threshold_witness :
  @checkAnswer ascii_only_ops (JsString (js "Queen"))
    (JsString (js "Dancing Queen")) = Returns false /\
  @checkAnswer ascii_only_ops (JsString (js "The Beatles"))
    (JsString (js "Beatles")) = Returns true /\
  @Earlier.checkAnswer ascii_only_ops (JsString (js "Wonder"))
    (JsString (js "Wonderwall")) = Returns true.
Proof.
  destruct (@token_overlap_tier_threshold ascii_only_ops)
    as (_ & _ & _ & _ & _ & _ & Htiers & _ & _ & _ & _ & Hearlier).
  split; [|split].
  - destruct (@checkAnswer ascii_only_ops (JsString (js "Queen"))
                (JsString (js "Dancing Queen"))) as [[|]|e] eqn:E.
    + apply Htiers in E. destruct E as (_ & _ & [E | [E | E]]);
        vm_compute in E; discriminate.
    + reflexivity.
    + vm_compute in E. discriminate.
  - apply Htiers. split; [vm_compute; discriminate|].
    split; [vm_compute; discriminate|].
    right. left. vm_compute. reflexivity.
  - apply Hearlier; vm_compute; (discriminate || reflexivity).
Defined.

Section MatcherTotality.
Context {U : UnicodeOps}.

(** C10, as the code has it.  [checkAnswer] returns a boolean, and does
    not throw, for every pair of arguments each of which is a string or a
    falsy value (null, undefined, false, 0, NaN, the empty string); a
    falsy guess or title yields false whatever the other argument is, and
    so do strings one of which cleans to the empty string.  It throws a
    TypeError exactly when both arguments are truthy and one of them is
    not a string. *)
Theorem checkAnswer_total_on_strings (guess actual : JsVal) :
  (negb (truthy guess) || is_string guess = true ->
   negb (truthy actual) || is_string actual = true ->
   exists b : bool, checkAnswer guess actual = Returns b) /\
  (truthy guess = false \/ truthy actual = false ->
   checkAnswer guess actual = Returns false) /\
  (forall g a : jsstring,
      guess = JsString g -> actual = JsString a ->
      clean g = [] \/ clean a = [] ->
      checkAnswer guess actual = Returns false) /\
  (checkAnswer guess actual = Throws TypeError
   <-> truthy guess = true /\ truthy actual = true /\
       (is_string guess = false \/ is_string actual = false)).
Proof.
  split; [|split; [|split]].
  - intros Hg Ha. unfold checkAnswer.
    destruct (truthy guess) eqn:Tg; simpl; [|eauto].
    destruct (truthy actual) eqn:Ta; simpl; [|eauto].
    simpl in Hg, Ha.
    destruct guess; try discriminate. destruct actual; try discriminate.
    simpl. eauto.
  - intros [H | H]; unfold checkAnswer; rewrite H; simpl; [reflexivity|].
    rewrite orb_true_r. reflexivity.
  - intros g a -> -> H. unfold checkAnswer.
    destruct (negb (truthy (JsString g)) || negb (truthy (JsString a)));
      [reflexivity|].
    simpl. unfold accept_cleaned.
    destruct H as [-> | ->]; simpl; [reflexivity|].
    rewrite orb_true_r. reflexivity.
  - unfold checkAnswer.
    destruct (truthy guess) eqn:Tg; simpl.
    2:{ split; [discriminate|]. intros [H _]. discriminate. }
    destruct (truthy actual) eqn:Ta; simpl.
    2:{ split; [discriminate|]. intros (_ & H & _). discriminate. }
    destruct guess; simpl; try (split; [auto|reflexivity]);
      destruct actual; simpl; try (split; [auto|reflexivity]).
    split; [discriminate|]. intros (_ & _ & [H | H]); discriminate.
Qed.

End MatcherTotality.

(** C10 as stated fails: a number for a guess is not rejected, the call
    [str.toLowerCase()] throws. *)
Lemma checkAnswer_throws_on_number :
  ~ (forall (U : UnicodeOps) (guess actual : JsVal),
        exists b : bool, @checkAnswer U guess actual = Returns b).
Proof.
  intros H.
  destruct (H ascii_only_ops (JsNumber 42) (JsString (js "Song"))) as [b Hb].
  vm_compute in Hb. discriminate.
Qed.

Lemma checkAnswer_total_on_strings_witness :
  (exists b : bool,
      @checkAnswer ascii_only_ops (JsString (js "Wonderwal")) JsNull
      = Returns b) /\
  @checkAnswer ascii_only_ops JsUndefined (JsNumber 7) = Returns false /\
  @checkAnswer ascii_only_ops (JsString (js "(live)")) (JsString (js "Song"))
  = Returns false.
Proof.
  split; [|split].
  - apply (proj1 (@checkAnswer_total_on_strings ascii_only_ops
                    (JsString (js "Wonderwal")) JsNull)); reflexivity.
  - apply (proj1 (proj2 (@checkAnswer_total_on_strings ascii_only_ops
                           JsUndefined (JsNumber 7)))).
    left. reflexivity.
  - apply (proj1 (proj2 (proj2 (@checkAnswer_total_on_strings ascii_only_ops
                           (JsString (js "(live)")) (JsString (js "Song")))))
             (js "(live)") (js "Song") eq_refl eq_refl).
    left. vm_compute. reflexivity.
Defined.

(** ** The handlers, case by case *)

Section HandlerFacts.
Context {U : UnicodeOps}.

Lemma submit_guess_unknown_room sid roomId guess (tbl : gmap string Room) :
  tbl !! roomId = None ->
  submit_guess sid roomId guess tbl = mkOutcome tbl [] (Returns tt).
Proof.
  intros Hr. unfold submit_guess, bind, get_room. simpl. rewrite Hr.
  reflexivity.
Qed.

Lemma submit_guess_closed sid roomId guess (tbl : gmap string Room) r :
  tbl !! roomId = Some r ->
  roundActive r = false \/ state r <> PLAYING ->
  submit_guess sid roomId guess tbl = mkOutcome tbl [] (Returns tt).
Proof.
  intros Hr H. unfold submit_guess, bind, get_room. simpl. rewrite Hr.
  destruct H as [-> | H]; simpl; [reflexivity|].
  destruct (state r); try congruence; rewrite orb_true_r; reflexivity.
Qed.

Lemma submit_guess_rejected sid roomId guess (tbl : gmap string Room) r song :
  tbl !! roomId = Some r ->
  roundActive r = true -> state r = PLAYING -> currentSong r = Some song ->
  checkAnswer guess (title song) = Returns false ->
  submit_guess sid roomId guess tbl
  = mkOutcome tbl [Emit (ToSocket sid) wrong_guess] (Returns tt).
Proof.
  intros Hr Hact Hst Hsong Hno.
  unfold submit_guess, bind, get_room. simpl. rewrite Hr, Hact, Hst. simpl.
  unfold currentSong_title. rewrite Hsong. simpl. rewrite Hno. reflexivity.
Qed.

Lemma submit_guess_not_accepted sid roomId guess (tbl : gmap string Room)
    r song :
  tbl !! roomId = Some r ->
  roundActive r = true -> state r = PLAYING -> currentSong r = Some song ->
  checkAnswer guess (title song) <> Returns true ->
  out_rooms (submit_guess sid roomId guess tbl) = tbl /\
  out_effects (submit_guess sid roomId guess tbl) = notices song [(sid, guess)].
Proof.
  intros Hr Hact Hst Hsong Hno.
  unfold submit_guess, bind, get_room, notices. simpl.
  rewrite Hr, Hact, Hst. simpl.
  unfold currentSong_title. rewrite Hsong. simpl.
  destruct (checkAnswer guess (title song)) as [[|]|e]; simpl;
    [congruence | auto | auto].
Qed.

Lemma submit_guess_won sid roomId guess (tbl : gmap string Room) r song p :
  tbl !! roomId = Some r ->
  roundActive r = true -> state r = PLAYING -> currentSong r = Some song ->
  checkAnswer guess (title song) = Returns true ->
  find_player sid (players r) = Some p ->
  submit_guess sid roomId guess tbl
  = mkOutcome
      (<[roomId := set_players (award sid (players r))
                     (set_roundActive false r)]> tbl)
      [Emit (ToRoom roomId) (update_scores (award sid (players r)));
       Emit (ToRoom roomId) (round_winner (p_name p) (Some song));
       SetTimeout (AfterWin roomId) 5000]
      (Returns tt).
Proof.
  intros Hr Hact Hst Hsong Hyes Hp.
  unfold submit_guess, bind, get_room. simpl. rewrite Hr, Hact, Hst. simpl.
  unfold currentSong_title. rewrite Hsong. simpl. rewrite Hyes. simpl.
  rewrite Hp. simpl. f_equal.
  rewrite (alter_found (set_roundActive false) roomId r tbl Hr).
  rewrite (alter_found _ roomId (set_roundActive false r))
    by apply lookup_insert_eq.
  apply insert_insert_eq.
Qed.

Lemma submit_guess_stranger sid roomId guess (tbl : gmap string Room) r song :
  tbl !! roomId = Some r ->
  roundActive r = true -> state r = PLAYING -> currentSong r = Some song ->
  checkAnswer guess (title song) = Returns true ->
  find_player sid (players r) = None ->
  submit_guess sid roomId guess tbl
  = mkOutcome (<[roomId := set_roundActive false r]> tbl) [] (Returns tt).
Proof.
  intros Hr Hact Hst Hsong Hyes Hp.
  unfold submit_guess, bind, get_room. simpl. rewrite Hr, Hact, Hst. simpl.
  unfold currentSong_title. rewrite Hsong. simpl. rewrite Hyes. simpl.
  rewrite Hp. simpl. f_equal.
  apply alter_found. assumption.
Qed.

Lemma timeout_elapsed_stale roomId song (tbl : gmap string Room) :
  (forall r, tbl !! roomId = Some r ->
             roundActive r = false \/ current_is song r = false) ->
  timeout_elapsed roomId song tbl = mkOutcome tbl [] (Returns tt).
Proof.
  intros H. unfold timeout_elapsed, bind, get_room. simpl.
  destruct (tbl !! roomId) as [r|] eqn:Hr; [|reflexivity].
  destruct (H r eq_refl) as [-> | ->]; simpl; [reflexivity|].
  rewrite andb_false_r. reflexivity.
Qed.

Lemma timeout_elapsed_live roomId song (tbl : gmap string Room) r :
  tbl !! roomId = Some r ->
  roundActive r = true -> current_is song r = true ->
  timeout_elapsed roomId song tbl
  = mkOutcome (<[roomId := set_roundActive false r]> tbl)
      [Emit (ToRoom roomId) (round_timeout song);
       SetTimeout (StartRound roomId) 5000]
      (Returns tt).
Proof.
  intros Hr Hact Hcur. unfold timeout_elapsed, bind, get_room. simpl.
  rewrite Hr, Hact, Hcur. simpl. f_equal. apply alter_found. assumption.
Qed.

End HandlerFacts.

(** ** Runs of the server *)

Lemma award_stranger sid ps : find_player sid ps = None -> award sid ps = ps.
Proof.
  unfold find_player. induction ps as [|p ps IH]; simpl; [reflexivity|].
  destruct (String.eqb (p_id p) sid); [discriminate|].
  intros H. rewrite (IH H). reflexivity.
Qed.

Lemma total_score_award sid ps :
  total_score (award sid ps)
  = (total_score ps + match find_player sid ps with Some _ => 1 | None => 0 end)%nat.
Proof.
  unfold find_player. induction ps as [|p ps IH]; simpl; [reflexivity|].
  destruct (String.eqb (p_id p) sid); simpl; lia.
Qed.

Lemma set_players_same r : set_players (players r) r = r.
Proof. destruct r. reflexivity. Qed.

Section RunFacts.
Context {U : UnicodeOps}.

Lemma run_app (s : Server) (l1 l2 : list Event) :
  run s (l1 ++ l2)
  = (fst (run (fst (run s l1)) l2),
     snd (run s l1) ++ snd (run (fst (run s l1)) l2)).
Proof.
  revert s. induction l1 as [|ev l1 IH]; intros s; simpl.
  - destruct (run s l2). reflexivity.
  - destruct (step s ev) as [s1 e1]. rewrite IH.
    destruct (run s1 l1) as [s2 e2]. simpl.
    destruct (run s2 l2) as [s3 e3]. simpl. rewrite app_assoc. reflexivity.
Qed.

Lemma run_cons (s : Server) (ev : Event) (evs : list Event) :
  run s (ev :: evs)
  = (fst (run (fst (step s ev)) evs),
     snd (step s ev) ++ snd (run (fst (step s ev)) evs)).
Proof.
  cbn [run]. destruct (step s ev) as [s1 e1]. cbn [fst snd].
  destruct (run s1 evs). reflexivity.
Qed.

Lemma step_submit (s : Server) sid roomId guess :
  step s (SubmitGuess sid roomId guess)
  = ({| rooms := out_rooms (submit_guess sid roomId guess (rooms s));
        pending := pending s
                   ++ armed (out_effects
                               (submit_guess sid roomId guess (rooms s))) |},
     out_effects (submit_guess sid roomId guess (rooms s))).
Proof. reflexivity. Qed.

Lemma server_same (s : Server) :
  {| rooms := rooms s; pending := pending s ++ armed [] |} = s.
Proof. destruct s. simpl. rewrite app_nil_r. reflexivity. Qed.

(** Guesses that the matcher does not accept during the active round: the
    private notices, nothing else. *)
Lemma run_not_accepted (s : Server) roomId r song
    (subs : list (string * JsVal)) :
  rooms s !! roomId = Some r ->
  roundActive r = true -> state r = PLAYING -> currentSong r = Some song ->
  Forall (fun sg => checkAnswer (snd sg) (title song) <> Returns true) subs ->
  run s (guesses roomId subs) = (s, notices song subs).
Proof.
  intros Hr Hact Hst Hsong Hall.
  induction Hall as [|[sid g] subs Hno _ IH]; [reflexivity|].
  unfold guesses in *. rewrite map_cons, run_cons, step_submit.
  cbn [fst snd] in *.
  destruct (submit_guess_not_accepted sid roomId g (rooms s) r song)
    as [H1 H2]; try assumption.
  rewrite H1, H2.
  assert (Hnone : armed (notices song [(sid, g)]) = []).
  { unfold notices. simpl.
    destruct (checkAnswer g (title song)) as [[|]|e]; reflexivity. }
  rewrite Hnone. change (@nil Timer) with (armed []).
  rewrite server_same, IH. cbn [fst snd]. f_equal.
  unfold notices. cbn [flat_map]. rewrite app_nil_r. reflexivity.
Qed.

(** Guesses that arrive when the round is no longer active: nothing. *)
Lemma run_late (s : Server) roomId r (subs : list (string * JsVal)) :
  rooms s !! roomId = Some r -> roundActive r = false ->
  run s (guesses roomId subs) = (s, []).
Proof.
  intros Hr Hoff. induction subs as [|[sid g] subs IH]; [reflexivity|].
  unfold guesses in *. rewrite map_cons, run_cons, step_submit.
  cbn [fst snd] in *.
  rewrite (submit_guess_closed sid roomId g (rooms s) r) by auto.
  cbn [out_rooms out_effects fst snd].
  rewrite server_same, IH. reflexivity.
Qed.

Lemma step_accepted (s : Server) roomId r song sid guess :
  rooms s !! roomId = Some r ->
  roundActive r = true -> state r = PLAYING -> currentSong r = Some song ->
  checkAnswer guess (title song) = Returns true ->
  step s (SubmitGuess sid roomId guess)
  = ({| rooms := <[roomId := set_players (award sid (players r))
                               (set_roundActive false r)]> (rooms s);
        pending := pending s ++ armed (win_effects roomId sid r) |},
     win_effects roomId sid r).
Proof.
  intros Hr Hact Hst Hsong Hyes. rewrite step_submit. unfold win_effects.
  destruct (find_player sid (players r)) as [p|] eqn:Hp.
  - rewrite (submit_guess_won sid roomId guess (rooms s) r song p)
      by assumption.
    cbn [out_rooms out_effects]. rewrite Hsong. reflexivity.
  - rewrite (submit_guess_stranger sid roomId guess (rooms s) r song)
      by assumption.
    cbn [out_rooms out_effects]. rewrite (award_stranger _ _ Hp).
    change (players r) with (players (set_roundActive false r)).
    rewrite set_players_same. reflexivity.
Qed.

(** C1.  In an active round, let guesses arrive in any number: some that
    the matcher does not accept, then one that it accepts, then any others.
    The accepted one switches [roundActive] off and raises the score of its
    submitter by exactly 1 (the first player with that socket id; by 0 when
    the socket is not a player of the room); the guesses after it change
    no score and no other state and emit nothing, so the run has at most one
    [round_winner] event, that of the first accepted guess. *)
Theorem first_accepted_guess_scores_alone
    (s : Server) (roomId : string) (r : Room) (song : Song)
    (before after : list (string * JsVal)) (sid : string) (guess : JsVal) :
  rooms s !! roomId = Some r ->
  roundActive r = true -> state r = PLAYING -> currentSong r = Some song ->
  Forall (fun sg => checkAnswer (snd sg) (title song) <> Returns true)
    before ->
  checkAnswer guess (title song) = Returns true ->
  let r' := set_players (award sid (players r)) (set_roundActive false r) in
  let s1 := {| rooms := <[roomId := r']> (rooms s);
               pending := pending s ++ armed (win_effects roomId sid r) |} in
  run s (guesses roomId (before ++ (sid, guess) :: after))
  = (s1, notices song before ++ win_effects roomId sid r) /\
  run s1 (guesses roomId after) = (s1, []) /\
  roundActive r' = false /\
  total_score (players r')
  = (total_score (players r)
     + match find_player sid (players r) with Some _ => 1 | None => 0 end)%nat /\
  List.filter is_round_winner
    (snd (run s (guesses roomId (before ++ (sid, guess) :: after))))
  = match find_player sid (players r) with
    | Some p => [Emit (ToRoom roomId) (round_winner (p_name p) (Some song))]
    | None => []
    end.
Proof.
  intros Hr Hact Hst Hsong Hno Hyes r' s1.
  assert (Hlate : run s1 (guesses roomId after) = (s1, [])).
  { apply (run_late s1 roomId r'); [apply lookup_insert_eq | reflexivity]. }
  assert (Hrun : run s (guesses roomId (before ++ (sid, guess) :: after))
                 = (s1, notices song before ++ win_effects roomId sid r)).
  { unfold guesses. rewrite map_app, map_cons. cbn [fst snd].
    fold (guesses roomId before). fold (guesses roomId after).
    rewrite run_app.
    rewrite (run_not_accepted s roomId r song before) by assumption.
    cbn [fst snd]. rewrite run_cons.
    rewrite (step_accepted s roomId r song sid guess) by assumption.
    cbn [fst snd]. fold r'. fold s1. rewrite Hlate. cbn [fst snd].
    rewrite app_nil_r. reflexivity. }
  split; [exact Hrun|]. split; [exact Hlate|]. split; [reflexivity|].
  split; [apply total_score_award|].
  rewrite Hrun. cbn [snd]. rewrite List.filter_app.
  assert (Hw : List.filter is_round_winner (notices song before) = []).
  { clear. unfold notices. induction before as [|sg l IH]; [reflexivity|].
    cbn [flat_map]. rewrite List.filter_app, IH, app_nil_r.
    destruct (checkAnswer (snd sg) (title song)) as [[|]|e]; reflexivity. }
  rewrite Hw. unfold win_effects. rewrite Hsong.
  destruct (find_player sid (players r)); reflexivity.
Qed.

End RunFacts.

(** ** Handlers act on their own room *)

Lemma local_ret {A : Type} rid (a : A) : local rid (ret a).
Proof. intros tbl. split; [reflexivity | constructor]. Qed.

Lemma local_throw {A : Type} rid e : local rid (@throw A e).
Proof. intros tbl. split; [reflexivity | constructor]. Qed.

Lemma local_lift {A : Type} rid (c : Completion A) : local rid (lift c).
Proof. intros tbl. split; [reflexivity | constructor]. Qed.

Lemma local_get rid roomId : local rid (get_room roomId).
Proof. intros tbl. split; [reflexivity | constructor]. Qed.

Lemma local_update rid f : local rid (update_room rid f).
Proof.
  intros tbl. split; [|constructor].
  intros k Hk. simpl. apply lookup_alter_ne. congruence.
Qed.

Lemma local_perform rid e : about rid e -> local rid (perform e).
Proof. intros He tbl. split; [reflexivity|]. simpl. auto. Qed.

Lemma local_bind {A B : Type} rid (m : M A) (k : A -> M B) :
  local rid m -> (forall a, local rid (k a)) -> local rid (bind m k).
Proof.
  intros Hm Hk tbl. unfold bind.
  destruct (Hm tbl) as [Hm1 Hm2].
  destruct (out_result (m tbl)) as [a|e]; simpl; [|auto].
  destruct (Hk a (out_rooms (m tbl))) as [Hk1 Hk2]. split.
  - intros x Hx. rewrite Hk1, Hm1 by assumption. reflexivity.
  - apply Forall_app. auto.
Qed.

Ltac local_step :=
  first
    [ apply local_bind; [|intros ?]
    | apply local_ret | apply local_throw | apply local_lift
    | apply local_get | apply local_update
    | apply local_perform; simpl; auto ].

Ltac local_auto :=
  repeat (local_step ||
          match goal with
          | |- local _ (match ?x with _ => _ end) => destruct x
          | |- local _ (if ?x then _ else _) => destruct x
          end).

Section Locality.
Context {U : UnicodeOps}.

Lemma local_endGameInternal rid : local rid (endGameInternal rid).
Proof. unfold endGameInternal. local_auto. Qed.

Lemma local_startRound rid : local rid (startRound rid).
Proof.
  unfold startRound. apply local_bind; [apply local_get|]. intros [r|].
  - destruct (totalRounds r <=? currentRound r)%nat.
    + apply local_endGameInternal.
    + unfold emit, setTimeout. local_auto.
  - apply local_throw.
Qed.

Lemma local_run_callback cb rid :
  cb_room cb = Some rid -> local rid (run_callback cb).
Proof.
  destruct cb as [|x|x|x|x song]; simpl; intros [= <-].
  - apply local_startRound.
  - unfold winner_pause_elapsed.
    apply local_bind; [apply local_get|]. intros [r|]; [|apply local_ret].
    destruct (currentRound r <? totalRounds r)%nat;
      [apply local_startRound | apply local_endGameInternal].
  - unfold countdown_elapsed, emit, setTimeout. local_auto.
  - unfold timeout_elapsed, emit, setTimeout. local_auto.
Qed.

Lemma local_handle ev rid : event_room ev = Some rid -> local rid (handle ev).
Proof.
  destruct ev as [sid x n u|sid x n|x n res|sid x g|i]; simpl;
    intros [= <-].
  - unfold join_room, emit. local_auto.
  - unfold start_game, emit, setTimeout. local_auto.
  - unfold start_game_resume, emit, setTimeout. local_auto.
  - unfold submit_guess, currentSong_title, emit, setTimeout. local_auto.
Qed.

End Locality.

(** ** A room whose round was switched off stays silent *)

Section Silence.
Context {U : UnicodeOps}.

Lemma quiet_nil roomId : quiet roomId [].
Proof. split; constructor. Qed.

Lemma about_quiet rid roomId (effs : list Effect) :
  rid <> roomId -> Forall (about rid) effs -> quiet roomId effs.
Proof.
  intros Hne Hall. induction Hall as [|e effs He _ [IH1 IH2]].
  - apply quiet_nil.
  - split.
    + destruct e as [to m|cb ms|x st n|x ps]; simpl; try exact IH1.
      constructor; [|exact IH1]. unfold inert_for. simpl.
      destruct cb; simpl in *; try exact I;
        destruct He as [He | He]; congruence.
    + constructor; [|exact IH2].
      destruct e as [[x|x] m|cb ms|x st n|x ps]; simpl in *; try reflexivity.
      subst x. destruct m; try reflexivity; apply String.eqb_neq; assumption.
Qed.

Lemma local_frame {A : Type} rid roomId (m : M A) (tbl : gmap string Room) :
  local rid m -> rid <> roomId -> dormant roomId tbl ->
  dormant roomId (out_rooms (m tbl)) /\ quiet roomId (out_effects (m tbl)).
Proof.
  intros Hm Hne (r & Hr & Hoff). destruct (Hm tbl) as [H1 H2]. split.
  - exists r. rewrite H1 by congruence. auto.
  - apply (about_quiet rid); assumption.
Qed.

Lemma dormant_alter roomId f (tbl : gmap string Room) :
  (forall r, roundActive (f r) = roundActive r) ->
  dormant roomId tbl -> dormant roomId (alter f roomId tbl).
Proof.
  intros Hf (r & Hr & Hoff). exists (f r).
  rewrite lookup_alter_eq, Hr. rewrite Hf. auto.
Qed.

(** The handlers of the room itself, while it is dormant. *)
Lemma own_handle_quiet roomId ev (tbl : gmap string Room) :
  event_room ev = Some roomId -> no_restart roomId ev ->
  dormant roomId tbl ->
  dormant roomId (out_rooms (handle ev tbl)) /\
  quiet roomId (out_effects (handle ev tbl)).
Proof.
  intros Hev Hno Hd. pose proof Hd as (r & Hr & Hoff).
  destruct ev as [sid x n u|sid x n|x n res|sid x g|i]; simpl in Hev;
    try discriminate; injection Hev as ->.
  - cbn [handle]. unfold join_room, bind, get_room. simpl. rewrite Hr.
    destruct (is_lobby (state r)); simpl.
    + split; [apply dormant_alter; auto|].
      split; simpl; repeat constructor.
    + split; [assumption|]. split; simpl; repeat constructor.
  - cbn [handle]. unfold start_game, bind, get_room. simpl. rewrite Hr.
    destruct (length (players r) =? 0)%nat; simpl.
    + split; [assumption | apply quiet_nil].
    + split; [apply dormant_alter; auto|].
      split; simpl; repeat constructor.
  - simpl in Hno. congruence.
  - cbn [handle]. rewrite (submit_guess_closed sid roomId g tbl r) by auto.
    split; [assumption | apply quiet_nil].
Qed.

Lemma own_callback_quiet roomId cb (tbl : gmap string Room) :
  inert_for roomId {| timer_cb := cb; timer_ms := 0 |} ->
  dormant roomId tbl ->
  dormant roomId (out_rooms (run_callback cb tbl)) /\
  quiet roomId (out_effects (run_callback cb tbl)).
Proof.
  intros Hin Hd. pose proof Hd as (r & Hr & Hoff).
  unfold inert_for in Hin. simpl in Hin.
  destruct cb as [|x|x|x|x song].
  - split; [assumption | apply quiet_nil].
  - apply (local_frame x); auto. apply local_run_callback. reflexivity.
  - apply (local_frame x); auto. apply local_run_callback. reflexivity.
  - apply (local_frame x); auto. apply local_run_callback. reflexivity.
  - destruct (decide (x = roomId)) as [->|Hne].
    + cbn [run_callback]. rewrite timeout_elapsed_stale.
      * split; [assumption | apply quiet_nil].
      * intros r0 Hr0. left. congruence.
    + apply (local_frame x); auto. apply local_run_callback. reflexivity.
Qed.

Lemma step_quiet roomId (s : Server) ev :
  no_restart roomId ev ->
  dormant roomId (rooms s) -> Forall (inert_for roomId) (pending s) ->
  dormant roomId (rooms (fst (step s ev))) /\
  Forall (inert_for roomId) (pending (fst (step s ev))) /\
  quiet roomId (snd (step s ev)).
Proof.
  intros Hno Hd Hp.
  assert (Hother : forall ev',
             match ev' with TimerFires _ => False | _ => True end ->
             no_restart roomId ev' ->
             dormant roomId (out_rooms (handle ev' (rooms s))) /\
             quiet roomId (out_effects (handle ev' (rooms s)))).
  { intros ev' Hnt Hno'.
    destruct (event_room ev') as [rid|] eqn:Hroom.
    - destruct (decide (rid = roomId)) as [->|Hne].
      + apply own_handle_quiet; assumption.
      + apply (local_frame rid); auto. apply local_handle. assumption.
    - destruct ev'; simpl in Hroom; try discriminate. contradiction. }
  destruct ev as [sid x n u|sid x n|x n res|sid x g|i].
  1-4: (match goal with |- context [step _ ?e] =>
          destruct (Hother e I Hno) as (H1 & H2 & H3) end;
        cbn [step fst snd rooms pending];
        split; [exact H1|]; split; [|split; assumption];
        apply Forall_app; split; assumption).
  cbn [step]. destruct (pending s !! i) as [t|] eqn:Ht.
  - assert (Hin : inert_for roomId t).
    { rewrite Forall_forall in Hp. apply Hp.
      apply list_elem_of_lookup. eauto. }
    destruct (own_callback_quiet roomId (timer_cb t) (rooms s))
      as (H1 & H2 & H3); [exact Hin | assumption |].
    cbn [fst snd rooms pending].
    split; [exact H1|]. split; [|split; assumption].
    apply Forall_app. split; [|assumption].
    apply Forall_forall. intros t' Ht'.
    rewrite Forall_forall in Hp. apply Hp.
    eapply list_elem_of_delete_inv. exact Ht'.
  - cbn [fst snd]. split; [assumption|]. split; [assumption|].
    apply quiet_nil.
Qed.

Lemma run_quiet roomId (evs : list Event) (s : Server) :
  Forall (no_restart roomId) evs ->
  dormant roomId (rooms s) -> Forall (inert_for roomId) (pending s) ->
  dormant roomId (rooms (fst (run s evs))) /\
  Forall (inert_for roomId) (pending (fst (run s evs))) /\
  quiet roomId (snd (run s evs)).
Proof.
  intros Hevs. revert s. induction Hevs as [|ev evs Hev _ IH]; intros s Hd Hp.
  - cbn [run fst snd]. split; [assumption|]. split; [assumption|].
    apply quiet_nil.
  - rewrite run_cons. cbn [fst snd].
    destruct (step_quiet roomId s ev Hev Hd Hp) as (H1 & H2 & H3 & H4).
    destruct (IH _ H1 H2) as (K1 & K2 & K3 & K4).
    split; [exact K1|]. split; [exact K2|].
    split.
    + unfold armed. rewrite omap_app. apply Forall_app. split; assumption.
    + apply Forall_app. split; assumption.
Qed.

End Silence.

(** ** Timers armed by one event *)

Lemma delete_beyond {A : Type} (l : list A) (i : nat) :
  l !! i = None -> delete i l = l.
Proof.
  revert i. induction l as [|x l IH]; intros [|i]; simpl; try easy.
  intros H. rewrite (IH i H). reflexivity.
Qed.

Ltac split_cases :=
  repeat match goal with
         | |- context [match ?x with _ => _ end] => destruct x eqn:?; simpl
         end.

Section TimerCount.
Context {U : UnicodeOps}.

Lemma endGameInternal_arms_nothing roomId (tbl : gmap string Room) :
  armed (out_effects (endGameInternal roomId tbl)) = [].
Proof.
  unfold endGameInternal, bind, get_room, update_room, emit, perform, ret.
  simpl. split_cases; reflexivity.
Qed.

Lemma startRound_arms_at_most_one roomId (tbl : gmap string Room) :
  (length (armed (out_effects (startRound roomId tbl))) <= 1)%nat.
Proof.
  unfold startRound, bind, get_room.
  cbn [out_result out_rooms out_effects app].
  destruct (tbl !! roomId) as [r|]; [|simpl; lia].
  destruct (totalRounds r <=? currentRound r)%nat; [|simpl; lia].
  rewrite endGameInternal_arms_nothing. simpl. lia.
Qed.

Lemma callback_arms_at_most_one cb (tbl : gmap string Room) :
  (length (armed (out_effects (run_callback cb tbl))) <= 1)%nat.
Proof.
  destruct cb as [|x|x|x|x song]; cbn [run_callback].
  - simpl. lia.
  - apply startRound_arms_at_most_one.
  - unfold winner_pause_elapsed, bind, get_room.
    cbn [out_result out_rooms out_effects app].
    destruct (tbl !! x) as [r|]; [|simpl; lia].
    destruct (currentRound r <? totalRounds r)%nat.
    + apply startRound_arms_at_most_one.
    + rewrite endGameInternal_arms_nothing. simpl. lia.
  - unfold countdown_elapsed, bind, get_room, update_room, emit, setTimeout,
      perform, throw. simpl. split_cases; simpl; lia.
  - unfold timeout_elapsed, bind, get_room, update_room, emit, setTimeout,
      perform, ret. simpl. split_cases; simpl; lia.
Qed.

Lemma handle_arms_at_most_one ev (tbl : gmap string Room) :
  (length (armed (out_effects (handle ev tbl))) <= 1)%nat.
Proof.
  destruct ev as [sid x n u|sid x n|x n res|sid x g|i]; cbn [handle].
  - unfold join_room, bind, get_room, update_room, emit, perform. simpl.
    split_cases; simpl; lia.
  - unfold start_game, bind, get_room, update_room, emit, setTimeout,
      perform, ret. simpl. split_cases; simpl; lia.
  - unfold start_game_resume, bind, get_room, update_room, emit, setTimeout,
      perform, ret. split_cases; simpl; split_cases; simpl; lia.
  - unfold submit_guess, currentSong_title, bind, get_room, update_room,
      emit, setTimeout, perform, ret, throw, lift. simpl.
    split_cases; simpl; lia.
  - simpl. lia.
Qed.

Lemma step_arms_at_most_one (s : Server) ev :
  (length (armed (snd (step s ev))) <= 1)%nat.
Proof.
  destruct ev as [sid x n u|sid x n|x n res|sid x g|i];
    try apply handle_arms_at_most_one.
  cbn [step]. destruct (pending s !! i) as [t|]; cbn [snd].
  - apply callback_arms_at_most_one.
  - simpl. lia.
Qed.

End TimerCount.

(** ** The round sequence has one thread *)

Lemma drivers_app roomId (l1 l2 : list Timer) :
  drivers roomId (l1 ++ l2) = drivers roomId l1 ++ drivers roomId l2.
Proof. apply List.filter_app. Qed.

Lemma drivers_delete roomId (l : list Timer) (i : nat) (t : Timer) :
  l !! i = Some t ->
  length (drivers roomId l)
  = ((if drives roomId t then 1 else 0)
     + length (drivers roomId (delete i l)))%nat.
Proof.
  revert i. induction l as [|x l IH]; intros [|i] Hi; simpl in *;
    try discriminate.
  - injection Hi as ->. unfold drivers. simpl.
    destruct (drives roomId t); reflexivity.
  - unfold drivers in *. simpl.
    destruct (drives roomId x); simpl; rewrite (IH i Hi);
      destruct (drives roomId t); lia.
Qed.

Lemma about_no_driver rid roomId (effs : list Effect) :
  rid <> roomId -> Forall (about rid) effs -> drivers roomId (armed effs) = [].
Proof.
  intros Hne Hall. induction Hall as [|e effs He _ IH]; [reflexivity|].
  destruct e as [to m|cb ms|x st n|x ps]; simpl; try exact IH.
  unfold drivers in *. simpl. rewrite IH. unfold drives. simpl.
  destruct cb; simpl in *; try reflexivity;
    destruct He as [He | He]; try discriminate;
    injection He as ->;
    (destruct (String.eqb_spec rid roomId); [contradiction | reflexivity]).
Qed.

Lemma inert_iff_not_drives roomId (t : Timer) :
  inert_for roomId t <-> drives roomId t = false.
Proof.
  unfold inert_for, drives. destruct (timer_cb t) as [|x|x|x|x song];
    try (split; [reflexivity | exact (fun _ => I)]);
    (destruct (String.eqb_spec x roomId); split; congruence).
Qed.

Lemma no_drivers_inert roomId (l : list Timer) :
  drivers roomId l = [] <-> Forall (inert_for roomId) l.
Proof.
  unfold drivers. induction l as [|t l IH]; simpl.
  - split; [constructor | reflexivity].
  - destruct (drives roomId t) eqn:Hd.
    + split; [discriminate|]. intros H. apply Forall_cons in H as [Ht _].
      apply inert_iff_not_drives in Ht. congruence.
    + rewrite IH. split.
      * intros H. constructor; [apply inert_iff_not_drives|]; assumption.
      * intros H. apply Forall_cons in H as [_ H]. exact H.
Qed.

Section Pace.
Context {U : UnicodeOps}.

Lemma keeps_pace_idle roomId r (tbl : gmap string Room) :
  tbl !! roomId = Some r ->
  keeps_pace roomId r (mkOutcome tbl [] (Returns tt)).
Proof. intros Hr. exists r. split; [exact Hr|]. left. auto. Qed.

Lemma own_handle_pace roomId ev (tbl : gmap string Room) r :
  event_room ev = Some roomId -> no_restart roomId ev ->
  tbl !! roomId = Some r ->
  keeps_pace roomId r (handle ev tbl).
Proof.
  intros Hev Hno Hr.
  destruct ev as [sid x n u|sid x n|x n res|sid x g|i]; simpl in Hev;
    try discriminate; injection Hev as ->.
  - cbn [handle]. unfold join_room, bind, get_room. simpl. rewrite Hr.
    destruct (is_lobby (state r)); simpl.
    + eexists. split; [cbn [out_rooms]; rewrite lookup_alter_eq, Hr; reflexivity|].
      left. split; reflexivity.
    + exists r. split; [exact Hr|]. left. split; reflexivity.
  - cbn [handle]. unfold start_game, bind, get_room. simpl. rewrite Hr.
    destruct (length (players r) =? 0)%nat; simpl.
    + exists r. split; [exact Hr|]. left. split; reflexivity.
    + eexists. split; [cbn [out_rooms]; rewrite lookup_alter_eq, Hr; reflexivity|].
      left. split; reflexivity.
  - simpl in Hno. congruence.
  - cbn [handle].
    destruct (roundActive r) eqn:Hact;
      [|rewrite (submit_guess_closed sid roomId g tbl r) by auto;
        apply keeps_pace_idle; assumption].
    destruct (is_playing (state r)) eqn:Hst;
      [|rewrite (submit_guess_closed sid roomId g tbl r);
        [apply keeps_pace_idle; assumption
        |assumption
        |right; destruct (state r); simpl in Hst; congruence]].
    assert (Hpl : state r = PLAYING)
      by (destruct (state r); simpl in Hst; congruence).
    destruct (currentSong r) as [song|] eqn:Hsong.
    + destruct (checkAnswer g (title song)) as [[|]|e] eqn:Hc.
      * destruct (find_player sid (players r)) as [p|] eqn:Hp.
        -- rewrite (submit_guess_won sid roomId g tbl r song p) by assumption.
           eexists. split; [apply lookup_insert_eq|]. right.
           split; [exact Hact|]. split; [reflexivity|].
           cbn [out_effects armed omap list_omap]. unfold drivers. simpl.
           destruct (drives _ _); simpl; lia.
        -- rewrite (submit_guess_stranger sid roomId g tbl r song)
             by assumption.
           eexists. split; [apply lookup_insert_eq|]. right.
           split; [exact Hact|]. split; [reflexivity|]. simpl. lia.
      * destruct (submit_guess_not_accepted sid roomId g tbl r song)
          as [H1 H2]; try assumption; [congruence|].
        exists r. rewrite H1, H2. split; [exact Hr|]. left.
        unfold notices. simpl. rewrite Hc. split; reflexivity.
      * destruct (submit_guess_not_accepted sid roomId g tbl r song)
          as [H1 H2]; try assumption; [congruence|].
        exists r. rewrite H1, H2. split; [exact Hr|]. left.
        unfold notices. simpl. rewrite Hc. split; reflexivity.
    + unfold submit_guess, bind, get_room, currentSong_title. simpl.
      rewrite Hr, Hact, Hst, Hsong. simpl. exists r.
      split; [exact Hr|]. left. split; reflexivity.
Qed.

Lemma timeout_pace roomId song (tbl : gmap string Room) r :
  tbl !! roomId = Some r ->
  keeps_pace roomId r (timeout_elapsed roomId song tbl).
Proof.
  intros Hr.
  destruct (roundActive r && current_is song r) eqn:Hlive.
  - apply andb_true_iff in Hlive as [Hact Hcur].
    rewrite (timeout_elapsed_live roomId song tbl r) by assumption.
    eexists. split; [apply lookup_insert_eq|]. right.
    split; [exact Hact|]. split; [reflexivity|].
    cbn [out_effects armed omap list_omap]. unfold drivers. simpl.
    destruct (drives _ _); simpl; lia.
  - rewrite timeout_elapsed_stale; [apply keeps_pace_idle; assumption|].
    intros r0 Hr0. assert (r0 = r) as -> by congruence.
    apply andb_false_iff. assumption.
Qed.

Lemma endGameInternal_pace roomId (tbl : gmap string Room) r :
  tbl !! roomId = Some r ->
  exists r', out_rooms (endGameInternal roomId tbl) !! roomId = Some r' /\
             roundActive r' = roundActive r.
Proof.
  intros Hr. exists (set_state ENDED r). split; [|reflexivity].
  unfold endGameInternal, bind, get_room, update_room, emit, perform, ret.
  simpl. rewrite Hr. simpl.
  destruct (truthy (hostId r)); simpl; rewrite lookup_alter_eq, Hr;
    reflexivity.
Qed.

Lemma startRound_pace roomId (tbl : gmap string Room) r :
  tbl !! roomId = Some r -> roundActive r = false ->
  resumes_pace roomId (startRound roomId tbl).
Proof.
  intros Hr Hoff. unfold resumes_pace, startRound, bind, get_room.
  cbn [out_result out_rooms out_effects app]. rewrite Hr.
  destruct (totalRounds r <=? currentRound r)%nat.
  - destruct (endGameInternal_pace roomId tbl r Hr) as (r' & Hr' & Hsame).
    exists r'. split; [exact Hr'|].
    rewrite endGameInternal_arms_nothing, Hsame, Hoff. simpl. lia.
  - exists r. split; [exact Hr|]. rewrite Hoff.
    unfold emit, setTimeout, perform, drivers, drives. simpl.
    destruct (String.eqb roomId roomId); simpl; lia.
Qed.

Lemma driver_pace roomId cb (tbl : gmap string Room) r :
  drives roomId {| timer_cb := cb; timer_ms := 0 |} = true ->
  tbl !! roomId = Some r -> roundActive r = false ->
  resumes_pace roomId (run_callback cb tbl).
Proof.
  unfold drives. simpl. intros Hd Hr Hoff.
  destruct cb as [|x|x|x|x song]; try discriminate;
    apply String.eqb_eq in Hd; subst x; cbn [run_callback].
  - apply (startRound_pace roomId tbl r); assumption.
  - unfold winner_pause_elapsed, bind, get_room.
    cbn [out_result out_rooms out_effects app]. rewrite Hr.
    destruct (currentRound r <? totalRounds r)%nat.
    + apply (startRound_pace roomId tbl r); assumption.
    + destruct (endGameInternal_pace roomId tbl r Hr) as (r' & Hr' & Hsame).
      exists r'. split; [exact Hr'|]. cbn [out_effects].
      rewrite endGameInternal_arms_nothing, Hsame, Hoff. simpl. lia.
  - unfold resumes_pace, countdown_elapsed, bind, get_room, update_room, emit,
      setTimeout, perform, throw.
    simpl. rewrite Hr. simpl.
    destruct (songs r !! currentRound r) as [sg|]; simpl;
      (eexists; split; [rewrite !lookup_alter_eq, Hr; reflexivity|]);
      simpl; lia.
Qed.

Lemma step_paced roomId (s : Server) ev :
  no_restart roomId ev -> paced roomId s -> paced roomId (fst (step s ev)).
Proof.
  intros Hno (r & Hr & Hlen).
  assert (Hkeep : forall (o : Outcome unit) (rest : list Timer),
             keeps_pace roomId r o ->
             length (drivers roomId rest) = length (drivers roomId (pending s)) ->
             paced roomId {| rooms := out_rooms o;
                             pending := rest ++ armed (out_effects o) |}).
  { intros o rest (r' & Hr' & Hcase) Hrest. exists r'.
    split; [exact Hr'|]. cbn [pending].
    rewrite drivers_app, length_app, Hrest.
    destruct Hcase as [[Hsame Hnone] | (Hact & Hoff & Hone)].
    - rewrite Hnone, Hsame. simpl. lia.
    - rewrite Hact in Hlen. rewrite Hoff. lia. }
  assert (Hframe : forall (o : Outcome unit) (rest : list Timer) rid,
             rid <> roomId ->
             (forall k, k <> rid -> out_rooms o !! k = rooms s !! k) ->
             Forall (about rid) (out_effects o) ->
             (length (drivers roomId rest)
              <= length (drivers roomId (pending s)))%nat ->
             paced roomId {| rooms := out_rooms o;
                             pending := rest ++ armed (out_effects o) |}).
  { intros o rest rid Hne Hsame Habout Hrest. exists r.
    split; [cbn [rooms]; rewrite Hsame by congruence; exact Hr|].
    cbn [pending].
    rewrite drivers_app, length_app, (about_no_driver rid) by assumption.
    simpl. lia. }
  assert (Hevent : forall ev',
             match ev' with TimerFires _ => False | _ => True end ->
             no_restart roomId ev' ->
             paced roomId {| rooms := out_rooms (handle ev' (rooms s));
                             pending := pending s
                               ++ armed (out_effects (handle ev' (rooms s))) |}).
  { intros ev' Hnt Hno'.
    destruct (event_room ev') as [rid|] eqn:Hroom.
    - destruct (decide (rid = roomId)) as [->|Hne].
      + apply Hkeep; [|reflexivity]. apply own_handle_pace; assumption.
      + destruct (local_handle ev' rid Hroom (rooms s)) as [H1 H2].
        apply (Hframe _ _ rid); auto.
    - destruct ev'; simpl in Hroom; try discriminate. contradiction. }
  destruct ev as [sid x n u|sid x n|x n res|sid x g|i].
  1-4: (match goal with |- context [step _ ?e] => exact (Hevent e I Hno) end).
  cbn [step]. destruct (pending s !! i) as [t|] eqn:Ht;
    [|exists r; split; assumption].
  cbn [fst]. pose proof (drivers_delete roomId (pending s) i t Ht) as Hdel.
  destruct (cb_room (timer_cb t)) as [rid|] eqn:Hcb.
  - destruct (decide (rid = roomId)) as [->|Hne].
    + destruct (drives roomId t) eqn:Hdrv.
      * destruct (roundActive r) eqn:Hact; [lia|].
        assert (Hd' : drives roomId {| timer_cb := timer_cb t;
                                       timer_ms := 0 |} = true)
          by (destruct t; exact Hdrv).
        destruct (driver_pace roomId (timer_cb t) (rooms s) r Hd' Hr Hact)
          as (r' & Hr' & Hbound).
        exists r'. split; [exact Hr'|]. cbn [pending].
        rewrite drivers_app, length_app. lia.
      * apply Hkeep; [|lia].
        destruct t as [cb ms]. unfold drives in Hdrv. simpl in *.
        destruct cb as [|x|x|x|x song]; simpl in Hcb; try discriminate;
          injection Hcb as ->;
          try (rewrite String.eqb_refl in Hdrv; discriminate).
        apply timeout_pace. assumption.
    + destruct (local_run_callback (timer_cb t) rid Hcb (rooms s)) as [H1 H2].
      apply (Hframe _ _ rid); auto. lia.
  - destruct t as [cb ms]. simpl in Hcb.
    destruct cb; simpl in Hcb; try discriminate.
    cbn [timer_cb run_callback]. unfold drives in Hdel. simpl in Hdel.
    apply (Hkeep (ret tt (rooms s))); [|lia].
    apply keeps_pace_idle. assumption.
Qed.

Lemma run_paced roomId (evs : list Event) (s : Server) :
  Forall (no_restart roomId) evs -> paced roomId s ->
  paced roomId (fst (run s evs)).
Proof.
  intros Hevs. revert s. induction Hevs as [|ev evs Hev _ IH]; intros s Hp.
  - exact Hp.
  - rewrite run_cons. cbn [fst]. apply IH. apply step_paced; assumption.
Qed.

(** The delivery of the playlist to a room that is between rounds and has
    no driving timer starts the one thread. *)
Lemma game_start_paced roomId (s : Server) r requestedRounds res :
  rooms s !! roomId = Some r -> roundActive r = false ->
  drivers roomId (pending s) = [] ->
  paced roomId (fst (step s (PlaylistSettled roomId requestedRounds res))).
Proof.
  intros Hr Hoff Hnone. cbn [step handle fst]. unfold paced. cbn [rooms pending].
  rewrite drivers_app, length_app, Hnone.
  unfold start_game_resume.
  destruct (final_playlist requestedRounds res) as [message|playlist].
  - unfold bind, update_room, emit, perform. simpl.
    eexists. split; [rewrite lookup_alter_eq, Hr; reflexivity|]. simpl. lia.
  - unfold bind, get_room, update_room, emit, setTimeout, perform, ret. simpl.
    rewrite !lookup_alter_eq, Hr. simpl.
    destruct (truthy (hostId r)); simpl;
      (eexists; split; [rewrite !lookup_alter_eq, Hr; reflexivity|]);
      simpl; rewrite Hoff; unfold drivers, drives; simpl;
      destruct (String.eqb roomId roomId); simpl; lia.
Qed.

End Pace.

(** ** The claims about the handlers *)

Section HandlerClaims.
Context {U : UnicodeOps}.

(** C4.  An accepted guess from a socket that is not among the players of
    the room: [roundActive] becomes false, no score changes, nothing is
    emitted (no [round_winner], no [update_scores]) and no timer is armed
    (no next round, no end of the game).  From then on the round has no
    outcome: its own timeout does nothing when it fires, and in a game that
    runs on one thread (no driving timer is pending during the round, no
    further playlist is delivered to the room) no run of events (guesses,
    joins, start requests, timers, events of other rooms) emits a
    [round_winner] or a [round_timeout] for the room, switches
    [roundActive] on again or leaves a driving timer pending. *)
Theorem accepted_guess_of_stranger_consumes_round
    (s : Server) (roomId : string) (r : Room) (song : Song)
    (sid : string) (guess : JsVal) :
  rooms s !! roomId = Some r ->
  roundActive r = true -> state r = PLAYING -> currentSong r = Some song ->
  checkAnswer guess (title song) = Returns true ->
  find_player sid (players r) = None ->
  let s1 := {| rooms := <[roomId := set_roundActive false r]> (rooms s);
               pending := pending s |} in
  step s (SubmitGuess sid roomId guess) = (s1, []) /\
  players (set_roundActive false r) = players r /\
  (forall i ms,
      pending s1 !! i = Some {| timer_cb := RoundTimeout roomId song;
                                timer_ms := ms |} ->
      step s1 (TimerFires i)
      = ({| rooms := rooms s1; pending := delete i (pending s1) |}, [])) /\
  (paced roomId s ->
   forall evs : list Event,
     Forall (no_restart roomId) evs ->
     dormant roomId (rooms (fst (run s1 evs))) /\
     drivers roomId (pending (fst (run s1 evs))) = [] /\
     Forall (fun e => resolves roomId e = false) (snd (run s1 evs))).
Proof.
  intros Hr Hact Hst Hsong Hyes Hp s1.
  split; [|split; [reflexivity|split]].
  - rewrite step_submit.
    rewrite (submit_guess_stranger sid roomId guess (rooms s) r song)
      by assumption.
    cbn [out_rooms out_effects armed omap list_omap]. unfold s1.
    rewrite app_nil_r. reflexivity.
  - intros i ms Hi. cbn [step]. rewrite Hi. cbn [timer_cb run_callback].
    rewrite timeout_elapsed_stale.
    + cbn [out_rooms out_effects armed omap list_omap].
      rewrite app_nil_r. reflexivity.
    + intros r0 Hr0. left. unfold s1 in Hr0. cbn [rooms] in Hr0.
      rewrite lookup_insert_eq in Hr0. injection Hr0 as <-. reflexivity.
  - intros (r0 & Hr0 & Hlen) evs Hevs.
    assert (r0 = r) as -> by congruence. rewrite Hact in Hlen.
    assert (Hinert : Forall (inert_for roomId) (pending s)).
    { apply no_drivers_inert. destruct (drivers roomId (pending s)); [reflexivity|].
      simpl in Hlen. lia. }
    destruct (run_quiet roomId evs s1 Hevs) as (H1 & H2 & _ & H3).
    + exists (set_roundActive false r). split; [|reflexivity].
      apply lookup_insert_eq.
    + exact Hinert.
    + split; [exact H1|]. split; [|exact H3].
      apply no_drivers_inert. exact H2.
Qed.

(** C8, as the code has it.  A guess for an existing room whose
    [roundActive] is false is dropped in silence: the handler returns
    before the matcher is called, nothing is emitted (no rejection notice
    either) and the table of rooms is unchanged. *)
Theorem late_guess_is_dropped_silently
    (sid roomId : string) (guess : JsVal) (tbl : gmap string Room) (r : Room) :
  tbl !! roomId = Some r -> roundActive r = false ->
  submit_guess sid roomId guess tbl = mkOutcome tbl [] (Returns tt).
Proof. intros Hr Hoff. apply (submit_guess_closed _ _ _ _ r); auto. Qed.


(** C6, as the code has it.  The pause after a winning guess and the pause
    after a timeout are the same 5000 ms: the win arms exactly one timer,
    of 5000 ms, for the closure that goes on to the next round or ends the
    game, and the timeout arms exactly one timer, of 5000 ms, for
    [startRound]. *)
Theorem pause_after_round_is_5000
    (roomId : string) (tbl : gmap string Room) (r : Room) (song : Song) :
  tbl !! roomId = Some r ->
  roundActive r = true -> state r = PLAYING -> currentSong r = Some song ->
  (forall sid guess p,
      checkAnswer guess (title song) = Returns true ->
      find_player sid (players r) = Some p ->
      armed (out_effects (submit_guess sid roomId guess tbl))
      = [{| timer_cb := AfterWin roomId; timer_ms := 5000 |}]) /\
  armed (out_effects (timeout_elapsed roomId song tbl))
  = [{| timer_cb := StartRound roomId; timer_ms := 5000 |}].
Proof.
  intros Hr Hact Hst Hsong. split.
  - intros sid guess p Hyes Hp.
    rewrite (submit_guess_won sid roomId guess tbl r song p) by assumption.
    reflexivity.
  - rewrite (timeout_elapsed_live roomId song tbl r); try assumption.
    + reflexivity.
    + unfold current_is, same_object. rewrite Hsong. apply Nat.eqb_refl.
Qed.

(** C7.  When the playlist cannot be resolved (the AI call fails or the
    timer wins the race, the AI returns nothing, a lookup fails, or no
    candidate has a preview), the continuation of [start_game] only sets
    the state of the room to LOBBY and broadcasts one [error] event to the
    room: no timer is armed, [game_started] is not emitted, and [songs],
    [totalRounds] and [currentRound] keep their values.  For a room that
    was in the lobby the room is again what it was before the request. *)
Theorem playlist_failure_rolls_back
    (roomId : string) (requestedRounds : Z) (res : Resolution)
    (tbl : gmap string Room) (r : Room) :
  tbl !! roomId = Some r ->
  resolution_failed res ->
  exists message,
    final_playlist requestedRounds res = inl message /\
    start_game_resume roomId requestedRounds res tbl
    = mkOutcome (<[roomId := set_state LOBBY r]> tbl)
        [Emit (ToRoom roomId)
           (error (if String.prefix "AI timeout" message
                   then AI_TIMEOUT else GENERATION_FAILED) (Some message))]
        (Returns tt) /\
    armed (out_effects (start_game_resume roomId requestedRounds res tbl))
    = [] /\
    state (set_state LOBBY r) = LOBBY /\
    songs (set_state LOBBY r) = songs r /\
    totalRounds (set_state LOBBY r) = totalRounds r /\
    currentRound (set_state LOBBY r) = currentRound r /\
    (forall r0, state r0 = LOBBY -> r = set_state LOADING r0 ->
                set_state LOBBY r = r0).
Proof.
  intros Hr Hfail.
  assert (Hplay : exists message,
             final_playlist requestedRounds res = inl message).
  { destruct res as [m| |m|results sort]; simpl; eauto.
    simpl in Hfail.
    assert (Hvalid : omap (fun song : option Song => song) results = []).
    { induction Hfail as [|x l -> _ IH]; [reflexivity|]. exact IH. }
    rewrite Hvalid.
    rewrite (Permutation_nil (shuffled_perm sort [])).
    unfold slice0. rewrite firstn_nil. simpl. eauto. }
  destruct Hplay as [message Hplay]. exists message.
  assert (Hrun : start_game_resume roomId requestedRounds res tbl
                 = mkOutcome (<[roomId := set_state LOBBY r]> tbl)
                     [Emit (ToRoom roomId)
                        (error (if String.prefix "AI timeout" message
                                then AI_TIMEOUT else GENERATION_FAILED)
                           (Some message))]
                     (Returns tt)).
  { unfold start_game_resume. rewrite Hplay.
    unfold bind, update_room, emit, perform. simpl. f_equal.
    apply alter_found. assumption. }
  split; [exact Hplay|]. split; [exact Hrun|].
  split; [rewrite Hrun; reflexivity|].
  repeat (split; [reflexivity|]).
  intros r0 Hst ->. destruct r0. simpl in *. subst. reflexivity.
Qed.

(** C3, as the code has it.  No handler ever cancels a timer: an event
    leaves every pending timer in place, except that a firing timer is
    itself removed, and adds at most one new timer.  In particular the
    winning guess of a player leaves the timeout timer of the round armed
    and arms the 5000 ms pause timer next to it.  The timer that is left
    over is harmless: when it fires while [roundActive] is false, or while
    [currentSong] is another object than its round's song, it changes no
    state and emits nothing.  What does not stack are the timers that
    advance the round sequence: as long as no further playlist is delivered
    to the room, at most one of them is pending, and none while a round is
    active. *)
Theorem timers_are_left_to_fire (s : Server) :
  (forall ev,
      pending (fst (step s ev))
      = match ev with
        | TimerFires i => delete i (pending s)
        | _ => pending s
        end ++ armed (snd (step s ev))) /\
  (forall ev, (length (armed (snd (step s ev))) <= 1)%nat) /\
  (forall roomId r song sid guess p,
      rooms s !! roomId = Some r ->
      roundActive r = true -> state r = PLAYING ->
      currentSong r = Some song ->
      checkAnswer guess (title song) = Returns true ->
      find_player sid (players r) = Some p ->
      pending (fst (step s (SubmitGuess sid roomId guess)))
      = pending s ++ [{| timer_cb := AfterWin roomId; timer_ms := 5000 |}]) /\
  (forall i roomId song ms,
      pending s !! i = Some {| timer_cb := RoundTimeout roomId song;
                               timer_ms := ms |} ->
      (forall r, rooms s !! roomId = Some r ->
                 roundActive r = false \/ current_is song r = false) ->
      step s (TimerFires i)
      = ({| rooms := rooms s; pending := delete i (pending s) |}, [])) /\
  (forall roomId evs,
      Forall (no_restart roomId) evs -> paced roomId s ->
      paced roomId (fst (run s evs))).
Proof.
  split; [|split; [|split; [|split]]].
  - intros ev. destruct ev as [sid x n u|sid x n|x n res|sid x g|i];
      try reflexivity.
    cbn [step]. destruct (pending s !! i) as [t|] eqn:Ht; [reflexivity|].
    cbn [fst snd armed omap list_omap]. rewrite app_nil_r.
    symmetry. apply delete_beyond. assumption.
  - intros ev. apply step_arms_at_most_one.
  - intros roomId r song sid guess p Hr Hact Hst Hsong Hyes Hp.
    rewrite (step_accepted s roomId r song sid guess) by assumption.
    unfold win_effects. rewrite Hp. reflexivity.
  - intros i roomId song ms Hi Hstale. cbn [step]. rewrite Hi.
    cbn [timer_cb run_callback].
    rewrite (timeout_elapsed_stale roomId song (rooms s) Hstale).
    cbn [out_rooms out_effects armed omap list_omap].
    rewrite app_nil_r. reflexivity.
  - intros roomId evs Hevs Hp. apply run_paced; assumption.
Qed.

End HandlerClaims.

(** ** The claims at the room of [Demo] *)

Example demo_lookup : rooms Demo.server !! "AB12C"%string = Some Demo.room.
Proof. vm_compute. reflexivity. Qed.

Example demo_win :
  @step ascii_only_ops Demo.server
    (SubmitGuess "sock-alice" "AB12C" (JsString (js "wonderwal")))
  = ({| rooms := {[ "AB12C"%string :=
                     set_players (award "sock-alice" [Demo.alice; Demo.bob])
                       (set_roundActive false Demo.room) ]};
        pending := [Demo.timeout_timer;
                    {| timer_cb := AfterWin "AB12C"; timer_ms := 5000 |}] |},
     [Emit (ToRoom "AB12C")
        (update_scores (award "sock-alice" [Demo.alice; Demo.bob]));
      Emit (ToRoom "AB12C")
        (round_winner (JsString (js "Alice")) (Some Demo.wonderwall));
      SetTimeout (AfterWin "AB12C") 5000]).
Proof. vm_compute. reflexivity. Qed.

Lemma first_accepted_guess_scores_alone_witness :
  let subs := [("sock-bob"%string, JsString (js "Champagne Supernova"));
               ("sock-bob"%string, JsNumber 7)]
              ++ ("sock-alice"%string, JsString (js "wonderwal"))
                 :: [("sock-bob"%string, JsString (js "Wonderwall"))] in
  List.filter is_round_winner
    (snd (@run ascii_only_ops Demo.server (guesses "AB12C" subs)))
  = [Emit (ToRoom "AB12C")
       (round_winner (JsString (js "Alice")) (Some Demo.wonderwall))].
Proof.
  apply (@first_accepted_guess_scores_alone ascii_only_ops Demo.server "AB12C"
           Demo.room Demo.wonderwall
           [("sock-bob"%string, JsString (js "Champagne Supernova"));
            ("sock-bob"%string, JsNumber 7)]
           [("sock-bob"%string, JsString (js "Wonderwall"))]
           "sock-alice" (JsString (js "wonderwal"))).
  - vm_compute. reflexivity.
  - reflexivity.
  - reflexivity.
  - reflexivity.
  - repeat constructor; vm_compute; discriminate.
  - vm_compute. reflexivity.
Defined.

Section Unresolved.
Context {U : UnicodeOps}.

(** C2.  A round that ends with neither outcome: while round 1 is active,
    a socket that is not a player of the room sends a guess that the
    matcher accepts, then the timeout timer of the round fires.  The guess
    switches [roundActive] off without emitting anything or arming a
    timer, the timeout finds the round inactive and does nothing: no
    [round_winner], no [round_timeout], and no timer is left to start the
    next round or to end the game. *)
Theorem stranger_guess_leaves_round_unresolved :
  run Demo.server
    [SubmitGuess "sock-mallory" "AB12C" (JsString (js "Wonderwall"));
     TimerFires 0]
  = ({| rooms := {[ "AB12C"%string := set_roundActive false Demo.room ]};
        pending := [] |},
     []).
Proof.
  rewrite run_cons, step_submit.
  rewrite (submit_guess_stranger "sock-mallory" "AB12C"
             (JsString (js "Wonderwall")) (rooms Demo.server)
             Demo.room Demo.wonderwall).
  - vm_compute. reflexivity.
  - vm_compute. reflexivity.
  - reflexivity.
  - reflexivity.
  - reflexivity.
  - change (title Demo.wonderwall) with (JsString (js "Wonderwall")).
    rewrite checkAnswer_ascii by reflexivity. vm_compute. reflexivity.
  - reflexivity.
Qed.

End Unresolved.

(** C3 as stated fails: after the winning guess the timeout timer of the
    round is still armed, beside the pause timer. *)
Lemma timeout_timer_survives_win :
  let s' := fst (@step ascii_only_ops Demo.server
                   (SubmitGuess "sock-alice" "AB12C"
                      (JsString (js "Wonderwall")))) in
  pending s' = [Demo.timeout_timer;
                {| timer_cb := AfterWin "AB12C"; timer_ms := 5000 |}] /\
  length (pending s') = 2%nat.
Proof. vm_compute. split; reflexivity. Qed.

Lemma timers_are_left_to_fire_witness :
  pending (fst (@step ascii_only_ops Demo.server
                  (SubmitGuess "sock-alice" "AB12C"
                     (JsString (js "Wonderwall")))))
  = pending Demo.server
    ++ [{| timer_cb := AfterWin "AB12C"; timer_ms := 5000 |}] /\
  @step ascii_only_ops Demo.resolved (TimerFires 0)
  = ({| rooms := rooms Demo.resolved;
        pending := delete 0%nat (pending Demo.resolved) |}, []) /\
  paced "AB12C"
    (fst (@run ascii_only_ops Demo.server
            [SubmitGuess "sock-alice" "AB12C" (JsString (js "Wonderwall"));
             TimerFires 1; TimerFires 0; TimerFires 0])).
Proof.
  split; [|split].
  - apply (proj1 (proj2 (proj2
             (@timers_are_left_to_fire ascii_only_ops Demo.server)))
             "AB12C"%string Demo.room Demo.wonderwall "sock-alice"%string
             (JsString (js "Wonderwall")) Demo.alice).
    + vm_compute. reflexivity.
    + reflexivity.
    + reflexivity.
    + reflexivity.
    + vm_compute. reflexivity.
    + reflexivity.
  - apply (proj1 (proj2 (proj2 (proj2
             (@timers_are_left_to_fire ascii_only_ops Demo.resolved))))
             0%nat "AB12C"%string Demo.wonderwall 30000).
    + reflexivity.
    + intros r Hr. left. vm_compute in Hr. injection Hr as <-. reflexivity.
  - apply (proj2 (proj2 (proj2 (proj2
             (@timers_are_left_to_fire ascii_only_ops Demo.server))))
             "AB12C"%string).
    + repeat constructor.
    + exists Demo.room. split; [vm_compute; reflexivity|]. simpl. lia.
Defined.

Lemma accepted_guess_of_stranger_consumes_round_witness :
  let s1 := {| rooms := <["AB12C"%string := set_roundActive false Demo.room]>
                          (rooms Demo.server);
               pending := pending Demo.server |} in
  let later := [SubmitGuess "sock-alice" "AB12C" (JsString (js "Wonderwall"));
                TimerFires 0;
                JoinRoom "sock-carol" "AB12C" (JsString (js "Carol")) JsNull] in
  @step ascii_only_ops Demo.server
    (SubmitGuess "sock-mallory" "AB12C" (JsString (js "Wonderwall")))
  = (s1, []) /\
  Forall (fun e => resolves "AB12C" e = false)
    (snd (@run ascii_only_ops s1 later)).
Proof.
  destruct (@accepted_guess_of_stranger_consumes_round ascii_only_ops
              Demo.server "AB12C" Demo.room Demo.wonderwall "sock-mallory"
              (JsString (js "Wonderwall")))
    as (H1 & _ & _ & H4).
  - vm_compute. reflexivity.
  - reflexivity.
  - reflexivity.
  - reflexivity.
  - vm_compute. reflexivity.
  - reflexivity.
  - split; [exact H1|].
    apply H4.
    + exists Demo.room. split; [vm_compute; reflexivity|]. simpl. lia.
    + repeat constructor.
Defined.

(** C8 as stated fails: the late guess is not answered at all. *)
Lemma late_guess_gets_no_notice :
  ~ (forall (U : UnicodeOps) (sid roomId : string) (guess : JsVal)
            (tbl : gmap string Room) (r : Room),
        tbl !! roomId = Some r -> state r = PLAYING -> roundActive r = false ->
        In (Emit (ToSocket sid) wrong_guess)
           (out_effects (@submit_guess U sid roomId guess tbl))).
Proof.
  intros H.
  apply (H ascii_only_ops "sock-bob"%string "AB12C"%string
           (JsString (js "Oasis")) (rooms Demo.resolved)
           (set_roundActive false Demo.room)).
  - vm_compute. reflexivity.
  - reflexivity.
  - reflexivity.
Qed.

Lemma late_guess_is_dropped_silently_witness :
  @submit_guess ascii_only_ops "sock-bob" "AB12C" (JsString (js "Oasis"))
    (rooms Demo.resolved)
  = mkOutcome (rooms Demo.resolved) [] (Returns tt).
Proof.
  apply (@late_guess_is_dropped_silently ascii_only_ops "sock-bob" "AB12C"
           (JsString (js "Oasis")) (rooms Demo.resolved)
           (set_roundActive false Demo.room)).
  - vm_compute. reflexivity.
  - reflexivity.
Defined.



(** C6 as stated fails: the pause after a win is not shorter than the pause
    after a timeout, both timers are armed for 5000 ms. *)
Lemma win_pause_not_shorter :
  let won := armed (snd (@step ascii_only_ops Demo.server
                           (SubmitGuess "sock-alice" "AB12C"
                              (JsString (js "Wonderwall"))))) in
  let timed_out := armed (snd (@step ascii_only_ops Demo.server
                                 (TimerFires 0))) in
  map timer_ms won = [5000] /\ map timer_ms timed_out = [5000] /\
  ~ (5000 < 5000).
Proof. vm_compute. repeat split; try reflexivity. discriminate. Qed.

Lemma pause_after_round_is_5000_witness :
  armed (out_effects (timeout_elapsed "AB12C" Demo.wonderwall
                        (rooms Demo.server)))
  = [{| timer_cb := StartRound "AB12C"; timer_ms := 5000 |}].
Proof.
  apply (@pause_after_round_is_5000 ascii_only_ops "AB12C" (rooms Demo.server)
           Demo.room Demo.wonderwall).
  - vm_compute. reflexivity.
  - reflexivity.
  - reflexivity.
  - reflexivity.
Defined.

Lemma playlist_failure_rolls_back_witness :
  exists message,
    final_playlist 5 (Lookups [None; None] in_order) = inl message /\
    start_game_resume "AB12C" 5
      (Lookups [None; None] in_order) Demo.loading
    = mkOutcome
        (<["AB12C"%string := set_state LOBBY (set_state LOADING Demo.lobby_room)]>
           Demo.loading)
        [Emit (ToRoom "AB12C")
           (error (if String.prefix "AI timeout" message
                   then AI_TIMEOUT else GENERATION_FAILED) (Some message))]
        (Returns tt).
Proof.
  destruct (playlist_failure_rolls_back "AB12C" 5
              (Lookups [None; None] in_order) Demo.loading
              (set_state LOADING Demo.lobby_room))
    as (message & H1 & H2 & _).
  - vm_compute. reflexivity.
  - repeat constructor.
  - exists message. split; assumption.
Defined.

(** * Further properties of the matcher *)

(** ** What [clean] returns *)

Lemma is_word_not_space (c : N) : is_word c = true -> is_space c = false.
Proof.
  unfold is_word, is_space, in_range. intros H.
  repeat (apply orb_true_iff in H; destruct H as [H | H]);
    repeat (apply andb_true_iff in H; destruct H as [? H]);
    repeat match goal with
           | K : (_ <=? _) = true |- _ => apply N.leb_le in K
           | K : (_ =? _) = true |- _ => apply N.eqb_eq in K
           end;
    repeat (apply orb_false_iff; split);
    try (apply andb_false_iff;
         first [left; apply N.leb_gt; lia | right; apply N.leb_gt; lia]);
    apply N.eqb_neq; lia.
Qed.

Lemma blank_specials_chars (s : jsstring) :
  Forall (fun c => is_word c = true \/ is_space c = true) (blank_specials s).
Proof.
  unfold blank_specials. induction s as [|c s IH]; simpl; constructor; auto.
  destruct (is_word c) eqn:Hw; simpl; [auto|].
  destruct (is_space c) eqn:Hs; auto.
Qed.

Lemma collapse_from_shape (s : jsstring) (in_run : bool) :
  Forall (fun c => is_word c = true \/ is_space c = true) s ->
  Forall (fun c => is_word c = true \/ c = 32) (collapse_from in_run s) /\
  (forall l1 l2, collapse_from in_run s <> l1 ++ 32 :: 32 :: l2) /\
  (in_run = true -> forall r, collapse_from in_run s <> 32 :: r).
Proof.
  intros Hs. revert in_run.
  induction Hs as [|c s Hc _ IH]; intros in_run; simpl.
  - split; [constructor|]. split; [|discriminate].
    intros [|x l1] l2; discriminate.
  - destruct (is_space c) eqn:Hsp.
    + destruct (IH true) as (I1 & I2 & I3). specialize (I3 eq_refl).
      destruct in_run.
      * split; [exact I1|]. split; [exact I2|]. intros _. exact I3.
      * split; [constructor; auto|]. split; [|discriminate].
        intros [|x l1] l2 H; simpl in H; injection H; intros Ht; intros.
        -- apply (I3 _ Ht).
        -- apply (I2 _ _ Ht).
    + destruct Hc as [Hw | Hc]; [|congruence].
      destruct (IH false) as (I1 & I2 & _).
      split; [constructor; auto|]. split.
      * intros [|x l1] l2 H; simpl in H; injection H; intros Ht Hh.
        -- subst c. vm_compute in Hw. discriminate.
        -- apply (I2 _ _ Ht).
      * intros _ r H. injection H; intros _ Hh. subst c.
        vm_compute in Hw. discriminate.
Qed.

Lemma trim_start_suffix (s : jsstring) :
  exists pre, s = pre ++ trim_start s.
Proof.
  induction s as [|c s [pre IH]]; simpl.
  - exists []. reflexivity.
  - destruct (is_space c).
    + exists (c :: pre). simpl. congruence.
    + exists []. reflexivity.
Qed.

Lemma trim_start_head (s : jsstring) (c : N) (r : jsstring) :
  trim_start s = c :: r -> is_space c = false.
Proof.
  induction s as [|d s IH]; simpl; [discriminate|].
  destruct (is_space d) eqn:Hd; [exact IH|].
  intros [= <- _]. exact Hd.
Qed.

(** [trim s] is [s] without a prefix and a suffix. *)
Lemma trim_infix (s : jsstring) :
  exists pre post, s = pre ++ trim s ++ post.
Proof.
  unfold trim. destruct (trim_start_suffix s) as [pre Hpre].
  destruct (trim_start_suffix (rev (trim_start s))) as [post' Hpost].
  exists pre, (rev post').
  rewrite <- rev_app_distr, <- Hpost, rev_involutive. exact Hpre.
Qed.

Lemma trim_ends (s : jsstring) :
  (forall c r, trim s = c :: r -> is_space c = false) /\
  (forall l c, trim s = l ++ [c] -> is_space c = false).
Proof.
  unfold trim. split.
  - intros c r H.
    destruct (trim_start_suffix (rev (trim_start s))) as [post' Hpost].
    assert (Ht : trim_start s
                 = rev (trim_start (rev (trim_start s))) ++ rev post').
    { rewrite <- rev_app_distr, <- Hpost, rev_involutive. reflexivity. }
    rewrite H in Ht. simpl in Ht.
    apply (trim_start_head s c _ Ht).
  - intros l c H.
    apply (f_equal (@rev N)) in H. rewrite rev_involutive, rev_app_distr in H.
    simpl in H. apply (trim_start_head _ c _ H).
Qed.

Section CleanShape.
Context {U : UnicodeOps}.

Lemma clean_shape (str : jsstring) :
  Forall (fun c => is_word c = true \/ c = 32) (clean str) /\
  (forall l1 l2, clean str <> l1 ++ 32 :: 32 :: l2) /\
  (forall r, clean str <> 32 :: r) /\
  (forall l, clean str <> l ++ [32]).
Proof.
  unfold clean.
  set (t := strip_feat (strip_parens (strip_marks
              (normalizeNFD (toLowerCase str))))).
  destruct (collapse_from_shape (blank_specials t) false
              (blank_specials_chars t)) as (H1 & H2 & _).
  fold (collapse_spaces (blank_specials t)) in H1, H2.
  destruct (trim_infix (collapse_spaces (blank_specials t)))
    as (pre & post & Hsplit).
  destruct (trim_ends (collapse_spaces (blank_specials t))) as [Hhd Hlast].
  split; [|split; [|split]].
  - rewrite Hsplit in H1.
    apply Forall_app in H1 as [_ H1]. apply Forall_app in H1 as [H1 _].
    exact H1.
  - intros l1 l2 H. rewrite H in Hsplit.
    apply (H2 (pre ++ l1) (l2 ++ post)). rewrite Hsplit.
    rewrite <- !app_assoc. reflexivity.
  - intros r H. specialize (Hhd 32 r H). discriminate.
  - intros l H. specialize (Hlast l 32 H). discriminate.
Qed.

(** X2.  Whatever the input and the runtime, [clean] returns words of
    ASCII letters, digits and underscores separated by single spaces: every
    code unit is a word character or a space, no two spaces are adjacent,
    and the string neither starts nor ends with a space. *)
Theorem clean_normal_form (str : jsstring) :
  Forall (fun c => is_word c = true \/ c = 32) (clean str) /\
  (forall l1 l2, clean str <> l1 ++ 32 :: 32 :: l2) /\
  (forall r, clean str <> 32 :: r) /\
  (forall l, clean str <> l ++ [32]).
Proof. apply clean_shape. Qed.

(** X1.  A string is accepted as a guess for itself exactly when it cleans
    to something: the exact tier is reflexive, and the empty normalization
    is the only way a title rejects its own text. *)
Theorem checkAnswer_reflexive (str : jsstring) :
  checkAnswer (JsString str) (JsString str)
  = Returns (negb (is_nil (clean str))).
Proof.
  unfold checkAnswer. destruct str as [|c str]; simpl.
  - rewrite clean_empty. reflexivity.
  - unfold accept_cleaned.
    destruct (is_nil (clean (c :: str))) eqn:E; simpl; [reflexivity|].
    assert (Heq : str_eqb (clean (c :: str)) (clean (c :: str)) = true)
      by (apply str_eqb_eq; reflexivity).
    rewrite Heq. reflexivity.
Qed.

End CleanShape.

(** ** Titles without ASCII letters or digits *)

Lemma paren_scan_keeps (P : N -> Prop) (s : jsstring) :
  Forall P s ->
  Forall P (fst (paren_scan s)) /\
  (forall rest, snd (paren_scan s) = Some rest -> Forall P rest).
Proof.
  induction 1 as [|c s Hc _ [IH1 IH2]]; simpl.
  - split; [constructor | discriminate].
  - destruct (paren_scan s) as [out close]. simpl in *. split.
    + destruct (c =? 40); [|constructor; assumption].
      destruct close as [rest|]; [apply IH2; reflexivity|].
      constructor; assumption.
    + intros rest H. destruct (c =? 41); [injection H as <-; exact IH1|].
      destruct (is_line_terminator c); [discriminate|]. apply IH2. exact H.
Qed.

Lemma strip_feat_from_keeps (P : N -> Prop) (s : jsstring) (b : bool) :
  Forall P s -> Forall P (strip_feat_from b s).
Proof.
  intros H. revert b. induction H as [|c s Hc _ IH]; intros b.
  - constructor.
  - cbn [strip_feat_from].
    destruct (negb b && feat_here (c :: s)); constructor; auto.
Qed.

Lemma collapse_run_all_space (s : jsstring) :
  Forall (fun c => is_space c = true) s -> collapse_from true s = [].
Proof.
  induction 1 as [|c s Hc _ IH]; simpl; [reflexivity|].
  rewrite Hc. exact IH.
Qed.

Lemma trim_collapse_all_space (s : jsstring) :
  Forall (fun c => is_space c = true) s -> trim (collapse_spaces s) = [].
Proof.
  intros H. unfold collapse_spaces. destruct H as [|c s Hc H]; [reflexivity|].
  simpl. rewrite Hc, (collapse_run_all_space s H). reflexivity.
Qed.

Section WordlessTitles.
Context {U : UnicodeOps}.

(** X3.  A title that has no ASCII letter, digit or underscore left after
    lowercasing and decomposition (a title in Cyrillic, Greek, CJK, ...)
    cleans to the empty string, so no guess is accepted for it, not even
    the title itself. *)
Theorem title_without_word_characters (actual : jsstring) :
  forallb (fun c => negb (is_word c)) (normalizeNFD (toLowerCase actual))
  = true ->
  clean actual = [] /\
  forall guess : jsstring,
    checkAnswer (JsString guess) (JsString actual) = Returns false.
Proof.
  intros Hnone.
  assert (Hclean : clean actual = []).
  { unfold clean.
    set (t := normalizeNFD (toLowerCase actual)) in *.
    assert (H0 : Forall (fun c => is_word c = false) t).
    { apply Forall_forall. intros c Hc.
      rewrite forallb_forall in Hnone. apply list_elem_of_In in Hc.
      apply Hnone in Hc. apply negb_true_iff. exact Hc. }
    assert (H1 : Forall (fun c => is_word c = false) (strip_marks t)).
    { unfold strip_marks. apply Forall_forall. intros c Hc.
      apply list_elem_of_In, List.filter_In in Hc as [Hc _].
      rewrite Forall_forall in H0. apply H0, list_elem_of_In, Hc. }
    assert (H2 : Forall (fun c => is_word c = false)
                   (strip_parens (strip_marks t)))
      by (apply paren_scan_keeps; exact H1).
    assert (H3 : Forall (fun c => is_word c = false)
                   (strip_feat (strip_parens (strip_marks t))))
      by (apply strip_feat_from_keeps; exact H2).
    apply trim_collapse_all_space.
    unfold blank_specials. apply Forall_map.
    eapply Forall_impl; [exact H3|].
    intros c Hc. simpl. rewrite Hc. simpl.
    destruct (is_space c) eqn:E; [exact E | reflexivity]. }
  split; [exact Hclean|].
  intros guess. unfold checkAnswer.
  destruct (negb (truthy (JsString guess)) || negb (truthy (JsString actual)));
    [reflexivity|].
  simpl. rewrite Hclean. unfold accept_cleaned. simpl.
  rewrite orb_true_r. reflexivity.
Qed.

End WordlessTitles.

Lemma title_without_word_characters_witness :
  @checkAnswer ascii_only_ops (JsString [1050; 1080; 1085; 1086])
    (JsString [1050; 1080; 1085; 1086])
  = Returns false.
Proof.
  apply (@title_without_word_characters ascii_only_ops
           [1050; 1080; 1085; 1086]).
  reflexivity.
Defined.

(** ** Guesses that contain the title *)

Lemma set_add_all_grows (l acc : list jsstring) :
  (length acc <= length (set_add_all acc l))%nat.
Proof.
  revert acc. induction l as [|w l IH]; intros acc; simpl; [lia|].
  destruct (mem_str w acc); [apply IH|].
  etransitivity; [|apply IH]. rewrite length_app. simpl. lia.
Qed.

Lemma new_Set_nonempty (w : jsstring) (l : list jsstring) :
  new_Set (w :: l) <> [].
Proof.
  unfold new_Set. simpl. intros H.
  pose proof (set_add_all_grows l [w]) as Hlen. rewrite H in Hlen.
  simpl in Hlen. lia.
Qed.

Lemma split_space_head (c : N) (r : jsstring) :
  c <> 32 -> exists w ws, split_space (c :: r) = (c :: w) :: ws.
Proof.
  intros Hc. simpl. destruct (N.eqb_spec c 32) as [|_]; [contradiction|].
  destruct (split_space r) as [|w ws]; eauto.
Qed.

Lemma finalTokens_nonempty (a : jsstring) :
  a <> [] -> (forall r, a <> 32 :: r) -> finalTokens a <> [].
Proof.
  intros Ha Hhd. unfold finalTokens.
  destruct (0 <? length (getTokens a))%nat eqn:E.
  - apply Nat.ltb_lt in E. intros H. rewrite H in E. simpl in E. lia.
  - destruct a as [|c r]; [congruence|].
    assert (Hc : c <> 32) by (intros ->; apply (Hhd r); reflexivity).
    destruct (split_space_head c r Hc) as (w & ws & Hsplit).
    unfold rawTokens. rewrite Hsplit. simpl. apply new_Set_nonempty.
Qed.

Section TitleInGuess.
Context {U : UnicodeOps}.

(** X4.  Extra words in a guess cost nothing: when both strings clean to
    something and every significant token of the title is among the
    significant tokens of the guess, the guess is accepted, however many
    other words it has. *)
Theorem guess_with_all_title_tokens (guess actual : jsstring) :
  clean guess <> [] -> clean actual <> [] ->
  (forall w, In w (finalTokens (clean actual)) ->
             In w (finalTokens (clean guess))) ->
  checkAnswer (JsString guess) (JsString actual) = Returns true.
Proof.
  intros Hg Ha Hsub.
  assert (Htok : token_overlap (clean guess) (clean actual) = true).
  { apply token_overlap_spec.
    assert (Hne : finalTokens (clean actual) <> []).
    { apply finalTokens_nonempty; [exact Ha|].
      destruct (clean_shape actual) as (_ & _ & H & _). exact H. }
    split.
    - destruct (finalTokens (clean actual)); [congruence | simpl; lia].
    - assert (Hnd : List.NoDup (finalTokens (clean actual))).
      { unfold finalTokens, getTokens, rawTokens, new_Set.
        destruct (0 <? _)%nat; apply set_add_all_NoDup; constructor. }
      assert (Hle : (length (finalTokens (clean actual))
                     <= length (intersection (clean guess) (clean actual)))%nat).
      { apply List.NoDup_incl_length; [exact Hnd|].
        intros w Hw. unfold intersection. apply List.filter_In.
        split; [apply Hsub; exact Hw | apply mem_str_In; exact Hw]. }
      lia. }
  unfold checkAnswer.
  assert (Tg : truthy (JsString guess) = true).
  { destruct guess; [|reflexivity]. rewrite clean_empty in Hg. congruence. }
  assert (Ta : truthy (JsString actual) = true).
  { destruct actual; [|reflexivity]. rewrite clean_empty in Ha. congruence. }
  rewrite Tg, Ta. simpl. unfold accept_cleaned.
  destruct (is_nil (clean guess)) eqn:Eg;
    [apply is_nil_true in Eg; congruence|].
  destruct (is_nil (clean actual)) eqn:Ea;
    [apply is_nil_true in Ea; congruence|].
  simpl. rewrite Htok. destruct (str_eqb _ _); reflexivity.
Qed.

End TitleInGuess.

Lemma guess_with_all_title_tokens_witness :
  @checkAnswer ascii_only_ops
    (JsString (js "Queen - Bohemian Rhapsody (Live Aid)"))
    (JsString (js "Bohemian Rhapsody"))
  = Returns true.
Proof.
  apply (@guess_with_all_title_tokens ascii_only_ops).
  - vm_compute. discriminate.
  - vm_compute. discriminate.
  - vm_compute. intros w [<- | [<- | []]]; auto 10.
Defined.

(** * The Levenshtein table *)

Lemma dp_row_length (ch : N) (s2 : jsstring) (diag : nat) (up : list nat)
    (left : nat) :
  length (dp_row ch s2 diag up left) = Nat.min (length s2) (length up).
Proof.
  revert diag up left. induction s2 as [|c s2 IH]; intros diag up left;
    [reflexivity|].
  destruct up as [|u up]; [reflexivity|]. simpl. rewrite IH. reflexivity.
Qed.

Lemma dp_row_snoc (ch b : N) (t : jsstring) (diag : nat) (up : list nat)
    (x left : nat) :
  length up = length t ->
  dp_row ch (t ++ [b]) diag (up ++ [x]) left
  = dp_row ch t diag up left ++
    [Nat.min (Nat.min (x + 1)
                (List.last (left :: dp_row ch t diag up left) 0%nat + 1))
       (List.last (diag :: up) 0%nat + (if (ch =? b)%N then 0 else 1))%nat].
Proof.
  revert diag up left. induction t as [|c t IH]; intros diag up left Hlen.
  - destruct up; [reflexivity | discriminate].
  - destruct up as [|u up]; [discriminate|].
    injection Hlen as Hlen.
    change (dp_row ch ((c :: t) ++ [b]) diag ((u :: up) ++ [x]) left)
      with (let v := Nat.min (Nat.min (u + 1) (left + 1))
                       (diag + (if (ch =? c)%N then 0 else 1))%nat in
            v :: dp_row ch (t ++ [b]) u (up ++ [x]) v).
    cbv zeta. rewrite (IH _ _ _ Hlen). reflexivity.
Qed.

Lemma dp_rows_length (s t : jsstring) (i : nat) (prev : list nat) :
  length prev = S (length t) ->
  length (dp_rows s t i prev) = S (length t).
Proof.
  revert i prev. induction s as [|ch s IH]; intros i prev Hlen; [exact Hlen|].
  simpl. apply IH. simpl. rewrite dp_row_length.
  destruct prev as [|p prev]; [discriminate|]. simpl in *. lia.
Qed.

Lemma dp_rows_hd (s t : jsstring) (i : nat) (prev : list nat) :
  hd 0%nat prev = i -> hd 0%nat (dp_rows s t i prev) = (i + length s)%nat.
Proof.
  revert i prev. induction s as [|ch s IH]; intros i prev Hhd; simpl.
  - lia.
  - rewrite IH; [lia | reflexivity].
Qed.

Lemma dp_rows_snoc_left (s t : jsstring) (a : N) (i : nat) (prev : list nat) :
  dp_rows (s ++ [a]) t i prev
  = S (i + length s)
    :: dp_row a t (i + length s) (tl (dp_rows s t i prev)) (S (i + length s)).
Proof.
  revert i prev. induction s as [|ch s IH]; intros i prev; simpl.
  - rewrite Nat.add_0_r. reflexivity.
  - rewrite IH. rewrite Nat.add_succ_r. reflexivity.
Qed.

Lemma dp_rows_snoc_right (s t : jsstring) (b : N) (i : nat)
    (prev : list nat) (x : nat) :
  length prev = S (length t) ->
  exists y, dp_rows s (t ++ [b]) i (prev ++ [x]) = dp_rows s t i prev ++ [y].
Proof.
  revert i prev x. induction s as [|ch s IH]; intros i prev x Hlen.
  - exists x. reflexivity.
  - destruct prev as [|p prev]; [discriminate|]. injection Hlen as Hlen.
    simpl. rewrite (dp_row_snoc _ _ _ _ _ _ _ Hlen).
    rewrite app_comm_cons. apply IH. simpl. rewrite dp_row_length. lia.
Qed.

(** the last row of the table for [s] and [t] *)
Lemma last_row_snoc_right (s t : jsstring) (b : N) :
  dp_rows s (t ++ [b]) 0 (seq 0 (S (length (t ++ [b]))))
  = dp_rows s t 0 (seq 0 (S (length t))) ++ [editDistance s (t ++ [b])].
Proof.
  unfold editDistance.
  assert (Hseq : seq 0 (S (length (t ++ [b])))
                 = seq 0 (S (length t)) ++ [S (length t)]).
  { rewrite length_app. simpl length. rewrite Nat.add_1_r.
    replace (S (S (length t))) with (S (length t) + 1)%nat by lia.
    rewrite List.seq_app. reflexivity. }
  rewrite Hseq.
  destruct (dp_rows_snoc_right s t b 0 (seq 0 (S (length t))) (S (length t)))
    as [y Hy]; [apply length_seq|].
  rewrite Hy. rewrite last_last. reflexivity.
Qed.

Lemma editDistance_nil_l (t : jsstring) : editDistance [] t = length t.
Proof.
  unfold editDistance. cbn [dp_rows].
  replace (S (length t)) with (length t + 1)%nat by lia.
  rewrite List.seq_app. cbn [seq Nat.add]. rewrite last_last. reflexivity.
Qed.

Lemma editDistance_nil_r (s : jsstring) : editDistance s [] = length s.
Proof.
  unfold editDistance. cbn [length seq].
  pose proof (dp_rows_length s [] 0 [0%nat] eq_refl) as Hlen.
  pose proof (dp_rows_hd s [] 0 [0%nat] eq_refl) as Hhd.
  destruct (dp_rows s [] 0 [0%nat]) as [|x [|y r]]; try discriminate.
  simpl in *. exact Hhd.
Qed.

Lemma editDistance_snoc (s t : jsstring) (a b : N) :
  editDistance (s ++ [a]) (t ++ [b])
  = Nat.min (Nat.min (editDistance s (t ++ [b]) + 1)
               (editDistance (s ++ [a]) t + 1))
      (editDistance s t + (if (a =? b)%N then 0 else 1))%nat.
Proof.
  set (R := dp_rows s t 0 (seq 0 (S (length t)))).
  assert (HR : exists r, R = length s :: r /\ length r = length t).
  { pose proof (dp_rows_length s t 0 (seq 0 (S (length t)))
                  (length_seq _ _)) as Hlen.
    pose proof (dp_rows_hd s t 0 (seq 0 (S (length t))) eq_refl) as Hhd.
    fold R in Hlen, Hhd. destruct R as [|x r]; [discriminate|].
    simpl in Hhd. subst x. exists r. split; [reflexivity|].
    simpl in Hlen. lia. }
  destruct HR as (r & HR & Hr).
  assert (Est : editDistance s t = List.last (length s :: r) 0%nat).
  { unfold editDistance. fold R. rewrite HR. reflexivity. }
  assert (Esat : editDistance (s ++ [a]) t
                 = List.last (S (length s)
                              :: dp_row a t (length s) r (S (length s))) 0%nat).
  { unfold editDistance. rewrite dp_rows_snoc_left. fold R. rewrite HR.
    reflexivity. }
  unfold editDistance at 1. rewrite dp_rows_snoc_left.
  rewrite last_row_snoc_right. fold R. rewrite HR.
  change (tl ((length s :: r) ++ [editDistance s (t ++ [b])]))
    with (r ++ [editDistance s (t ++ [b])]).
  change (0 + length s)%nat with (length s).
  rewrite (dp_row_snoc _ _ _ _ _ _ _ Hr).
  rewrite app_comm_cons, last_last.
  rewrite <- Esat, <- Est. reflexivity.
Qed.

(** X5.  The number the table ends with obeys the Levenshtein recurrence on
    prefixes: against the empty string it is the other string's length, and
    for two strings extended by one character each it is the least of a
    deletion, an insertion and a substitution that is free when the two
    characters are equal. *)
Theorem editDistance_recurrence :
  (forall t, editDistance [] t = length t) /\
  (forall s, editDistance s [] = length s) /\
  (forall s t a b,
     editDistance (s ++ [a]) (t ++ [b])
     = Nat.min (Nat.min (editDistance s (t ++ [b]) + 1)
                  (editDistance (s ++ [a]) t + 1))
         (editDistance s t + (if (a =? b)%N then 0 else 1))%nat).
Proof.
  split; [exact editDistance_nil_l|].
  split; [exact editDistance_nil_r | exact editDistance_snoc].
Qed.

Lemma abs_diff_spec (n m : nat) :
  abs_diff n m = (n - m + (m - n))%nat.
Proof. unfold abs_diff. lia. Qed.

Lemma editDistance_range (s t : jsstring) :
  (abs_diff (length s) (length t) <= editDistance s t
   <= Nat.max (length s) (length t))%nat.
Proof.
  rewrite abs_diff_spec. revert t.
  induction s as [|a s IHs] using rev_ind; intros t.
  - rewrite editDistance_nil_l. simpl. lia.
  - induction t as [|b t IHt] using rev_ind.
    + rewrite editDistance_nil_r. simpl. lia.
    + rewrite editDistance_snoc.
      pose proof (IHs t) as H1. pose proof (IHs (t ++ [b])) as H2.
      rewrite !length_app in *. simpl length in *.
      destruct (a =? b); lia.
Qed.

(** X6.  The distance lies between the difference of the two lengths and
    the longer length. *)
Theorem editDistance_bounds (s t : jsstring) :
  (abs_diff (length s) (length t) <= editDistance s t)%nat /\
  (editDistance s t <= Nat.max (length s) (length t))%nat.
Proof. pose proof (editDistance_range s t). lia. Qed.

Lemma editDistance_comm (s t : jsstring) :
  editDistance s t = editDistance t s.
Proof.
  revert t. induction s as [|a s IHs] using rev_ind; intros t.
  - rewrite editDistance_nil_l, editDistance_nil_r. reflexivity.
  - induction t as [|b t IHt] using rev_ind.
    + rewrite editDistance_nil_l, editDistance_nil_r. reflexivity.
    + rewrite !editDistance_snoc. rewrite IHt, (IHs t), (IHs (t ++ [b])).
      rewrite (N.eqb_sym b a). lia.
Qed.

Lemma editDistance_same (s : jsstring) : editDistance s s = 0%nat.
Proof.
  induction s as [|a s IH] using rev_ind.
  - apply editDistance_nil_l.
  - rewrite editDistance_snoc, IH, N.eqb_refl. lia.
Qed.

Lemma editDistance_zero (s t : jsstring) :
  editDistance s t = 0%nat -> s = t.
Proof.
  revert t. induction s as [|a s IHs] using rev_ind; intros t H.
  - rewrite editDistance_nil_l in H. destruct t; [reflexivity | discriminate].
  - destruct t as [|b t _] using rev_ind.
    + rewrite editDistance_nil_r, length_app in H. simpl in H. lia.
    + rewrite editDistance_snoc in H.
      destruct (N.eqb_spec a b) as [->|Hab]; [|lia].
      rewrite (IHs t); [reflexivity | lia].
Qed.

(** X7.  The distance is symmetric, and it is 0 exactly for equal
    strings. *)
Theorem editDistance_symmetric_and_definite (s t : jsstring) :
  editDistance s t = editDistance t s /\
  (editDistance s t = 0%nat <-> s = t).
Proof.
  split; [apply editDistance_comm|].
  split; [apply editDistance_zero | intros ->; apply editDistance_same].
Qed.

Lemma ratio_more_than (a b : positive) (n m : nat) :
  (0 < m)%nat ->
  Qlt_bool (Zpos a # b) (ratio n m) = true
  <-> (Pos.to_nat a * m < Pos.to_nat b * n)%nat.
Proof.
  intros Hm. unfold Qlt_bool. rewrite negb_true_iff.
  rewrite <- not_true_iff_false, Qle_bool_iff.
  destruct m as [|m]; [lia|].
  unfold ratio, Qle, Qdiv, Qmult, Qinv, inject_Z. simpl.
  rewrite Pos.mul_1_l, Z.mul_1_r.
  rewrite <- (positive_nat_Z a), <- (positive_nat_Z b).
  rewrite <- (positive_nat_Z (Pos.of_succ_nat m)), SuccNat2Pos.id_succ.
  rewrite <- !Nat2Z.inj_mul, <- Nat2Z.inj_le. lia.
Qed.

Lemma one_minus_ratio_at_least (n m : nat) :
  (0 < m)%nat ->
  Qle_bool (75 # 100) (1 - ratio n m) = true <-> (4 * n <= m)%nat.
Proof.
  intros Hm. rewrite Qle_bool_iff.
  destruct m as [|m]; [lia|].
  unfold ratio, Qle, Qminus, Qplus, Qopp, Qdiv, Qmult, Qinv, inject_Z. simpl.
  rewrite <- (positive_nat_Z (Pos.of_succ_nat m)) at 1.
  rewrite SuccNat2Pos.id_succ.
  assert (Hden : Z.pos (1 * Pos.of_succ_nat m) = Z.of_nat (S m)) by lia.
  rewrite ?Hden. lia.
Qed.

Lemma similarity_accepts (s1 s2 : jsstring) :
  s1 <> [] -> s2 <> [] ->
  Qle_bool (75 # 100) (similarity s1 s2) = true
  <-> (4 * editDistance s1 s2 <= Nat.max (length s1) (length s2))%nat.
Proof.
  intros H1 H2. unfold similarity.
  assert (L1 : (0 < length s1)%nat) by (destruct s1; [congruence | simpl; lia]).
  assert (L2 : (0 < length s2)%nat) by (destruct s2; [congruence | simpl; lia]).
  destruct (Nat.eqb_spec (length s1) 0) as [E|_]; [lia|].
  destruct (Nat.eqb_spec (length s2) 0) as [E|_]; [lia|].
  cbv zeta. simpl orb. cbv iota.
  pose proof (editDistance_range s1 s2) as [Hlo _].
  destruct (Qlt_bool (3 # 10) _) eqn:Ecut.
  - apply (ratio_more_than 3 10) in Ecut; [|lia].
    split; [discriminate|]. intros Hle. exfalso. simpl Pos.to_nat in Ecut. lia.
  - apply one_minus_ratio_at_least. lia.
Qed.

(** X8.  The fuzzy tier accepts two non-empty strings exactly when four
    times their edit distance is at most the longer length.  The early
    return on a length difference above 30 % never changes this outcome. *)
Theorem similarity_threshold (s1 s2 : jsstring) :
  s1 <> [] -> s2 <> [] ->
  Qle_bool (75 # 100) (similarity s1 s2) = true
  <-> (4 * editDistance s1 s2 <= Nat.max (length s1) (length s2))%nat.
Proof. apply similarity_accepts. Qed.

Lemma similarity_threshold_witness :
  Qle_bool (75 # 100) (similarity (js "sonf") (js "song")) = true
  <-> (4 * editDistance (js "sonf") (js "song")
       <= Nat.max (length (js "sonf")) (length (js "song")))%nat.
Proof.
  apply (similarity_threshold (js "sonf") (js "song")); vm_compute; discriminate.
Defined.

(** ** One typing error *)

Lemma editDistance_suffix (x y l : jsstring) :
  (editDistance (x ++ l) (y ++ l) <= editDistance x y)%nat.
Proof.
  induction l as [|c l IH] using rev_ind.
  - rewrite !app_nil_r. lia.
  - rewrite !app_assoc, editDistance_snoc, N.eqb_refl. lia.
Qed.

Lemma editDistance_snoc_right (s t : jsstring) (b : N) :
  (editDistance s (t ++ [b]) <= editDistance s t + 1)%nat.
Proof.
  destruct s as [|a s _] using rev_ind.
  - rewrite !editDistance_nil_l, length_app. simpl. lia.
  - rewrite editDistance_snoc. lia.
Qed.

Lemma one_edit_distance (s t : jsstring) :
  one_edit s t -> (editDistance s t <= 1)%nat.
Proof.
  intros [l1 c d l2 | l1 c l2 | l1 c l2].
  - change (l1 ++ c :: l2) with (l1 ++ [c] ++ l2).
    change (l1 ++ d :: l2) with (l1 ++ [d] ++ l2).
    rewrite !app_assoc.
    etransitivity; [apply editDistance_suffix|].
    rewrite editDistance_snoc, editDistance_same.
    destruct (c =? d)%N; lia.
  - change (l1 ++ c :: l2) with (l1 ++ [c] ++ l2). rewrite app_assoc.
    etransitivity; [apply editDistance_suffix|].
    etransitivity; [apply editDistance_snoc_right|].
    rewrite editDistance_same. lia.
  - change (l1 ++ c :: l2) with (l1 ++ [c] ++ l2). rewrite app_assoc.
    etransitivity; [apply editDistance_suffix|].
    rewrite editDistance_comm.
    etransitivity; [apply editDistance_snoc_right|].
    rewrite editDistance_same. lia.
Qed.

Lemma one_edit_lengths (s t : jsstring) :
  one_edit s t ->
  (length s <= length t + 1 /\ length t <= length s + 1)%nat.
Proof.
  intros [l1 c d l2 | l1 c l2 | l1 c l2];
    rewrite !length_app; simpl; lia.
Qed.

Section OneTypo.
Context {U : UnicodeOps}.

(** X9.  One typing error is forgiven from four characters on: when the
    cleaned guess and the cleaned title differ by one replaced, missing or
    extra character and the longer of the two has at least 4 characters,
    the guess is accepted. *)
Theorem one_typo_accepted (guess actual : jsstring) :
  one_edit (clean guess) (clean actual) ->
  (4 <= Nat.max (length (clean guess)) (length (clean actual)))%nat ->
  checkAnswer (JsString guess) (JsString actual) = Returns true.
Proof.
  intros Hedit Hlong.
  pose proof (one_edit_distance _ _ Hedit) as Hd.
  pose proof (one_edit_lengths _ _ Hedit) as [Hl1 Hl2].
  assert (Hg : clean guess <> []).
  { intros E. rewrite E in *. simpl in *. lia. }
  assert (Ha : clean actual <> []).
  { intros E. rewrite E in *. simpl in *. lia. }
  assert (Tg : truthy (JsString guess) = true).
  { destruct guess; [|reflexivity]. rewrite clean_empty in Hg. congruence. }
  assert (Ta : truthy (JsString actual) = true).
  { destruct actual; [|reflexivity]. rewrite clean_empty in Ha. congruence. }
  unfold checkAnswer. rewrite Tg, Ta. simpl. unfold accept_cleaned.
  destruct (is_nil (clean guess)) eqn:Eg;
    [apply is_nil_true in Eg; congruence|].
  destruct (is_nil (clean actual)) eqn:Ea;
    [apply is_nil_true in Ea; congruence|].
  simpl. destruct (str_eqb _ _); [reflexivity|].
  destruct (token_overlap _ _); [reflexivity|].
  f_equal. apply similarity_accepts; [assumption | assumption | lia].
Qed.

End OneTypo.

Lemma one_typo_accepted_witness :
  @checkAnswer ascii_only_ops (JsString (js "Sonf")) (JsString (js "Song"))
  = Returns true.
Proof.
  apply (@one_typo_accepted ascii_only_ops).
  - replace (@clean ascii_only_ops (js "Sonf")) with (js "son" ++ [102])
      by (vm_compute; reflexivity).
    replace (@clean ascii_only_ops (js "Song")) with (js "son" ++ [103])
      by (vm_compute; reflexivity).
    apply edit_replace.
  - vm_compute. lia.
Defined.

(** * The language heuristic *)

Lemma count_word_scores (words : list jsstring) (sc : Scores) :
  let sc' := fold_left count_word words sc in
  sc_it sc' = (sc_it sc
               + length (List.filter (fun w => mem_str w itHints) words))%nat /\
  sc_en sc' = (sc_en sc
               + length (List.filter (fun w => mem_str w enHints) words))%nat /\
  sc_es sc' = (sc_es sc
               + length (List.filter (fun w => mem_str w esHints) words))%nat.
Proof.
  revert sc. induction words as [|w words IH]; intros sc;
    cbn [fold_left List.filter].
  - cbn [length]. lia.
  - destruct (IH (count_word sc w)) as (H1 & H2 & H3).
    rewrite H1, H2, H3. unfold count_word, add_it, add_es, add_en.
    destruct (mem_str w itHints), (mem_str w esHints), (mem_str w enHints);
      cbn [sc_it sc_en sc_es length]; lia.
Qed.

Lemma filter_none {A : Type} (f : A -> bool) (l : list A) :
  length (List.filter f l) = 0%nat <-> Forall (fun x => f x = false) l.
Proof.
  induction l as [|x l IH]; simpl.
  - split; [constructor | reflexivity].
  - destruct (f x) eqn:E; simpl.
    + split; [discriminate|]. intros H. inversion H; congruence.
    + rewrite IH. split; [constructor; assumption|].
      intros H. inversion H; assumption.
Qed.

Lemma sort_three (i e s : nat) :
  sort_entries [(IT, i); (EN, e); (ES, s)]
  = if ((e <=? i) && (s <=? i))%nat
    then (IT, i) :: (if (s <=? e)%nat then [(EN, e); (ES, s)]
                     else [(ES, s); (EN, e)])
    else if (s <=? e)%nat
         then (EN, e) :: (if (s <=? i)%nat then [(IT, i); (ES, s)]
                          else [(ES, s); (IT, i)])
         else (ES, s) :: (if (e <=? i)%nat then [(IT, i); (EN, e)]
                          else [(EN, e); (IT, i)]).
Proof.
  unfold sort_entries. simpl.
  destruct (Nat.leb_spec s e), (Nat.leb_spec e i), (Nat.leb_spec s i);
    simpl; try reflexivity; try lia;
    repeat match goal with
           | |- context [(?a <=? ?b)%nat] =>
               destruct (Nat.leb_spec a b); simpl; try lia
           end; reflexivity.
Qed.

Section LanguageFacts.
Context {U : UnicodeOps}.

Lemma language_scores_empty :
  language_scores (toLowerCase []) = {| sc_it := 0; sc_en := 0; sc_es := 0 |}.
Proof. rewrite toLowerCase_ascii by reflexivity. reflexivity. Qed.

(** X10.  The language returned is the one that the comparison of the
    three scores picks: none when all three are 0, otherwise the highest
    score, a tie going to Italian before English before Spanish. *)
Theorem detectLanguage_picks_highest (text : jsstring) :
  let sc := language_scores (toLowerCase text) in
  detectLanguage text
  = if ((sc_it sc =? 0) && (sc_en sc =? 0) && (sc_es sc =? 0))%nat then None
    else if ((sc_en sc <=? sc_it sc) && (sc_es sc <=? sc_it sc))%nat
         then Some IT
         else if (sc_es sc <=? sc_en sc)%nat then Some EN else Some ES.
Proof.
  cbv zeta. unfold detectLanguage.
  destruct text as [|c text]; cbn [is_nil].
  - rewrite language_scores_empty. reflexivity.
  - cbv zeta. rewrite sort_three.
    destruct (language_scores (toLowerCase (c :: text))) as [i e s].
    cbn [sc_it sc_en sc_es].
    destruct (Nat.leb_spec e i), (Nat.leb_spec s i), (Nat.leb_spec s e);
      cbn [andb];
      destruct i, e, s; simpl; try reflexivity; lia.
Qed.

(** X11.  No language is reported exactly for a text that, in lower case,
    has none of the hint words among its white-space separated words and
    none of the accented letters of the two accent tests. *)
Theorem detectLanguage_null_iff (text : jsstring) :
  detectLanguage text = None
  <-> Forall (fun w => mem_str w (itHints ++ esHints ++ enHints) = false)
        (words_of (toLowerCase text)) /\
      existsb (fun c => it_accent c || es_accent c) (toLowerCase text) = false.
Proof.
  assert (Hmem : forall w l1 l2,
             mem_str w (l1 ++ l2) = mem_str w l1 || mem_str w l2).
  { intros w l1 l2. induction l1 as [|v l1 IH]; simpl; [reflexivity|].
    rewrite IH, orb_assoc. reflexivity. }
  assert (Hex : forall (f g : N -> bool) l,
             existsb (fun c => f c || g c) l = existsb f l || existsb g l).
  { intros f g l. induction l as [|c l IH]; simpl; [reflexivity|].
    rewrite IH. destruct (f c), (g c), (existsb f l), (existsb g l);
      reflexivity. }
  set (s := toLowerCase text).
  assert (Hzero : (sc_it (language_scores s) = 0 /\
                   sc_en (language_scores s) = 0 /\
                   sc_es (language_scores s) = 0)%nat
                  <-> Forall (fun w => mem_str w (itHints ++ esHints ++ enHints)
                                       = false) (words_of s) /\
                      existsb (fun c => it_accent c || es_accent c) s = false).
  { unfold language_scores.
    destruct (count_word_scores (words_of s)
                {| sc_it := 0; sc_en := 0; sc_es := 0 |}) as (H1 & H2 & H3).
    cbv zeta in H1, H2, H3. cbn [sc_it sc_en sc_es] in H1, H2, H3.
    rewrite Hex, orb_false_iff.
    set (by_words := fold_left count_word (words_of s) _) in *.
    assert (Hall : Forall (fun w => mem_str w (itHints ++ esHints ++ enHints)
                                    = false) (words_of s)
                   <-> (sc_it by_words = 0 /\ sc_en by_words = 0 /\
                        sc_es by_words = 0)%nat).
    { rewrite H1, H2, H3. cbn [Nat.add]. rewrite !filter_none.
      rewrite !List.Forall_forall. split.
      - intros H. repeat split; intros w Hw; specialize (H w Hw);
          rewrite !Hmem, !orb_false_iff in H; tauto.
      - intros (Hi & He & Hs) w Hw. rewrite !Hmem, !orb_false_iff.
        auto. }
    rewrite Hall. unfold add_it, add_es.
    destruct (existsb it_accent s), (existsb es_accent s), by_words as [i e z];
      cbn [sc_it sc_en sc_es]; split; intros H;
      repeat match goal with Hc : _ /\ _ |- _ => destruct Hc end;
      try discriminate; try lia; repeat split; try reflexivity; try lia. }
  rewrite <- Hzero. subst s. clear Hzero. unfold detectLanguage.
  destruct text as [|c text]; cbn [is_nil].
  - rewrite language_scores_empty. simpl. tauto.
  - cbv zeta. rewrite sort_three.
    destruct (language_scores (toLowerCase (c :: text))) as [i e z].
    cbn [sc_it sc_en sc_es].
    destruct (Nat.leb_spec e i), (Nat.leb_spec z i), (Nat.leb_spec z e);
      cbn [andb];
      destruct i, e, z; simpl; split; intros Hx;
      repeat match goal with Hc : _ /\ _ |- _ => destruct Hc end;
      try discriminate; try lia; try reflexivity; auto.
Qed.

End LanguageFacts.

(** * Further properties of the room engine *)

(** ** Rooms do not disturb each other *)

Lemma about_other rid k (effs : list Effect) :
  rid <> k -> Forall (about rid) effs ->
  Forall (fun e => ~ reaches k e) effs /\ no_timer_of k (armed effs).
Proof.
  intros Hne Hall. unfold no_timer_of.
  induction Hall as [|e effs He _ [IH1 IH2]]; [split; constructor|].
  split.
  - constructor; [|exact IH1].
    destruct e as [[x|x] m|cb ms|x st n|x ps]; simpl in *;
      try congruence; try tauto.
    destruct He as [He | He]; congruence.
  - destruct e as [to m|cb ms|x st n|x ps]; simpl; try exact IH2.
    constructor; [|exact IH2]. simpl in *. destruct He as [He | He]; congruence.
Qed.

Section Bystander.
Context {U : UnicodeOps}.

Lemma step_bystander k (s : Server) ev :
  event_room ev <> Some k -> no_timer_of k (pending s) ->
  rooms (fst (step s ev)) !! k = rooms s !! k /\
  Forall (fun e => ~ reaches k e) (snd (step s ev)) /\
  no_timer_of k (pending (fst (step s ev))).
Proof.
  intros Hev Hpend.
  assert (Hframe : forall (m : M unit) rid rest,
             rid <> k -> local rid m -> no_timer_of k rest ->
             let o := m (rooms s) in
             out_rooms o !! k = rooms s !! k /\
             Forall (fun e => ~ reaches k e) (out_effects o) /\
             no_timer_of k (rest ++ armed (out_effects o))).
  { intros m rid rest Hne Hloc Hrest. cbv zeta.
    destruct (Hloc (rooms s)) as [Hsame Habout].
    destruct (about_other rid k _ Hne Habout) as [H1 H2].
    split; [apply Hsame; congruence|]. split; [exact H1|].
    apply Forall_app. split; assumption. }
  destruct ev as [sid x n u|sid x n|x n res|sid x g|i].
  1-4: (apply (Hframe _ x); [simpl in Hev; congruence
                            | apply local_handle; reflexivity
                            | exact Hpend]).
  cbn [step]. destruct (pending s !! i) as [t|] eqn:Ht; cbn [fst snd rooms pending];
    [|split; [reflexivity|]; split; [constructor | exact Hpend]].
  assert (Ht' : cb_room (timer_cb t) <> Some k).
  { unfold no_timer_of in Hpend. rewrite List.Forall_forall in Hpend.
    apply Hpend. apply list_elem_of_In. eapply list_elem_of_lookup_2. exact Ht. }
  assert (Hrest : no_timer_of k (delete i (pending s)))
    by (apply Forall_delete; exact Hpend).
  destruct (cb_room (timer_cb t)) as [rid|] eqn:Hcb.
  - apply (Hframe _ rid); [congruence | apply local_run_callback; exact Hcb
                          | exact Hrest].
  - destruct (timer_cb t); simpl in Hcb; try discriminate.
    cbn [run_callback ret out_rooms out_effects armed omap list_omap].
    rewrite app_nil_r. split; [reflexivity|]. split; [constructor | exact Hrest].
Qed.

(** X12.  A room that no event is addressed to and that has no timer
    pending is left alone by the traffic of the other rooms: over any run
    its entry in the table does not change, nothing is broadcast to it, no
    timer is armed and no database call is made for it. *)
Theorem bystander_room_untouched k (s : Server) (evs : list Event) :
  Forall (fun ev => event_room ev <> Some k) evs ->
  no_timer_of k (pending s) ->
  rooms (fst (run s evs)) !! k = rooms s !! k /\
  Forall (fun e => ~ reaches k e) (snd (run s evs)) /\
  no_timer_of k (pending (fst (run s evs))).
Proof.
  intros Hevs. revert s. induction Hevs as [|ev evs Hev _ IH]; intros s Hp.
  - simpl. split; [reflexivity|]. split; [constructor | exact Hp].
  - rewrite run_cons. cbn [fst snd].
    destruct (step_bystander k s ev Hev Hp) as (H1 & H2 & H3).
    destruct (IH _ H3) as (I1 & I2 & I3).
    split; [rewrite I1; exact H1|]. split; [|exact I3].
    apply Forall_app. split; assumption.
Qed.

End Bystander.

(** ** Nothing is taken away *)

Lemma extends_app (ps l : list Player) : extends ps (ps ++ l).
Proof.
  induction ps as [|p ps IH]; simpl; constructor; auto.
Qed.

Lemma extends_refl (ps : list Player) : extends ps ps.
Proof. rewrite <- (app_nil_r ps) at 2. apply extends_app. Qed.

Lemma extends_trans (l1 l2 l3 : list Player) :
  extends l1 l2 -> extends l2 l3 -> extends l1 l3.
Proof.
  intros H12. revert l3. induction H12 as [|p p' ps ps' H1 H2 H3 H4 _ IH];
    intros l3 H23; [constructor|].
  inversion H23 as [|q q' qs qs' G1 G2 G3 G4 G5]; subst.
  constructor; try congruence; [lia | apply IH; assumption].
Qed.

Lemma extends_award sid (ps : list Player) : extends ps (award sid ps).
Proof.
  induction ps as [|p ps IH]; simpl; [constructor|].
  destruct (String.eqb (p_id p) sid); constructor; simpl; auto.
  apply extends_refl.
Qed.

Lemma outlasts_refl (r : Room) : outlasts r r.
Proof. repeat split. apply extends_refl. Qed.

Lemma outlasts_trans (r1 r2 r3 : Room) :
  outlasts r1 r2 -> outlasts r2 r3 -> outlasts r1 r3.
Proof.
  intros (A1 & A2 & A3) (B1 & B2 & B3).
  repeat split; try congruence. eapply extends_trans; eassumption.
Qed.

Ltac show_outlasts :=
  eexists; (split; [reflexivity|]); unfold outlasts; simpl;
  repeat split;
  auto using extends_refl, extends_award, extends_app.

Section NothingLost.
Context {U : UnicodeOps}.

Lemma own_handle_outlasts roomId ev (tbl : gmap string Room) r :
  event_room ev = Some roomId -> tbl !! roomId = Some r ->
  exists r', out_rooms (handle ev tbl) !! roomId = Some r' /\ outlasts r r'.
Proof.
  intros Hev Hr.
  destruct ev as [sid x n u|sid x n|x n res|sid x g|i]; simpl in Hev;
    try discriminate; injection Hev as ->; cbn [handle].
  - unfold join_room, bind, get_room, update_room, emit, perform. simpl.
    rewrite Hr. destruct (is_lobby (state r)); simpl;
      rewrite ?lookup_alter_eq, Hr; simpl; show_outlasts.
  - unfold start_game, bind, get_room, update_room, emit, setTimeout,
      perform, ret. simpl. rewrite Hr.
    destruct (length (players r) =? 0)%nat; simpl;
      rewrite ?lookup_alter_eq, Hr; simpl; show_outlasts.
  - unfold start_game_resume.
    destruct (final_playlist n res) as [message|playlist];
      unfold bind, get_room, update_room, emit, setTimeout, perform, ret;
      simpl; rewrite ?lookup_alter_eq, Hr; simpl.
    + show_outlasts.
    + destruct (truthy (hostId r)); simpl;
        rewrite ?lookup_alter_eq, Hr; simpl; show_outlasts.
  - unfold submit_guess, currentSong_title, bind, get_room, update_room,
      emit, setTimeout, perform, ret, throw, lift. simpl. rewrite Hr.
    split_cases; rewrite ?lookup_alter_eq, Hr; simpl; show_outlasts.
Qed.

Lemma own_callback_outlasts roomId cb (tbl : gmap string Room) r :
  cb_room cb = Some roomId -> tbl !! roomId = Some r ->
  exists r', out_rooms (run_callback cb tbl) !! roomId = Some r' /\
             outlasts r r'.
Proof.
  intros Hcb Hr.
  assert (Hend : exists r', out_rooms (endGameInternal roomId tbl) !! roomId
                            = Some r' /\ outlasts r r').
  { unfold endGameInternal, bind, get_room, update_room, emit, perform, ret.
    simpl. rewrite Hr. simpl. destruct (truthy (hostId r)); simpl;
      rewrite ?lookup_alter_eq, Hr; simpl; show_outlasts. }
  assert (Hstart : exists r', out_rooms (startRound roomId tbl) !! roomId
                              = Some r' /\ outlasts r r').
  { unfold startRound, bind, get_room.
    cbn [out_result out_rooms out_effects app]. rewrite Hr.
    destruct (totalRounds r <=? currentRound r)%nat; [exact Hend|].
    simpl. rewrite Hr. show_outlasts. }
  destruct cb as [|x|x|x|x song]; simpl in Hcb; try discriminate;
    injection Hcb as ->; cbn [run_callback].
  - exact Hstart.
  - unfold winner_pause_elapsed, bind, get_room.
    cbn [out_result out_rooms out_effects app]. rewrite Hr.
    destruct (currentRound r <? totalRounds r)%nat; assumption.
  - unfold countdown_elapsed, bind, get_room, update_room, emit, setTimeout,
      perform, throw. simpl. rewrite Hr. simpl.
    destruct (songs r !! currentRound r); simpl;
      rewrite ?lookup_alter_eq, Hr; simpl; show_outlasts.
  - unfold timeout_elapsed, bind, get_room, update_room, emit, setTimeout,
      perform, ret. simpl. rewrite Hr.
    destruct (roundActive r && current_is song r); simpl;
      rewrite ?lookup_alter_eq, Hr; simpl; show_outlasts.
Qed.

Lemma step_outlasts k (s : Server) ev r :
  rooms s !! k = Some r ->
  exists r', rooms (fst (step s ev)) !! k = Some r' /\ outlasts r r'.
Proof.
  intros Hr.
  assert (Hsame : forall tbl' : gmap string Room,
             tbl' !! k = rooms s !! k ->
             exists r', tbl' !! k = Some r' /\ outlasts r r').
  { intros tbl' E. exists r. rewrite E. split; [exact Hr | apply outlasts_refl]. }
  assert (Hevent : forall ev' rid,
             event_room ev' = Some rid ->
             exists r', out_rooms (handle ev' (rooms s)) !! k = Some r' /\
                        outlasts r r').
  { intros ev' rid Hroom. destruct (decide (rid = k)) as [->|Hne].
    - apply own_handle_outlasts; assumption.
    - apply Hsame. apply (local_handle ev' rid Hroom (rooms s)). congruence. }
  destruct ev as [sid x n u|sid x n|x n res|sid x g|i].
  1-4: (eapply Hevent; reflexivity).
  cbn [step]. destruct (pending s !! i) as [t|]; cbn [fst rooms];
    [|apply Hsame; reflexivity].
  destruct (cb_room (timer_cb t)) as [rid|] eqn:Hcb.
  - destruct (decide (rid = k)) as [->|Hne].
    + apply own_callback_outlasts; assumption.
    + apply Hsame.
      apply (local_run_callback (timer_cb t) rid Hcb (rooms s)). congruence.
  - destruct (timer_cb t); simpl in Hcb; try discriminate.
    apply Hsame. reflexivity.
Qed.

(** X13.  Nothing is taken away by any run of join, start, playlist,
    guess and timer events: a room of the table is still there afterwards
    with its id and host, and every player it had is still at its place in
    [players], with the same id, name and user id and a score that is not
    lower.  The end of a game removes neither a player nor the room. *)
Theorem nothing_is_taken_away k (s : Server) (evs : list Event) r :
  rooms s !! k = Some r ->
  exists r', rooms (fst (run s evs)) !! k = Some r' /\ outlasts r r'.
Proof.
  revert s r. induction evs as [|ev evs IH]; intros s r Hr.
  - exists r. split; [exact Hr | apply outlasts_refl].
  - rewrite run_cons. cbn [fst].
    destruct (step_outlasts k s ev r Hr) as (r1 & Hr1 & H1).
    destruct (IH _ r1 Hr1) as (r2 & Hr2 & H2).
    exists r2. split; [exact Hr2 | eapply outlasts_trans; eassumption].
Qed.

End NothingLost.

Lemma nothing_is_taken_away_witness :
  exists r',
    rooms (fst (@run ascii_only_ops Demo.server
                  [SubmitGuess "sock-bob" "AB12C" (JsString (js "wonderwall"));
                   TimerFires 0])) !! "AB12C"%string = Some r' /\
    outlasts Demo.room r'.
Proof.
  apply (@nothing_is_taken_away ascii_only_ops). reflexivity.
Defined.

(** ** A game stays within its playlist *)

Ltac show_counters :=
  eexists; (split; [reflexivity|]);
  (split; [unfold same_counters; simpl; auto|]);
  simpl; repeat constructor; simpl; try discriminate; try congruence.

Lemma other_room_no_countdown rid roomId (effs : list Effect) :
  rid <> roomId -> Forall (about rid) effs ->
  Forall (fun t => timer_cb t <> RoundBegin roomId) (armed effs).
Proof.
  intros Hne Hall. destruct (about_other rid roomId effs Hne Hall) as [_ H].
  eapply Forall_impl; [exact H|]. intros t Ht E. apply Ht. rewrite E.
  reflexivity.
Qed.

Lemma no_drivers_no_countdown roomId (l : list Timer) :
  drivers roomId l = [] ->
  Forall (fun t => timer_cb t <> RoundBegin roomId) l.
Proof.
  intros H. apply no_drivers_inert in H.
  eapply Forall_impl; [exact H|]. intros t Ht E. unfold inert_for in Ht.
  rewrite E in Ht. congruence.
Qed.

Lemma countdown_or_not roomId (cb : Callback) :
  cb_room cb = Some roomId ->
  cb = RoundBegin roomId \/ cb <> RoundBegin roomId.
Proof.
  destruct cb; simpl; intros H; try (right; discriminate).
  left. congruence.
Qed.

Section OnTrack.
Context {U : UnicodeOps}.

Lemma own_handle_counters roomId ev (tbl : gmap string Room) r :
  event_room ev = Some roomId -> no_restart roomId ev ->
  tbl !! roomId = Some r ->
  exists r', out_rooms (handle ev tbl) !! roomId = Some r' /\
    same_counters r r' /\
    Forall (fun t => timer_cb t <> RoundBegin roomId)
      (armed (out_effects (handle ev tbl))).
Proof.
  intros Hev Hno Hr.
  destruct ev as [sid x n u|sid x n|x n res|sid x g|i]; simpl in Hev;
    try discriminate; injection Hev as ->; cbn [handle].
  - unfold join_room, bind, get_room, update_room, emit, perform. simpl.
    rewrite Hr. destruct (is_lobby (state r)); simpl;
      rewrite ?lookup_alter_eq, Hr; simpl; show_counters.
  - unfold start_game, bind, get_room, update_room, emit, setTimeout,
      perform, ret. simpl. rewrite Hr.
    destruct (length (players r) =? 0)%nat; simpl;
      rewrite ?lookup_alter_eq, Hr; simpl; show_counters.
  - simpl in Hno. congruence.
  - unfold submit_guess, currentSong_title, bind, get_room, update_room,
      emit, setTimeout, perform, ret, throw, lift. simpl. rewrite Hr.
    split_cases; rewrite ?lookup_alter_eq, Hr; simpl; show_counters.
Qed.

Lemma endGameInternal_counters roomId (tbl : gmap string Room) r :
  tbl !! roomId = Some r ->
  exists r', out_rooms (endGameInternal roomId tbl) !! roomId = Some r' /\
    same_counters r r' /\
    out_result (endGameInternal roomId tbl) = Returns tt.
Proof.
  intros Hr.
  unfold endGameInternal, bind, get_room, update_room, emit, perform, ret.
  simpl. rewrite Hr. simpl. destruct (truthy (hostId r)); simpl;
    rewrite ?lookup_alter_eq, Hr; simpl;
    (eexists; split; [reflexivity|]; split; [|reflexivity]);
    unfold same_counters; simpl; auto.
Qed.

Lemma startRound_counters roomId (tbl : gmap string Room) r :
  tbl !! roomId = Some r ->
  exists r', out_rooms (startRound roomId tbl) !! roomId = Some r' /\
    same_counters r r' /\
    Forall (fun t => timer_cb t = RoundBegin roomId ->
                     (currentRound r < totalRounds r)%nat)
      (armed (out_effects (startRound roomId tbl))) /\
    out_result (startRound roomId tbl) = Returns tt.
Proof.
  intros Hr. unfold startRound, bind, get_room.
  cbn [out_result out_rooms out_effects app]. rewrite Hr.
  destruct (Nat.leb_spec (totalRounds r) (currentRound r)) as [Hge|Hlt].
  - destruct (endGameInternal_counters roomId tbl r Hr) as (r' & H1 & H2 & H3).
    exists r'. split; [exact H1|]. split; [exact H2|].
    rewrite endGameInternal_arms_nothing. split; [constructor | exact H3].
  - exists r. simpl. split; [exact Hr|].
    split; [unfold same_counters; auto|].
    split; [|reflexivity]. repeat constructor. simpl. intros _. exact Hlt.
Qed.

Lemma callback_counters roomId cb (tbl : gmap string Room) r :
  cb_room cb = Some roomId -> cb <> RoundBegin roomId ->
  tbl !! roomId = Some r ->
  exists r', out_rooms (run_callback cb tbl) !! roomId = Some r' /\
    same_counters r r' /\
    Forall (fun t => timer_cb t = RoundBegin roomId ->
                     (currentRound r < totalRounds r)%nat)
      (armed (out_effects (run_callback cb tbl))) /\
    out_result (run_callback cb tbl) = Returns tt.
Proof.
  intros Hcb Hnot Hr.
  destruct cb as [|x|x|x|x song]; simpl in Hcb; try discriminate;
    injection Hcb as ->; cbn [run_callback].
  - apply startRound_counters. exact Hr.
  - unfold winner_pause_elapsed, bind, get_room.
    cbn [out_result out_rooms out_effects app]. rewrite Hr.
    destruct (currentRound r <? totalRounds r)%nat.
    + apply startRound_counters. exact Hr.
    + destruct (endGameInternal_counters roomId tbl r Hr)
        as (r' & H1 & H2 & H3).
      exists r'. split; [exact H1|]. split; [exact H2|].
      rewrite endGameInternal_arms_nothing. split; [constructor | exact H3].
  - congruence.
  - unfold timeout_elapsed, bind, get_room, update_room, emit, setTimeout,
      perform, ret. simpl. rewrite Hr.
    destruct (roundActive r && current_is song r); simpl;
      rewrite ?lookup_alter_eq, Hr; simpl;
      (eexists; split; [reflexivity|]);
      (split; [unfold same_counters; simpl; auto|]);
      (split; [|reflexivity]); repeat constructor; simpl; discriminate.
Qed.

Lemma countdown_counters roomId (tbl : gmap string Room) r :
  tbl !! roomId = Some r -> (currentRound r < length (songs r))%nat ->
  exists r', out_rooms (countdown_elapsed roomId tbl) !! roomId = Some r' /\
    songs r' = songs r /\ totalRounds r' = totalRounds r /\
    currentRound r' = S (currentRound r) /\
    Forall (fun t => timer_cb t <> RoundBegin roomId)
      (armed (out_effects (countdown_elapsed roomId tbl))) /\
    out_result (countdown_elapsed roomId tbl) = Returns tt.
Proof.
  intros Hr Hlt.
  destruct (lookup_lt_is_Some_2 (songs r) (currentRound r) Hlt) as [sg Hsg].
  unfold countdown_elapsed, bind, get_room, update_room, emit, setTimeout,
    perform, throw. simpl. rewrite Hr. simpl. rewrite Hsg. simpl.
  rewrite !lookup_alter_eq, Hr. simpl.
  eexists. split; [reflexivity|]. simpl.
  repeat split. repeat constructor. simpl. discriminate.
Qed.

Lemma step_on_track roomId pl (s : Server) ev :
  no_restart roomId ev -> paced roomId s -> on_track roomId pl s ->
  on_track roomId pl (fst (step s ev)).
Proof.
  intros Hno (r0 & Hr0 & Hlen) (r & Hr & Hsongs & Htot & Hcur & Hpend).
  assert (r0 = r) as -> by congruence. clear Hr0.
  assert (Hclose : forall (o : Outcome unit) (rest : list Timer) r',
             out_rooms o !! roomId = Some r' -> same_counters r r' ->
             Forall (fun t => timer_cb t = RoundBegin roomId ->
                              (currentRound r < length pl)%nat)
               (rest ++ armed (out_effects o)) ->
             on_track roomId pl {| rooms := out_rooms o;
                                   pending := rest ++ armed (out_effects o) |}).
  { intros o rest r' Hr' (S1 & S2 & S3) Hall. exists r'. cbn [rooms pending].
    rewrite S1, S2, S3. auto. }
  assert (Hweak : forall l : list Timer,
             Forall (fun t => timer_cb t <> RoundBegin roomId) l ->
             Forall (fun t => timer_cb t = RoundBegin roomId ->
                              (currentRound r < length pl)%nat) l).
  { intros l H. eapply Forall_impl; [exact H|]. intros t Ht E. congruence. }
  assert (Hframe : forall (m : M unit) rid rest,
             rid <> roomId -> local rid m ->
             Forall (fun t => timer_cb t = RoundBegin roomId ->
                              (currentRound r < length pl)%nat) rest ->
             on_track roomId pl
               {| rooms := out_rooms (m (rooms s));
                  pending := rest ++ armed (out_effects (m (rooms s))) |}).
  { intros m rid rest Hne Hloc Hrest.
    destruct (Hloc (rooms s)) as [Hsame Habout].
    apply (Hclose _ rest r).
    - rewrite Hsame by congruence. exact Hr.
    - unfold same_counters. auto.
    - apply Forall_app. split; [exact Hrest|]. apply Hweak.
      apply (other_room_no_countdown rid); assumption. }
  assert (Hevent : forall ev' rid,
             event_room ev' = Some rid -> no_restart roomId ev' ->
             on_track roomId pl
               {| rooms := out_rooms (handle ev' (rooms s));
                  pending := pending s
                    ++ armed (out_effects (handle ev' (rooms s))) |}).
  { intros ev' rid Hroom Hno'. destruct (decide (rid = roomId)) as [->|Hne].
    - destruct (own_handle_counters roomId ev' (rooms s) r Hroom Hno' Hr)
        as (r' & Hr' & Hsame & Harm).
      apply (Hclose _ _ r'); try assumption.
      apply Forall_app. split; [exact Hpend | apply Hweak; exact Harm].
    - apply (Hframe _ rid); [assumption | apply local_handle; exact Hroom
                            | exact Hpend]. }
  destruct ev as [sid x n u|sid x n|x n res|sid x g|i].
  1-4: (eapply Hevent; [reflexivity | exact Hno]).
  cbn [step]. destruct (pending s !! i) as [t|] eqn:Ht; cbn [fst];
    [|exists r; auto].
  assert (Hrest : Forall (fun t => timer_cb t = RoundBegin roomId ->
                                   (currentRound r < length pl)%nat)
                    (delete i (pending s)))
    by (apply Forall_delete; exact Hpend).
  destruct (cb_room (timer_cb t)) as [rid|] eqn:Hcb.
  - destruct (decide (rid = roomId)) as [->|Hne];
      [|apply (Hframe _ rid); [assumption
                              | apply local_run_callback; exact Hcb
                              | exact Hrest]].
    destruct (countdown_or_not roomId (timer_cb t) Hcb) as [Hbegin|Hother].
    + assert (Hlt : (currentRound r < length pl)%nat).
      { rewrite List.Forall_forall in Hpend. apply (Hpend t); [|exact Hbegin].
        apply list_elem_of_In. eapply list_elem_of_lookup_2. exact Ht. }
      pose proof (drivers_delete roomId (pending s) i t Ht) as Hdel.
      assert (Hdrv : drives roomId t = true).
      { unfold drives. rewrite Hbegin. apply String.eqb_refl. }
      rewrite Hdrv in Hdel.
      assert (Hnone : drivers roomId (delete i (pending s)) = []).
      { destruct (drivers roomId (delete i (pending s))); [reflexivity|].
        simpl in Hdel. destruct (roundActive r); lia. }
      rewrite Hbegin. cbn [run_callback].
      destruct (countdown_counters roomId (rooms s) r Hr)
        as (r' & Hr' & C1 & C2 & C3 & Harm & _); [rewrite Hsongs; exact Hlt|].
      exists r'. cbn [rooms pending]. split; [exact Hr'|].
      rewrite C1, C2, C3.
      split; [exact Hsongs|]. split; [exact Htot|]. split; [lia|].
      apply Forall_app. split.
      * eapply Forall_impl; [apply no_drivers_no_countdown; exact Hnone|].
        intros t' Ht' E. congruence.
      * eapply Forall_impl; [exact Harm|]. intros t' Ht' E. congruence.
    + destruct (callback_counters roomId (timer_cb t) (rooms s) r Hcb Hother Hr)
        as (r' & Hr' & Hsame & Harm & _).
      apply (Hclose _ _ r'); try assumption.
      apply Forall_app. split; [exact Hrest|].
      rewrite <- Htot. exact Harm.
  - destruct (timer_cb t); simpl in Hcb; try discriminate.
    cbn [run_callback ret out_rooms out_effects armed omap list_omap].
    rewrite app_nil_r. exists r. auto.
Qed.

Lemma run_on_track roomId pl (evs : list Event) (s : Server) :
  Forall (no_restart roomId) evs -> paced roomId s -> on_track roomId pl s ->
  paced roomId (fst (run s evs)) /\ on_track roomId pl (fst (run s evs)).
Proof.
  intros Hevs. revert s. induction Hevs as [|ev evs Hev _ IH]; intros s Hp Ht.
  - split; assumption.
  - rewrite run_cons. cbn [fst]. apply IH.
    + apply step_paced; assumption.
    + apply step_on_track; assumption.
Qed.

Lemma on_track_callback_returns roomId pl (s : Server) (t : Timer) :
  on_track roomId pl s -> In t (pending s) ->
  cb_room (timer_cb t) = Some roomId ->
  out_result (run_callback (timer_cb t) (rooms s)) = Returns tt.
Proof.
  intros (r & Hr & Hsongs & Htot & Hcur & Hpend) Hin Hcb.
  destruct (countdown_or_not roomId (timer_cb t) Hcb) as [Hbegin|Hother].
  - rewrite Hbegin. cbn [run_callback].
    rewrite List.Forall_forall in Hpend.
    destruct (countdown_counters roomId (rooms s) r Hr)
      as (r' & _ & _ & _ & _ & _ & Hres); [|exact Hres].
    rewrite Hsongs. apply (Hpend t); assumption.
  - destruct (callback_counters roomId (timer_cb t) (rooms s) r Hcb Hother Hr)
      as (r' & _ & _ & _ & Hres). exact Hres.
Qed.

(** X14.  A game stays within its playlist.  From the delivery of a
    playlist to a room that is between rounds and has no driving timer
    pending, and as long as no further playlist is delivered to it, the room
    keeps that playlist, counts as many rounds as it has songs, never counts
    past the last round, and whichever pending timer of the room fires next
    completes without throwing: the countdown always finds its song. *)
Theorem started_game_stays_on_track roomId (s : Server) r requestedRounds
    res (pl : list Song) (evs : list Event) :
  rooms s !! roomId = Some r -> roundActive r = false ->
  drivers roomId (pending s) = [] ->
  final_playlist requestedRounds res = inr pl ->
  Forall (no_restart roomId) evs ->
  let s' := fst (run s (PlaylistSettled roomId requestedRounds res :: evs)) in
  exists r', rooms s' !! roomId = Some r' /\
    songs r' = pl /\ totalRounds r' = length pl /\
    (currentRound r' <= length pl)%nat /\
    forall t, In t (pending s') -> cb_room (timer_cb t) = Some roomId ->
      out_result (run_callback (timer_cb t) (rooms s')) = Returns tt.
Proof.
  intros Hr Hoff Hnone Hpl Hevs. cbv zeta. rewrite run_cons. cbn [fst].
  pose proof (game_start_paced roomId s r requestedRounds res Hr Hoff Hnone)
    as Hpaced.
  assert (Hpos : (0 < length pl)%nat).
  { unfold final_playlist in Hpl. destruct res; try discriminate.
    cbv zeta in Hpl. destruct (Nat.eqb_spec (length
      (slice0 requestedRounds (shuffled sort (omap (fun song => song) results))))
      0) as [E|E]; [discriminate|].
    injection Hpl as <-. lia. }
  assert (Htrack : on_track roomId pl
            (fst (step s (PlaylistSettled roomId requestedRounds res)))).
  { cbn [step handle fst]. unfold on_track, start_game_resume. rewrite Hpl.
    unfold bind, get_room, update_room, emit, setTimeout, perform, ret. simpl.
    rewrite !lookup_alter_eq, Hr. simpl.
    destruct (truthy (hostId r)); simpl;
      (eexists; split; [rewrite !lookup_alter_eq, Hr; reflexivity|]);
      simpl; repeat split; try lia;
      apply List.Forall_forall; intros; exact Hpos. }
  destruct (run_on_track roomId pl evs _ Hevs Hpaced Htrack)
    as [_ Hend].
  pose proof Hend as (r' & Hr' & H1 & H2 & H3 & _).
  exists r'. repeat split; try assumption.
  intros t Hin Hcb. eapply on_track_callback_returns; eassumption.
Qed.

End OnTrack.

(** ** A game that nobody guesses in *)

Section Unattended.
Context {U : UnicodeOps}.

Lemma fire_only (s : Server) (t : Timer) :
  pending s = [t] ->
  step s (TimerFires 0)
  = ({| rooms := out_rooms (run_callback (timer_cb t) (rooms s));
        pending := armed (out_effects (run_callback (timer_cb t) (rooms s))) |},
     out_effects (run_callback (timer_cb t) (rooms s))).
Proof. intros Hp. cbn [step]. rewrite Hp. reflexivity. Qed.

Lemma startRound_begins roomId (tbl : gmap string Room) r :
  tbl !! roomId = Some r -> (currentRound r < totalRounds r)%nat ->
  startRound roomId tbl
  = mkOutcome tbl [Emit (ToRoom roomId) (start_countdown 3);
                   SetTimeout (RoundBegin roomId) 3000] (Returns tt).
Proof.
  intros Hr Hlt. unfold startRound, bind, get_room. simpl. rewrite Hr.
  destruct (Nat.leb_spec (totalRounds r) (currentRound r)); [lia|].
  reflexivity.
Qed.

Lemma startRound_ends roomId (tbl : gmap string Room) r :
  tbl !! roomId = Some r -> (totalRounds r <= currentRound r)%nat ->
  startRound roomId tbl
  = mkOutcome (<[roomId := set_state ENDED r]> tbl) (game_end roomId r)
      (Returns tt).
Proof.
  intros Hr Hge. unfold startRound, bind, get_room. simpl. rewrite Hr.
  destruct (Nat.leb_spec (totalRounds r) (currentRound r)); [|lia].
  unfold endGameInternal, bind, get_room, update_room, emit, perform, ret,
    game_end.
  simpl. rewrite Hr. simpl. rewrite (alter_found _ _ r) by exact Hr.
  destruct (truthy (hostId r)); reflexivity.
Qed.

Lemma countdown_begins roomId (tbl : gmap string Room) r song :
  tbl !! roomId = Some r -> songs r !! currentRound r = Some song ->
  countdown_elapsed roomId tbl
  = mkOutcome
      (<[roomId := set_currentRound (S (currentRound r))
                     (set_roundActive true (set_currentSong (Some song) r))]>
         tbl)
      [Emit (ToRoom roomId) (new_round (S (currentRound r)) (previewUrl song));
       SetTimeout (RoundTimeout roomId song) 30000]
      (Returns tt).
Proof.
  intros Hr Hsong.
  unfold countdown_elapsed, bind, get_room, update_room, emit, setTimeout,
    perform. simpl. rewrite Hr. simpl. rewrite Hsong. simpl.
  rewrite (alter_found (set_currentSong (Some song)) roomId r tbl Hr).
  rewrite (alter_found (set_roundActive true) roomId
             (set_currentSong (Some song) r)) by apply lookup_insert_eq.
  rewrite (alter_found (set_currentRound (S (currentRound r))) roomId
             (set_roundActive true (set_currentSong (Some song) r)))
    by apply lookup_insert_eq.
  rewrite !insert_insert_eq. reflexivity.
Qed.

Lemma unattended_from roomId (m : nat) :
  forall (s : Server) r ms,
    rooms s !! roomId = Some r ->
    pending s = [{| timer_cb := StartRound roomId; timer_ms := ms |}] ->
    roundActive r = false ->
    totalRounds r = length (songs r) ->
    (currentRound r + m = length (songs r))%nat ->
    let out := run s (repeat (TimerFires 0) (3 * m + 1)) in
    snd out = unattended_rounds roomId (currentRound r)
                (skipn (currentRound r) (songs r)) ++ game_end roomId r /\
    pending (fst out) = [] /\
    exists r', rooms (fst out) !! roomId = Some r' /\
      state r' = ENDED /\ currentRound r' = totalRounds r /\
      roundActive r' = false /\ players r' = players r.
Proof.
  induction m as [|m IH]; intros s r ms Hr Hp Hoff Htot Hm; cbv zeta.
  - cbn [Nat.mul Nat.add repeat]. rewrite run_cons.
    rewrite (fire_only s _ Hp). cbn [timer_cb run_callback fst snd].
    rewrite (startRound_ends roomId (rooms s) r Hr) by lia.
    cbn [out_rooms out_effects run rooms pending fst snd].
    rewrite drop_ge by lia. rewrite app_nil_r. split; [reflexivity|].
    split.
    + unfold game_end. simpl. destruct (truthy (hostId r)); reflexivity.
    + exists (set_state ENDED r). split; [apply lookup_insert_eq|].
      simpl. repeat split; try reflexivity; try assumption; lia.
  - assert (Hlt : (currentRound r < length (songs r))%nat) by lia.
    destruct (lookup_lt_is_Some_2 (songs r) (currentRound r) Hlt)
      as [song Hsong].
    replace (3 * S m + 1)%nat with (S (S (S (3 * m + 1)))) by lia.
    cbn [repeat]. rewrite (drop_S _ _ _ Hsong). cbn [unattended_rounds].
    (* the countdown is armed *)
    rewrite run_cons. rewrite (fire_only s _ Hp).
    cbn [timer_cb run_callback fst snd].
    rewrite (startRound_begins roomId (rooms s) r Hr) by lia.
    cbn [out_rooms out_effects armed omap list_omap].
    (* the round begins *)
    rewrite run_cons. erewrite fire_only by reflexivity.
    cbn [timer_cb run_callback fst snd rooms].
    rewrite (countdown_begins roomId (rooms s) r song Hr Hsong).
    cbn [out_rooms out_effects armed omap list_omap].
    (* the round times out *)
    set (r1 := set_currentRound (S (currentRound r))
                 (set_roundActive true (set_currentSong (Some song) r))).
    rewrite run_cons. erewrite fire_only by reflexivity.
    cbn [timer_cb run_callback fst snd rooms].
    rewrite (timeout_elapsed_live roomId song _ r1);
      [|apply lookup_insert_eq | reflexivity
       |unfold current_is, same_object; simpl; apply Nat.eqb_refl].
    cbn [out_rooms out_effects armed omap list_omap].
    rewrite insert_insert_eq.
    (* the rounds that are left *)
    set (s3 := {| rooms := <[roomId := set_roundActive false r1]> (rooms s);
                  pending := [{| timer_cb := StartRound roomId;
                                 timer_ms := 5000 |}] |}).
    destruct (IH s3 (set_roundActive false r1) 5000) as (E1 & E2 & r' & E3);
      [apply lookup_insert_eq | reflexivity | reflexivity
      |simpl; exact Htot | simpl; lia |].
    cbv zeta in E1, E2, E3. simpl currentRound in E1. simpl songs in E1.
    rewrite E1. split; [|split; [exact E2|]].
    + unfold unattended_round, game_end. simpl. reflexivity.
    + exists r'. exact E3.
Qed.

(** X15.  A game that nobody guesses in plays itself to its end.  In a
    room that is between rounds with the timer of the next round as its only
    pending timer, letting the pending timer fire three times for every
    round that is left and once more sends, round after round with the
    songs in playlist order, the countdown, the start of the round and its
    timeout, then [game_over] with the players as they are; the room is
    then ENDED with every round counted, and no timer is left pending. *)
Theorem unattended_game_runs_to_its_end roomId (s : Server) r ms :
  rooms s !! roomId = Some r ->
  pending s = [{| timer_cb := StartRound roomId; timer_ms := ms |}] ->
  roundActive r = false ->
  totalRounds r = length (songs r) ->
  (currentRound r <= totalRounds r)%nat ->
  let out := run s (repeat (TimerFires 0)
                      (3 * (totalRounds r - currentRound r) + 1)) in
  snd out = unattended_rounds roomId (currentRound r)
              (skipn (currentRound r) (songs r)) ++ game_end roomId r /\
  pending (fst out) = [] /\
  exists r', rooms (fst out) !! roomId = Some r' /\
    state r' = ENDED /\ currentRound r' = totalRounds r /\
    roundActive r' = false /\ players r' = players r.
Proof.
  intros Hr Hp Hoff Htot Hcur.
  apply (unattended_from roomId (totalRounds r - currentRound r) s r ms);
    try assumption. lia.
Qed.

End Unattended.

Lemma unattended_game_runs_to_its_end_witness :
  let s := {| rooms := {[ "AB12C"%string :=
                set_currentRound 0 (set_roundActive false
                  (set_currentSong None Demo.room)) ]};
              pending := [{| timer_cb := StartRound "AB12C";
                             timer_ms := 1000 |}] |} in
  let out := @run ascii_only_ops s (repeat (TimerFires 0) 7) in
  snd out = unattended_rounds "AB12C" 0 [Demo.wonderwall; Demo.creep]
            ++ game_end "AB12C" Demo.room /\
  pending (fst out) = [] /\
  exists r', rooms (fst out) !! "AB12C"%string = Some r' /\
    state r' = ENDED /\ currentRound r' = 2%nat /\
    roundActive r' = false /\ players r' = players Demo.room.
Proof.
  exact (@unattended_game_runs_to_its_end ascii_only_ops "AB12C"
           {| rooms := {[ "AB12C"%string :=
                 set_currentRound 0 (set_roundActive false
                   (set_currentSong None Demo.room)) ]};
              pending := [{| timer_cb := StartRound "AB12C";
                             timer_ms := 1000 |}] |}
           (set_currentRound 0 (set_roundActive false
              (set_currentSong None Demo.room)))
           1000 eq_refl eq_refl eq_refl eq_refl (Nat.le_0_l 2)).
Defined.

Lemma started_game_stays_on_track_witness :
  let s' := fst (@run ascii_only_ops
                   {| rooms := Demo.loading; pending := [] |}
                   (PlaylistSettled "AB12C" 10
                      (Lookups [Some Demo.wonderwall; None; Some Demo.creep]
                         in_order)
                    :: [TimerFires 0; TimerFires 0;
                        SubmitGuess "sock-bob" "AB12C"
                          (JsString (js "wonderwall"))])) in
  exists r', rooms s' !! "AB12C"%string = Some r' /\
    songs r' = [Demo.wonderwall; Demo.creep] /\
    totalRounds r' = 2%nat /\ (currentRound r' <= 2)%nat /\
    forall t, In t (pending s') -> cb_room (timer_cb t) = Some "AB12C"%string ->
      out_result (run_callback (timer_cb t) (rooms s'))
      = Returns tt.
Proof.
  apply (@started_game_stays_on_track ascii_only_ops "AB12C"
           {| rooms := Demo.loading; pending := [] |}
           (set_state LOADING Demo.lobby_room) 10
           (Lookups [Some Demo.wonderwall; None; Some Demo.creep] in_order)
           [Demo.wonderwall; Demo.creep]);
    try reflexivity.
  repeat constructor.
Defined.

(** ** Lifting a property of the handlers to the steps of the server *)

Section StepLift.
Context {U : UnicodeOps}.

Lemma step_lift k (s : Server) ev r (R : Room -> list Effect -> Prop) :
  rooms s !! k = Some r ->
  (forall rid effs, rid <> k -> Forall (about rid) effs -> R r effs) ->
  R r [] ->
  (event_room ev = Some k ->
   exists r', out_rooms (handle ev (rooms s)) !! k = Some r' /\
              R r' (out_effects (handle ev (rooms s)))) ->
  (forall cb, cb_room cb = Some k ->
   exists r', out_rooms (run_callback cb (rooms s)) !! k = Some r' /\
              R r' (out_effects (run_callback cb (rooms s)))) ->
  exists r', rooms (fst (step s ev)) !! k = Some r' /\ R r' (snd (step s ev)).
Proof.
  intros Hr Hother Hidle Hown Hcb.
  assert (Hframe : forall (m : M unit) rid,
             rid <> k -> local rid m ->
             exists r', out_rooms (m (rooms s)) !! k = Some r' /\
                        R r' (out_effects (m (rooms s)))).
  { intros m rid Hne Hloc. destruct (Hloc (rooms s)) as [Hsame Habout].
    exists r. split; [rewrite Hsame by congruence; exact Hr|].
    apply (Hother rid); assumption. }
  assert (Hevent : forall rid,
             event_room ev = Some rid ->
             exists r', out_rooms (handle ev (rooms s)) !! k = Some r' /\
                        R r' (out_effects (handle ev (rooms s)))).
  { intros rid Hroom. destruct (decide (rid = k)) as [->|Hne].
    - apply Hown. exact Hroom.
    - apply (Hframe _ rid Hne). apply local_handle. exact Hroom. }
  destruct ev as [sid x n u|sid x n|x n res|sid x g|i].
  1-4: (eapply Hevent; reflexivity).
  cbn [step]. destruct (pending s !! i) as [t|]; cbn [fst snd rooms];
    [|exists r; auto].
  destruct (cb_room (timer_cb t)) as [rid|] eqn:Hroom.
  - destruct (decide (rid = k)) as [->|Hne].
    + apply Hcb. exact Hroom.
    + apply (Hframe _ rid Hne). apply local_run_callback. exact Hroom.
  - destruct (timer_cb t); simpl in Hroom; try discriminate.
    exists r. auto.
Qed.

End StepLift.

(** ** Every point is announced *)

Lemma wins_app k (l1 l2 : list Effect) :
  wins k (l1 ++ l2) = (wins k l1 + wins k l2)%nat.
Proof. unfold wins. rewrite List.filter_app, length_app. reflexivity. Qed.

Lemma wins_other rid k (effs : list Effect) :
  rid <> k -> Forall (about rid) effs -> wins k effs = 0%nat.
Proof.
  intros Hne Hall. unfold wins.
  induction Hall as [|e effs He _ IH]; [reflexivity|]. simpl.
  destruct e as [[x|x] [] |cb ms|x st n|x ps]; simpl in *; try exact IH.
  subst x. destruct (String.eqb_spec rid k); [contradiction | exact IH].
Qed.

Lemma total_score_app (ps qs : list Player) :
  total_score (ps ++ qs) = (total_score ps + total_score qs)%nat.
Proof.
  unfold total_score. induction ps as [|p ps IH]; simpl; [reflexivity|].
  rewrite IH. lia.
Qed.

Ltac show_points :=
  eexists; (split; [reflexivity|]); unfold wins; simpl;
  rewrite ?String.eqb_refl; simpl;
  rewrite ?total_score_award, ?total_score_app; simpl;
  repeat match goal with
         | H : find_player _ _ = _ |- _ => rewrite H
         end;
  lia.

Section Points.
Context {U : UnicodeOps}.

Lemma own_handle_points roomId ev (tbl : gmap string Room) r :
  event_room ev = Some roomId -> tbl !! roomId = Some r ->
  exists r', out_rooms (handle ev tbl) !! roomId = Some r' /\
    total_score (players r')
    = (total_score (players r) + wins roomId (out_effects (handle ev tbl)))%nat.
Proof.
  intros Hev Hr.
  destruct ev as [sid x n u|sid x n|x n res|sid x g|i]; simpl in Hev;
    try discriminate; injection Hev as ->; cbn [handle].
  - unfold join_room, bind, get_room, update_room, emit, perform. simpl.
    rewrite Hr. destruct (is_lobby (state r)); simpl;
      rewrite ?lookup_alter_eq, Hr; simpl; show_points.
  - unfold start_game, bind, get_room, update_room, emit, setTimeout,
      perform, ret. simpl. rewrite Hr.
    destruct (length (players r) =? 0)%nat; simpl;
      rewrite ?lookup_alter_eq, Hr; simpl; show_points.
  - unfold start_game_resume.
    destruct (final_playlist n res) as [message|playlist];
      unfold bind, get_room, update_room, emit, setTimeout, perform, ret;
      simpl; rewrite ?lookup_alter_eq, Hr; simpl.
    + show_points.
    + destruct (truthy (hostId r)); simpl;
        rewrite ?lookup_alter_eq, Hr; simpl; show_points.
  - unfold submit_guess, currentSong_title, bind, get_room, update_room,
      emit, setTimeout, perform, ret, throw, lift. simpl. rewrite Hr.
    split_cases; rewrite ?lookup_alter_eq, Hr; simpl; show_points.
Qed.

Lemma own_callback_points roomId cb (tbl : gmap string Room) r :
  cb_room cb = Some roomId -> tbl !! roomId = Some r ->
  exists r', out_rooms (run_callback cb tbl) !! roomId = Some r' /\
    total_score (players r')
    = (total_score (players r)
       + wins roomId (out_effects (run_callback cb tbl)))%nat.
Proof.
  intros Hcb Hr.
  assert (Hend : exists r', out_rooms (endGameInternal roomId tbl) !! roomId
                            = Some r' /\
            total_score (players r')
            = (total_score (players r)
               + wins roomId (out_effects (endGameInternal roomId tbl)))%nat).
  { unfold endGameInternal, bind, get_room, update_room, emit, perform, ret.
    simpl. rewrite Hr. simpl. destruct (truthy (hostId r)); simpl;
      rewrite ?lookup_alter_eq, Hr; simpl; show_points. }
  assert (Hstart : exists r', out_rooms (startRound roomId tbl) !! roomId
                              = Some r' /\
            total_score (players r')
            = (total_score (players r)
               + wins roomId (out_effects (startRound roomId tbl)))%nat).
  { unfold startRound, bind, get_room.
    cbn [out_result out_rooms out_effects app]. rewrite Hr.
    destruct (totalRounds r <=? currentRound r)%nat; [exact Hend|].
    simpl. rewrite Hr. show_points. }
  destruct cb as [|x|x|x|x song]; simpl in Hcb; try discriminate;
    injection Hcb as ->; cbn [run_callback].
  - exact Hstart.
  - unfold winner_pause_elapsed, bind, get_room.
    cbn [out_result out_rooms out_effects app]. rewrite Hr.
    destruct (currentRound r <? totalRounds r)%nat; assumption.
  - unfold countdown_elapsed, bind, get_room, update_room, emit, setTimeout,
      perform, throw. simpl. rewrite Hr. simpl.
    destruct (songs r !! currentRound r); simpl;
      rewrite ?lookup_alter_eq, Hr; simpl; show_points.
  - unfold timeout_elapsed, bind, get_room, update_room, emit, setTimeout,
      perform, ret. simpl. rewrite Hr.
    destruct (roundActive r && current_is song r); simpl;
      rewrite ?lookup_alter_eq, Hr; simpl; show_points.
Qed.

(** X16.  Every point is announced and every announcement is a point: over
    any run of events the scores of a room add up to what they were plus
    the number of [round_winner] messages broadcast to the room.  Joining
    players bring no points, and no other event touches a score. *)
Theorem points_match_announcements k (s : Server) (evs : list Event) r :
  rooms s !! k = Some r ->
  exists r', rooms (fst (run s evs)) !! k = Some r' /\
    total_score (players r')
    = (total_score (players r) + wins k (snd (run s evs)))%nat.
Proof.
  revert s r. induction evs as [|ev evs IH]; intros s r Hr.
  - exists r. split; [exact Hr|]. simpl. unfold wins. simpl. lia.
  - rewrite run_cons. cbn [fst snd].
    destruct (step_lift k s ev r
                (fun r' effs => total_score (players r')
                   = (total_score (players r) + wins k effs)%nat) Hr)
      as (r1 & Hr1 & H1).
    + intros rid effs Hne Hall. rewrite (wins_other rid k effs Hne Hall). lia.
    + unfold wins. simpl. lia.
    + intros Hev. apply own_handle_points; assumption.
    + intros cb Hcb. apply own_callback_points; assumption.
    + destruct (IH _ r1 Hr1) as (r2 & Hr2 & H2).
      exists r2. split; [exact Hr2|]. rewrite wins_app. lia.
Qed.

End Points.

Lemma points_match_announcements_witness :
  exists r',
    rooms (fst (@run ascii_only_ops Demo.server
                  [SubmitGuess "sock-bob" "AB12C" (JsString (js "wonderwall"));
                   SubmitGuess "sock-alice" "AB12C" (JsString (js "wonderwall"));
                   TimerFires 1])) !! "AB12C"%string = Some r' /\
    total_score (players r')
    = (total_score (players Demo.room)
       + wins "AB12C"
           (snd (@run ascii_only_ops Demo.server
                   [SubmitGuess "sock-bob" "AB12C" (JsString (js "wonderwall"));
                    SubmitGuess "sock-alice" "AB12C"
                      (JsString (js "wonderwall"));
                    TimerFires 1])))%nat.
Proof.
  apply (@points_match_announcements ascii_only_ops). reflexivity.
Defined.

(** ** Nobody joins a game in progress *)

Lemma award_ids sid (ps : list Player) :
  map p_id (award sid ps) = map p_id ps.
Proof.
  induction ps as [|p ps IH]; simpl; [reflexivity|].
  destruct (String.eqb (p_id p) sid); simpl; [reflexivity|].
  rewrite IH. reflexivity.
Qed.

Ltac show_frozen :=
  eexists; (split; [reflexivity|]); simpl;
  rewrite ?award_ids; split; [congruence | reflexivity].

Section Roster.
Context {U : UnicodeOps}.

Lemma own_handle_frozen roomId ev (tbl : gmap string Room) r :
  event_room ev = Some roomId -> no_restart roomId ev ->
  tbl !! roomId = Some r -> state r <> LOBBY ->
  exists r', out_rooms (handle ev tbl) !! roomId = Some r' /\
    state r' <> LOBBY /\ map p_id (players r') = map p_id (players r).
Proof.
  intros Hev Hno Hr Hst.
  destruct ev as [sid x n u|sid x n|x n res|sid x g|i]; simpl in Hev;
    try discriminate; injection Hev as ->; cbn [handle].
  - unfold join_room, bind, get_room, update_room, emit, perform. simpl.
    rewrite Hr. destruct (state r) eqn:E; try congruence; simpl;
      rewrite ?lookup_alter_eq, Hr; simpl; show_frozen.
  - unfold start_game, bind, get_room, update_room, emit, setTimeout,
      perform, ret. simpl. rewrite Hr.
    destruct (length (players r) =? 0)%nat; simpl;
      rewrite ?lookup_alter_eq, Hr; simpl; show_frozen.
  - simpl in Hno. congruence.
  - unfold submit_guess, currentSong_title, bind, get_room, update_room,
      emit, setTimeout, perform, ret, throw, lift. simpl. rewrite Hr.
    split_cases; rewrite ?lookup_alter_eq, Hr; simpl; show_frozen.
Qed.

Lemma own_callback_frozen roomId cb (tbl : gmap string Room) r :
  cb_room cb = Some roomId -> tbl !! roomId = Some r -> state r <> LOBBY ->
  exists r', out_rooms (run_callback cb tbl) !! roomId = Some r' /\
    state r' <> LOBBY /\ map p_id (players r') = map p_id (players r).
Proof.
  intros Hcb Hr Hst.
  assert (Hend : exists r', out_rooms (endGameInternal roomId tbl) !! roomId
                            = Some r' /\
            state r' <> LOBBY /\ map p_id (players r') = map p_id (players r)).
  { unfold endGameInternal, bind, get_room, update_room, emit, perform, ret.
    simpl. rewrite Hr. simpl. destruct (truthy (hostId r)); simpl;
      rewrite ?lookup_alter_eq, Hr; simpl; show_frozen. }
  assert (Hstart : exists r', out_rooms (startRound roomId tbl) !! roomId
                              = Some r' /\
            state r' <> LOBBY /\ map p_id (players r') = map p_id (players r)).
  { unfold startRound, bind, get_room.
    cbn [out_result out_rooms out_effects app]. rewrite Hr.
    destruct (totalRounds r <=? currentRound r)%nat; [exact Hend|].
    simpl. rewrite Hr. show_frozen. }
  destruct cb as [|x|x|x|x song]; simpl in Hcb; try discriminate;
    injection Hcb as ->; cbn [run_callback].
  - exact Hstart.
  - unfold winner_pause_elapsed, bind, get_room.
    cbn [out_result out_rooms out_effects app]. rewrite Hr.
    destruct (currentRound r <? totalRounds r)%nat; assumption.
  - unfold countdown_elapsed, bind, get_room, update_room, emit, setTimeout,
      perform, throw. simpl. rewrite Hr. simpl.
    destruct (songs r !! currentRound r); simpl;
      rewrite ?lookup_alter_eq, Hr; simpl; show_frozen.
  - unfold timeout_elapsed, bind, get_room, update_room, emit, setTimeout,
      perform, ret. simpl. rewrite Hr.
    destruct (roundActive r && current_is song r); simpl;
      rewrite ?lookup_alter_eq, Hr; simpl; show_frozen.
Qed.

(** X17.  Nobody joins a game in progress.  Once a room has left the
    lobby, and as long as no playlist is delivered to it (whose failure
    would reopen the lobby), it never returns to LOBBY and the ids in
    [players] stay what they are, in the same order: every join request is
    refused, also after the game has ended. *)
Theorem roster_is_closed_after_start k (s : Server) (evs : list Event) r :
  rooms s !! k = Some r -> state r <> LOBBY ->
  Forall (no_restart k) evs ->
  exists r', rooms (fst (run s evs)) !! k = Some r' /\
    state r' <> LOBBY /\ map p_id (players r') = map p_id (players r).
Proof.
  intros Hr Hst Hevs. revert s r Hr Hst.
  induction Hevs as [|ev evs Hev _ IH]; intros s r Hr Hst.
  - exists r. auto.
  - rewrite run_cons. cbn [fst].
    destruct (step_lift k s ev r
                (fun r' _ => state r' <> LOBBY /\
                   map p_id (players r') = map p_id (players r)) Hr)
      as (r1 & Hr1 & Hst1 & Hids1); auto.
    + intros Hroom. apply own_handle_frozen; assumption.
    + intros cb Hcb. apply own_callback_frozen; assumption.
    + destruct (IH _ r1 Hr1 Hst1) as (r2 & Hr2 & Hst2 & Hids2).
      exists r2. split; [exact Hr2|]. split; [exact Hst2|]. congruence.
Qed.

End Roster.

Lemma roster_is_closed_after_start_witness :
  exists r',
    rooms (fst (@run ascii_only_ops Demo.server
                  [JoinRoom "sock-carol" "AB12C" (JsString (js "Carol")) JsNull;
                   TimerFires 0;
                   JoinRoom "sock-carol" "AB12C" (JsString (js "Carol")) JsNull]))
      !! "AB12C"%string = Some r' /\
    state r' <> LOBBY /\
    map p_id (players r') = map p_id (players Demo.room).
Proof.
  apply (@roster_is_closed_after_start ascii_only_ops).
  - reflexivity.
  - discriminate.
  - repeat constructor.
Defined.

Lemma bystander_room_untouched_witness :
  let s := {| rooms := <["QQ777"%string := Demo.lobby_room]> (rooms Demo.server);
              pending := [Demo.timeout_timer] |} in
  let evs := [SubmitGuess "sock-bob" "AB12C" (JsString (js "wonderwall"));
              TimerFires 0; TimerFires 0] in
  rooms (fst (@run ascii_only_ops s evs)) !! "QQ777"%string
  = rooms s !! "QQ777"%string /\
  Forall (fun e => ~ reaches "QQ777" e) (snd (@run ascii_only_ops s evs)) /\
  no_timer_of "QQ777" (pending (fst (@run ascii_only_ops s evs))).
Proof.
  apply (@bystander_room_untouched ascii_only_ops).
  - repeat constructor; simpl; discriminate.
  - repeat constructor; simpl; discriminate.
Defined.

(** ** The playlist of a started game *)

Lemma requested_rounds_range (rounds : option Z) :
  (requested_rounds rounds <= 50)%Z /\ requested_rounds rounds <> 0%Z.
Proof.
  unfold requested_rounds.
  destruct rounds as [z|]; [destruct (Z.eqb_spec z 0)|];
    match goal with
    | |- context [(50 <? ?n)%Z] => destruct (Z.ltb_spec 50 n)
    end; lia.
Qed.

(** X18.  The playlist of a started game is a selection of the songs that
    were found: it is not empty, each of its songs is the result of a
    lookup, and no result is used more often than it was returned.  When
    the requested number of rounds is positive the game has at most that
    many rounds, and never more than 50. *)
Theorem playlist_is_a_selection (rounds : option Z)
    (results : list (option Song)) (sort : Shuffle) (pl : list Song) :
  final_playlist (requested_rounds rounds) (Lookups results sort) = inr pl ->
  (1 <= length pl)%nat /\
  (exists rest, Permutation (pl ++ rest) (omap (fun song => song) results)) /\
  ((0 < requested_rounds rounds)%Z ->
   (Z.of_nat (length pl) <= requested_rounds rounds <= 50)%Z).
Proof.
  unfold final_playlist. cbv zeta.
  set (valid := omap (fun song => song) results).
  set (n := requested_rounds rounds).
  destruct (Nat.eqb_spec (length (slice0 n (shuffled sort valid))) 0)
    as [E|E]; [discriminate|].
  intros [= <-]. split; [lia|]. split.
  - unfold slice0. eexists (skipn _ (shuffled sort valid)).
    rewrite firstn_skipn. symmetry. apply shuffled_perm.
  - intros Hpos. split; [|apply requested_rounds_range].
    unfold slice0. destruct (Z.ltb_spec n 0); [lia|].
    rewrite length_firstn. lia.
Qed.

Lemma playlist_is_a_selection_witness :
  (1 <= length [Demo.wonderwall; Demo.creep])%nat /\
  (exists rest,
     Permutation ([Demo.wonderwall; Demo.creep] ++ rest)
       (omap (fun song => song)
          [Some Demo.wonderwall; None; Some Demo.creep; Some Demo.wonderwall])) /\
  ((0 < requested_rounds (Some 2%Z))%Z ->
   (Z.of_nat (length [Demo.wonderwall; Demo.creep])
    <= requested_rounds (Some 2%Z) <= 50)%Z).
Proof.
  apply (playlist_is_a_selection (Some 2%Z)
           [Some Demo.wonderwall; None; Some Demo.creep; Some Demo.wonderwall]
           in_order).
  reflexivity.
Defined.

(** ** Requests at the edge *)

Section Requests.
Context {U : UnicodeOps}.

(** X19.  A guess that is truthy and not a string makes the handler throw:
    while a round is active on a song with a non-empty title, such a guess
    raises a TypeError inside [checkAnswer]; the handler has then changed
    nothing in the table and has emitted nothing, no [wrong_guess]
    either. *)
Theorem nonstring_guess_throws sid roomId (guess : JsVal)
    (tbl : gmap string Room) r song :
  tbl !! roomId = Some r ->
  roundActive r = true -> state r = PLAYING -> currentSong r = Some song ->
  truthy guess = true -> truthy (title song) = true ->
  is_string guess = false ->
  submit_guess sid roomId guess tbl = mkOutcome tbl [] (Throws TypeError).
Proof.
  intros Hr Hact Hst Hsong Hg Ht Hns.
  unfold submit_guess, currentSong_title, bind, get_room, lift, ret. simpl.
  rewrite Hr, Hact, Hst, Hsong. simpl.
  unfold checkAnswer. rewrite Hg, Ht. simpl.
  destruct guess; simpl in Hns; try discriminate; reflexivity.
Qed.


End Requests.


Lemma nonstring_guess_throws_witness :
  @submit_guess ascii_only_ops "sock-bob" "AB12C" (JsNumber 42)
    (rooms Demo.server)
  = mkOutcome (rooms Demo.server) [] (Throws TypeError).
Proof.
  apply (@nonstring_guess_throws ascii_only_ops "sock-bob" "AB12C"
           (JsNumber 42) (rooms Demo.server) Demo.room Demo.wonderwall);
    reflexivity.
Defined.

(** ** The song of the active round *)

Ltac show_song :=
  eexists; (split; [reflexivity|]); simpl;
  (split; [reflexivity|]);
  unfold plays_its_song in *; simpl;
  try (intros; discriminate); try assumption;
  try (intros _; split; [lia|]; rewrite Nat.sub_0_r; reflexivity).

Section ActiveSong.
Context {U : UnicodeOps}.

Lemma own_handle_song roomId ev (tbl : gmap string Room) r :
  event_room ev = Some roomId -> no_restart roomId ev ->
  tbl !! roomId = Some r -> plays_its_song r ->
  exists r', out_rooms (handle ev tbl) !! roomId = Some r' /\
    songs r' = songs r /\ plays_its_song r'.
Proof.
  intros Hev Hno Hr Hinv.
  destruct ev as [sid x n u|sid x n|x n res|sid x g|i]; simpl in Hev;
    try discriminate; injection Hev as ->; cbn [handle].
  - unfold join_room, bind, get_room, update_room, emit, perform. simpl.
    rewrite Hr. destruct (is_lobby (state r)); simpl;
      rewrite ?lookup_alter_eq, Hr; simpl; show_song.
  - unfold start_game, bind, get_room, update_room, emit, setTimeout,
      perform, ret. simpl. rewrite Hr.
    destruct (length (players r) =? 0)%nat; simpl;
      rewrite ?lookup_alter_eq, Hr; simpl; show_song.
  - simpl in Hno. congruence.
  - unfold submit_guess, currentSong_title, bind, get_room, update_room,
      emit, setTimeout, perform, ret, throw, lift. simpl. rewrite Hr.
    split_cases; rewrite ?lookup_alter_eq, Hr; simpl; show_song.
Qed.

Lemma own_callback_song roomId cb (tbl : gmap string Room) r :
  cb_room cb = Some roomId -> tbl !! roomId = Some r -> plays_its_song r ->
  exists r', out_rooms (run_callback cb tbl) !! roomId = Some r' /\
    songs r' = songs r /\ plays_its_song r'.
Proof.
  intros Hcb Hr Hinv.
  assert (Hend : exists r', out_rooms (endGameInternal roomId tbl) !! roomId
                            = Some r' /\
            songs r' = songs r /\ plays_its_song r').
  { unfold endGameInternal, bind, get_room, update_room, emit, perform, ret.
    simpl. rewrite Hr. simpl. destruct (truthy (hostId r)); simpl;
      rewrite ?lookup_alter_eq, Hr; simpl; show_song. }
  assert (Hstart : exists r', out_rooms (startRound roomId tbl) !! roomId
                              = Some r' /\
            songs r' = songs r /\ plays_its_song r').
  { unfold startRound, bind, get_room.
    cbn [out_result out_rooms out_effects app]. rewrite Hr.
    destruct (totalRounds r <=? currentRound r)%nat; [exact Hend|].
    simpl. rewrite Hr. show_song. }
  destruct cb as [|x|x|x|x song]; simpl in Hcb; try discriminate;
    injection Hcb as ->; cbn [run_callback].
  - exact Hstart.
  - unfold winner_pause_elapsed, bind, get_room.
    cbn [out_result out_rooms out_effects app]. rewrite Hr.
    destruct (currentRound r <? totalRounds r)%nat; assumption.
  - unfold countdown_elapsed, bind, get_room, update_room, emit, setTimeout,
      perform, throw. simpl. rewrite Hr. simpl.
    destruct (songs r !! currentRound r) eqn:Hsong; simpl;
      rewrite ?lookup_alter_eq, Hr; simpl; show_song;
      intros _; (split; [lia|]); rewrite Nat.sub_0_r; congruence.
  - unfold timeout_elapsed, bind, get_room, update_room, emit, setTimeout,
      perform, ret. simpl. rewrite Hr.
    destruct (roundActive r && current_is song r); simpl;
      rewrite ?lookup_alter_eq, Hr; simpl; show_song.
Qed.

Lemma run_plays_its_song k (evs : list Event) :
  forall (s : Server) r,
    rooms s !! k = Some r -> plays_its_song r ->
    Forall (no_restart k) evs ->
    exists r', rooms (fst (run s evs)) !! k = Some r' /\
      songs r' = songs r /\ plays_its_song r'.
Proof.
  induction evs as [|ev evs IH]; intros s r Hr Hinv Hevs.
  - exists r. auto.
  - apply Forall_cons in Hevs as [Hev Hevs]. rewrite run_cons. cbn [fst].
    destruct (step_lift k s ev r
                (fun r' _ => songs r' = songs r /\ plays_its_song r') Hr)
      as (r1 & Hr1 & Hs1 & Hinv1); auto.
    + intros Hroom. apply own_handle_song; assumption.
    + intros cb Hcb. apply own_callback_song; assumption.
    + destruct (IH _ r1 Hr1 Hinv1 Hevs) as (r2 & Hr2 & Hs2 & Hinv2).
      exists r2. split; [exact Hr2|]. split; [congruence | exact Hinv2].
Qed.

(** X21.  The song being guessed is the song of the round.  From a room
    that is between rounds, and as long as no playlist is delivered to it,
    every state reached has the playlist it had, and whenever a round is
    active there the round counter is at least 1 and [currentSong] is the
    playlist entry at index [currentRound - 1]. *)
Theorem active_round_plays_its_song k (s : Server) (evs : list Event) r :
  rooms s !! k = Some r -> roundActive r = false ->
  Forall (no_restart k) evs ->
  exists r', rooms (fst (run s evs)) !! k = Some r' /\
    songs r' = songs r /\
    (roundActive r' = true ->
     (1 <= currentRound r')%nat /\
     currentSong r' = songs r' !! (currentRound r' - 1)%nat).
Proof.
  intros Hr Hoff Hevs.
  apply (run_plays_its_song k evs s r Hr); [|exact Hevs].
  unfold plays_its_song. rewrite Hoff. discriminate.
Qed.

End ActiveSong.

(** The first round of a game of two songs has begun: the countdown was
    armed and has elapsed. *)
Lemma active_round_plays_its_song_witness :
  let r := set_currentRound 0 (set_roundActive false
             (set_currentSong None Demo.room)) in
  let s := {| rooms := {[ "AB12C"%string := r ]};
              pending := [{| timer_cb := StartRound "AB12C";
                             timer_ms := 1000 |}] |} in
  let s' := fst (@run ascii_only_ops s [TimerFires 0; TimerFires 0]) in
  exists r', rooms s' !! "AB12C"%string = Some r' /\
    songs r' = [Demo.wonderwall; Demo.creep] /\
    roundActive r' = true /\
    (1 <= currentRound r')%nat /\
    currentSong r' = songs r' !! (currentRound r' - 1)%nat /\
    currentSong r' = Some Demo.wonderwall.
Proof.
  cbv zeta.
  destruct (@active_round_plays_its_song ascii_only_ops "AB12C"
              {| rooms := {[ "AB12C"%string :=
                    set_currentRound 0 (set_roundActive false
                      (set_currentSong None Demo.room)) ]};
                 pending := [{| timer_cb := StartRound "AB12C";
                                timer_ms := 1000 |}] |}
              [TimerFires 0; TimerFires 0]
              (set_currentRound 0 (set_roundActive false
                 (set_currentSong None Demo.room))))
    as (r' & Hr' & Hsongs & Hplays).
  - reflexivity.
  - reflexivity.
  - repeat constructor.
  - exists r'. split; [exact Hr'|]. split; [exact Hsongs|].
    assert (Hact : roundActive r' = true).
    { vm_compute in Hr'. injection Hr' as <-. reflexivity. }
    destruct (Hplays Hact) as [Hone Hsong].
    split; [exact Hact|]. split; [exact Hone|]. split; [exact Hsong|].
    vm_compute in Hr'. injection Hr' as <-. reflexivity.
Defined.

(** ** Upper and lower case *)

Section LetterCase.
Context {U : UnicodeOps}.

(** X22.  The matcher does not see the case of ASCII letters: two guesses
    made of ASCII characters that differ only in the case of their letters
    get the same verdict, and so do two such titles. *)
Theorem checkAnswer_ignores_ascii_case (g g' a a' : jsstring) :
  forallb is_ascii g = true -> forallb is_ascii g' = true ->
  forallb is_ascii a = true -> forallb is_ascii a' = true ->
  map ascii_lower g = map ascii_lower g' ->
  map ascii_lower a = map ascii_lower a' ->
  checkAnswer (JsString g) (JsString a)
  = checkAnswer (JsString g') (JsString a').
Proof.
  intros Hg Hg' Ha Ha' Eg Ea.
  assert (Hnil : forall s s' : jsstring,
             map ascii_lower s = map ascii_lower s' -> is_nil s = is_nil s').
  { intros [|c s] [|c' s'] E; simpl in E; try discriminate; reflexivity. }
  assert (Hclean : forall s s' : jsstring,
             forallb is_ascii s = true -> forallb is_ascii s' = true ->
             map ascii_lower s = map ascii_lower s' -> clean s = clean s').
  { intros s s' Hs Hs' E. unfold clean.
    rewrite (toLowerCase_ascii s Hs), (toLowerCase_ascii s' Hs'), E.
    reflexivity. }
  unfold checkAnswer, clean_value, truthy.
  rewrite (Hnil g g' Eg), (Hnil a a' Ea).
  rewrite (Hclean g g' Hg Hg' Eg), (Hclean a a' Ha Ha' Ea). reflexivity.
Qed.

End LetterCase.

Lemma checkAnswer_ignores_ascii_case_witness :
  @checkAnswer ascii_only_ops (JsString (js "WONDERWALL"))
    (JsString (js "Wonderwall"))
  = @checkAnswer ascii_only_ops (JsString (js "wonderwall"))
      (JsString (js "WonderWall")).
Proof.
  apply (@checkAnswer_ignores_ascii_case ascii_only_ops); reflexivity.
Defined.
